(** * Guitar tab web player: audio engine, tab sequencer and controller

    A shallow embedding of [src/js/audio.js] (classes [GuitarAudioEngine],
    [GuitarVoice] and [TabSequencer]) and of the part of the controller
    [GuitarTabPlayer] that drives them, together with the properties of the
    transport, of the cancellation path, of the loading of a tab and of the
    Karplus-Strong loop.

    Conventions of the embedding.

    - JavaScript numbers are modelled by exact rationals ([Q]).  The
      rounding of double arithmetic, [NaN] and the infinities are outside
      the model; a JavaScript division is [Qdiv], which agrees with it
      whenever the divisor is not zero.  Results on numbers are stated up
      to [Qeq] ([==]).  The one rounding that is modelled is that of the
      noise burst stored in the [Float32Array] of a voice ([Math_fround]).
    - The clock [audioContext.currentTime] is an explicit argument [now] of
      every operation that reads it.
    - Objects that the code shares by reference (oscillators, per-note gain
      nodes) live in a store inside the engine state; the registries
      [activeOscillators] and [activeVoices] hold indices into that store.
    - The platform (Web Audio) is modelled only as far as the code drives
      it: an automation timeline per [AudioParam] and start/stop times per
      oscillator. *)

From Stdlib Require Import QArith Qround Qpower Lqa ZArith Lia Bool List.
From Stdlib Require Import Sorting.Sorted Sorting.Permutation.
From stdpp Require Import base list.
Import ListNotations.

Local Open Scope Q_scope.

(** ** Numbers *)

Definition Qltb (a b : Q) : bool := negb (Qle_bool b a).

(** [Math.max] and [Math.min] on numbers. *)
Definition Math_max (a b : Q) : Q := if Qle_bool a b then b else a.
Definition Math_min (a b : Q) : Q := if Qle_bool a b then a else b.

(** Storing a number in a [Float32Array] rounds it to the nearest float32,
    halves to the even significand: 24 significant bits, with the spacing
    [2^-149] below [2^-126].  Numbers beyond the largest float32, which the
    array holds as an infinity, are outside the model. *)

(** To the nearest integer, halves to the even one. *)
Definition roundHalfEven (x : Q) : Z :=
  let f := Qfloor x in
  let r := x - inject_Z f in
  if Qltb r (1 # 2) then f
  else if Qltb (1 # 2) r then (f + 1)%Z
  else if Z.even f then f else (f + 1)%Z.

(** [floor(log2 x)] for a positive [x]. *)
Definition floorLog2 (x : Q) : Z :=
  let k := (Z.log2 (Qnum x) - Z.log2 (Zpos (Qden x)))%Z in
  if Qle_bool (2 ^ k) x then k else (k - 1)%Z.

(** The float32 nearest to [x], for [x >= 0]. *)
Definition froundPos (x : Q) : Q :=
  if Qle_bool x 0 then 0
  else
    let e := Z.max (-126) (floorLog2 x) in
    let ulp := 2 ^ (e - 23) in
    inject_Z (roundHalfEven (x / ulp)) * ulp.

(** [Math.fround]: the value that a [Float32Array] holds after [x] is
    stored in it. *)
Definition Math_fround (x : Q) : Q :=
  if Qltb x 0 then - froundPos (- x) else froundPos x.

(** ** The platform: automation timelines and oscillators

    What the engine relies on from the Web Audio graph.  An [AudioParam]
    carries an intrinsic value and a timeline of scheduled events kept in
    time order; an oscillator carries the times given to [start] and
    [stop]. *)

Module WebAudio.

Inductive EventKind := SetValue | LinearRamp | ExponentialRamp.

Record ParamEvent := mkEvent {
  ev_kind : EventKind;
  ev_value : Q;
  ev_time : Q
}.

Record AudioParam := mkAudioParam {
  p_value : Q;                   (* the [.value] the node was given *)
  p_events : list ParamEvent     (* scheduled events, earliest first *)
}.

(** [createGain()] followed by [gain.value = v]. *)
Definition mkParam (v : Q) : AudioParam := mkAudioParam v [].

(** [cancelScheduledValues(t)] drops every event scheduled at or after [t]. *)
Definition cancelScheduledValues (t : Q) (p : AudioParam) : AudioParam :=
  mkAudioParam (p_value p)
    (List.filter (fun e => Qltb (ev_time e) t) (p_events p)).

(** A new event goes after the events scheduled at or before its time. *)
Fixpoint insertEvent (e : ParamEvent) (l : list ParamEvent) : list ParamEvent :=
  match l with
  | [] => [e]
  | x :: r =>
      if Qle_bool (ev_time x) (ev_time e) then x :: insertEvent e r
      else e :: l
  end.

Definition schedule (k : EventKind) (v t : Q) (p : AudioParam) : AudioParam :=
  mkAudioParam (p_value p) (insertEvent (mkEvent k v t) (p_events p)).

Definition setValueAtTime := schedule SetValue.
Definition linearRampToValueAtTime := schedule LinearRamp.
Definition exponentialRampToValueAtTime := schedule ExponentialRamp.

(** The value of a timeline at time [tau].  [v] is the value reached at
    the previous event, [prev] that event's time.  Inside an exponential
    ramp, or inside a ramp with no event before it, the value is not a
    rational function of the data and is left undetermined ([None]). *)
Fixpoint timelineAt (prev : option Q) (v : Q) (l : list ParamEvent) (tau : Q)
  : option Q :=
  match l with
  | [] => Some v
  | e :: r =>
      if Qltb tau (ev_time e) then
        match ev_kind e, prev with
        | SetValue, _ => Some v
        | LinearRamp, Some t0 =>
            Some (v + (ev_value e - v) * ((tau - t0) / (ev_time e - t0)))
        | LinearRamp, None => None
        | ExponentialRamp, _ => None
        end
      else timelineAt (Some (ev_time e)) (ev_value e) r tau
  end.

Definition valueAt (p : AudioParam) (tau : Q) : option Q :=
  timelineAt None (p_value p) (p_events p) tau.

(** Reading [param.value] at time [now]. *)
Definition currentValue (p : AudioParam) (now : Q) : Q :=
  default (p_value p) (valueAt p now).

Inductive OscType := sine | triangle | sawtooth | square.

Record Oscillator := mkOscillator {
  osc_frequency : Q;
  osc_type : OscType;
  osc_start : option Q;
  osc_stop : option Q
}.

(** [createOscillator()]: 440 Hz sine, not started. *)
Definition createOscillator : Oscillator := mkOscillator 440 sine None None.

Definition setFrequency (f : Q) (o : Oscillator) : Oscillator :=
  mkOscillator f (osc_type o) (osc_start o) (osc_stop o).

Definition setType (ty : OscType) (o : Oscillator) : Oscillator :=
  mkOscillator (osc_frequency o) ty (osc_start o) (osc_stop o).

(** [start(t)]; a second [start] raises [InvalidStateError] ([None]). *)
Definition start (t : Q) (o : Oscillator) : option Oscillator :=
  match osc_start o with
  | None => Some (mkOscillator (osc_frequency o) (osc_type o) (Some t) (osc_stop o))
  | Some _ => None
  end.

(** [stop(t)]; raises [InvalidStateError] ([None]) before [start].  The
    engine calls it on an oscillator that has no stop time yet, or with
    [t] the current time; in the second case a stop time [b <= t] means
    that the oscillator has already ended, and it stays as it is. *)
Definition stop (t : Q) (o : Oscillator) : option Oscillator :=
  match osc_start o with
  | None => None
  | Some _ =>
      let t' := match osc_stop o with
                | Some b => if Qle_bool b t then b else t
                | None => t
                end in
      Some (mkOscillator (osc_frequency o) (osc_type o) (osc_start o) (Some t'))
  end.

(** An oscillator produces signal from its start time up to its stop time. *)
Definition sounding (o : Oscillator) (tau : Q) : bool :=
  match osc_start o with
  | None => false
  | Some a =>
      Qle_bool a tau &&
      match osc_stop o with
      | Some b => Qltb tau b
      | None => true
      end
  end.

Inductive FilterType := lowpass | highpass.

Record BiquadFilter := mkBiquad {
  bq_type : FilterType;
  bq_frequency : Q;
  bq_Q : Q
}.

End WebAudio.
Import WebAudio.

(** ** Data of the tab *)

Record NoteEvent := mkNote {
  string : Z;
  fret : Z;
  beatPosition : Q;
  beatDuration : Q;
  globalBeatPosition : option Q     (* [None] is JavaScript's [undefined] *)
}.

Record Measure := mkMeasure {
  notes : list NoteEvent
}.

Record TabData := mkTab {
  tab_tempo : option Q;             (* the optional [tempo] field *)
  measures : list Measure
}.

(** ** GuitarAudioEngine *)

Record StringCharacteristic := mkStringChar {
  damping : Q;
  tension : Q;
  pluckPos : Q;
  isWound : bool
}.

Definition standardTuning : list Z := [64; 59; 55; 50; 45; 40]%Z.

Definition stringCharacteristics : list StringCharacteristic :=
  [ mkStringChar (9995 # 10000) 1 (3 # 10) false;   (* High E *)
    mkStringChar (9996 # 10000) 1 (3 # 10) false;   (* B *)
    mkStringChar (9997 # 10000) 1 (3 # 10) false;   (* G *)
    mkStringChar (9998 # 10000) 1 (3 # 10) true;    (* D *)
    mkStringChar (9998 # 10000) 1 (3 # 10) true;    (* A *)
    mkStringChar (9999 # 10000) 1 (3 # 10) true ].  (* Low E *)

(** Indexing a JavaScript array with a number: [undefined] ([None]) outside
    the array. *)
Definition jsIndex {A : Type} (l : list A) (i : Z) : option A :=
  if (i <? 0)%Z then None else l !! Z.to_nat i.

(** Keys of the [activeVoices] map.  [playSimpleGuitarNote] registers a
    voice under the string [`${midiNote}-${startTime}`]; the clean-up timer
    of [playNote] deletes the number [midiNote], which is a different key. *)
Inductive VoiceKey :=
| NoteId (midiNote : Z) (startTime : Q)
| MidiKey (midiNote : Z).

Definition VoiceKey_eqb (a b : VoiceKey) : bool :=
  match a, b with
  | NoteId m s, NoteId m' s' => (m =? m')%Z && Qeq_bool s s'
  | MidiKey m, MidiKey m' => (m =? m')%Z
  | _, _ => false
  end.

(** The nodes built for one note: five harmonic oscillators, each through
    its own gain into the mix gain, then two filters, the envelope and the
    stoppable gain, which feeds the master gain. *)
Record Voice := mkVoice {
  v_harmonics : list (nat * Q);     (* oscillator, value of its harmonic gain *)
  v_mixGain : Q;
  v_filter1 : BiquadFilter;
  v_filter2 : BiquadFilter;
  v_envelope : AudioParam;
  v_vibrato : nat;                  (* oscillator feeding [vibratoGain] only *)
  v_vibratoGain : Q;
  v_stoppableGain : AudioParam
}.

Record GuitarAudioEngine := mkEngine {
  audioContext : bool;                      (* [false] is [null] *)
  masterGain : option AudioParam;
  activeVoices : list (VoiceKey * nat);     (* Map: key -> stoppable gain of a voice *)
  activeOscillators : list nat;             (* Set of oscillators *)
  isInitialized : bool;
  oscillators : list Oscillator;            (* store of the oscillators created *)
  voices : list Voice                       (* store of the per-note graphs *)
}.

(** [new GuitarAudioEngine()] *)
Definition newEngine : GuitarAudioEngine :=
  mkEngine false None [] [] false [] [].

Definition set_masterGain (g : option AudioParam) (e : GuitarAudioEngine) :=
  mkEngine (audioContext e) g (activeVoices e) (activeOscillators e)
    (isInitialized e) (oscillators e) (voices e).

Definition set_activeVoices (m : list (VoiceKey * nat)) (e : GuitarAudioEngine) :=
  mkEngine (audioContext e) (masterGain e) m (activeOscillators e)
    (isInitialized e) (oscillators e) (voices e).

Definition set_activeOscillators (s : list nat) (e : GuitarAudioEngine) :=
  mkEngine (audioContext e) (masterGain e) (activeVoices e) s
    (isInitialized e) (oscillators e) (voices e).

Definition set_oscillators (os : list Oscillator) (e : GuitarAudioEngine) :=
  mkEngine (audioContext e) (masterGain e) (activeVoices e) (activeOscillators e)
    (isInitialized e) os (voices e).

Definition set_voices (vs : list Voice) (e : GuitarAudioEngine) :=
  mkEngine (audioContext e) (masterGain e) (activeVoices e) (activeOscillators e)
    (isInitialized e) (oscillators e) vs.

(** [Map.prototype.set], [delete]: an existing key keeps its place. *)
Fixpoint mapSet (k : VoiceKey) (v : nat) (m : list (VoiceKey * nat)) :=
  match m with
  | [] => [(k, v)]
  | (k', v') :: r =>
      if VoiceKey_eqb k' k then (k', v) :: r else (k', v') :: mapSet k v r
  end.

Definition mapDelete (k : VoiceKey) (m : list (VoiceKey * nat)) :=
  List.filter (fun kv => negb (VoiceKey_eqb (fst kv) k)) m.

(** [Set.prototype.add], [delete]. *)
Definition setAdd (x : nat) (s : list nat) : list nat :=
  if existsb (Nat.eqb x) s then s else s ++ [x].

Definition setDelete (x : nat) (s : list nat) : list nat :=
  List.filter (fun y => negb (Nat.eqb x y)) s.

(** [initialize()]: [available] tells whether the platform lets the page
    create an [AudioContext]; otherwise the error is rethrown ([None]). *)
Definition initialize (available : bool) (e : GuitarAudioEngine)
  : option GuitarAudioEngine :=
  if isInitialized e then Some e
  else if available then
    Some (mkEngine true (Some (mkParam (3 # 10))) (activeVoices e)
            (activeOscillators e) true (oscillators e) (voices e))
  else None.

(** [ensureAudioContext()]; resuming a suspended context changes nothing
    that the model keeps. *)
Definition ensureAudioContext (available : bool) (e : GuitarAudioEngine)
  : option GuitarAudioEngine :=
  if isInitialized e then Some e else initialize available e.

Definition noteEventToMidiNote (noteEvent : NoteEvent) : Z :=
  if ((fret noteEvent <? 0) || (string noteEvent <? 0) || (6 <=? string noteEvent))%Z
  then (-1)%Z
  else (default 0 (jsIndex standardTuning (string noteEvent)) + fret noteEvent)%Z.

Record Harmonic := mkHarmonic {
  h_freq : Q;
  h_amp : Q;
  h_type : OscType
}.

(** The table [harmonics] of [playSimpleGuitarNote]. *)
Definition harmonicsTable (frequency : Q) : list Harmonic :=
  [ mkHarmonic frequency 1 triangle;                    (* Fundamental *)
    mkHarmonic (frequency * 2) (6 # 10) sine;           (* 2nd harmonic *)
    mkHarmonic (frequency * 3) (3 # 10) sine;           (* 3rd harmonic *)
    mkHarmonic (frequency * 4) (15 # 100) sine;         (* 4th harmonic *)
    mkHarmonic (frequency * 5) (1 # 10) sine ].         (* 5th harmonic *)

(** The amplitude given to the gain of the harmonic at (0-based) [index]. *)
Definition harmonicAmp (stringChar : StringCharacteristic) (index : nat)
  (harmonic : Harmonic) : Q :=
  if isWound stringChar && (1 <? index)%nat
  then h_amp harmonic * (7 # 10)
  else h_amp harmonic.

(** The body of [harmonics.forEach]: one oscillator per entry, tracked in
    [activeOscillators], started at [startTime] and stopped at
    [startTime + duration].  [acc] collects the inputs of the mix gain. *)
Fixpoint forEachHarmonic (stringChar : StringCharacteristic)
  (startTime duration : Q) (index : nat) (hs : list Harmonic)
  (e : GuitarAudioEngine) (acc : list (nat * Q))
  : option (GuitarAudioEngine * list (nat * Q)) :=
  match hs with
  | [] => Some (e, acc)
  | harmonic :: rest =>
      let id := length (oscillators e) in
      let oscillator :=
        setType (h_type harmonic) (setFrequency (h_freq harmonic) createOscillator) in
      o1 ← start startTime oscillator;
      o2 ← stop (startTime + duration) o1;
      forEachHarmonic stringChar startTime duration (S index) rest
        (set_activeOscillators (setAdd id (activeOscillators e))
           (set_oscillators (oscillators e ++ [o2]) e))
        (acc ++ [(id, harmonicAmp stringChar index harmonic)])
  end.

(** The envelope scheduled for a note. *)
Definition guitarEnvelope (sustainLevel startTime duration : Q) : AudioParam :=
  exponentialRampToValueAtTime (1 # 1000) (startTime + duration)
    (exponentialRampToValueAtTime sustainLevel (startTime + (2 # 10))
       (exponentialRampToValueAtTime (4 # 10) (startTime + (5 # 100))
          (linearRampToValueAtTime 1 (startTime + (2 # 1000))
             (setValueAtTime 0 startTime (mkParam 1))))).

Section Engine.

(** The pitch of a MIDI note, [440 * 2^((midiNote - 69) / 12)], is not a
    rational number in general; the engine is modelled for any map from
    MIDI notes to frequencies. *)
Variable midiFrequency : Z -> Q.

(** [playSimpleGuitarNote(midiNote, startTime, duration, stringIndex)].
    [None] stands for the [TypeError] raised when there is no audio
    context, no master gain or no characteristics for the string. *)
Definition playSimpleGuitarNote (midiNote : Z) (startTime duration : Q)
  (stringIndex : Z) (e : GuitarAudioEngine) : option GuitarAudioEngine :=
  let frequency := midiFrequency midiNote in
  if negb (audioContext e) then None else
  stringChar ← jsIndex stringCharacteristics stringIndex;
  _ ← masterGain e;
  '(e1, mix) ← forEachHarmonic stringChar startTime duration 0
                 (harmonicsTable frequency) e [];
  let filter1 :=
    mkBiquad lowpass (frequency * (if isWound stringChar then 4 else 6)) (15 # 10) in
  let filter2 := mkBiquad highpass (frequency * (5 # 10)) (7 # 10) in
  let sustainLevel := damping stringChar * (25 # 100) in
  let envelope := guitarEnvelope sustainLevel startTime duration in
  let vibratoId := length (oscillators e1) in
  let vibrato := setType sine (setFrequency (45 # 10) createOscillator) in
  v1 ← start (startTime + (1 # 10)) vibrato;
  v2 ← stop (startTime + duration) v1;
  let e2 := set_activeOscillators (setAdd vibratoId (activeOscillators e1))
              (set_oscillators (oscillators e1 ++ [v2]) e1) in
  let voice := mkVoice mix (3 # 10) filter1 filter2 envelope vibratoId
                 (frequency * (5 # 1000)) (mkParam 1) in
  let voiceId := length (voices e2) in
  Some (set_activeVoices (mapSet (NoteId midiNote startTime) voiceId (activeVoices e2))
          (set_voices (voices e2 ++ [voice]) e2)).

(** [playNote(noteEvent, startTime, duration)] called at clock time [now]. *)
Definition playNote (available : bool) (noteEvent : NoteEvent)
  (startTime duration now : Q) (e : GuitarAudioEngine)
  : option GuitarAudioEngine :=
  e1 ← ensureAudioContext available e;
  let midiNote := noteEventToMidiNote noteEvent in
  if (midiNote <? 0)%Z then Some e1
  else
    let actualStartTime := now + startTime in
    playSimpleGuitarNote midiNote actualStartTime duration (string noteEvent) e1.

End Engine.

(** The timers and listeners that the engine leaves behind, as events. *)

(** Listener of ['ended'] on an oscillator. *)
Definition oscillatorEnded (id : nat) (e : GuitarAudioEngine) : GuitarAudioEngine :=
  set_activeOscillators (setDelete id (activeOscillators e)) e.

(** Timer of [playSimpleGuitarNote], after [(duration + 0.5) * 1000] ms. *)
Definition voiceCleanup (noteId : VoiceKey) (e : GuitarAudioEngine) : GuitarAudioEngine :=
  set_activeVoices (mapDelete noteId (activeVoices e)) e.

(** Timer of [playNote], after [(duration + 2) * 1000] ms. *)
Definition playNoteCleanup (midiNote : Z) (e : GuitarAudioEngine) : GuitarAudioEngine :=
  set_activeVoices (mapDelete (MidiKey midiNote) (activeVoices e)) e.

(** [try { osc.stop(t) } catch {}] *)
Definition tryStop (t : Q) (o : Oscillator) : Oscillator :=
  default o (stop t o).

(** [g.gain.cancelScheduledValues(t); g.gain.setValueAtTime(0, t)] *)
Definition zeroGain (t : Q) (v : Voice) : Voice :=
  mkVoice (v_harmonics v) (v_mixGain v) (v_filter1 v) (v_filter2 v)
    (v_envelope v) (v_vibrato v) (v_vibratoGain v)
    (setValueAtTime 0 t (cancelScheduledValues t (v_stoppableGain v))).

(** The hard mute of the master gain in [stopAllNotes]. *)
Definition muteMaster (t : Q) (g : AudioParam) : AudioParam :=
  let g1 := cancelScheduledValues t g in
  let g2 := setValueAtTime (currentValue g1 t) t g1 in
  linearRampToValueAtTime (1 # 10000) (t + (1 # 100)) g2.

(** [stopAllNotes()] at clock time [t]. *)
Definition stopAllNotes (t : Q) (e : GuitarAudioEngine) : GuitarAudioEngine :=
  if negb (audioContext e) then e else
  let master := muteMaster t <$> masterGain e in
  let oscs := foldl (fun os id => alter (tryStop t) id os)
                (oscillators e) (activeOscillators e) in
  let vs := foldl (fun vs kv => alter (zeroGain t) (snd kv) vs)
              (voices e) (activeVoices e) in
  mkEngine (audioContext e) master [] [] (isInitialized e) oscs vs.

(** [emergencyStop()] does nothing. *)
Definition emergencyStop (e : GuitarAudioEngine) : GuitarAudioEngine := e.

(** [setMasterVolume(volume)] at clock time [now]. *)
Definition setMasterVolume (volume now : Q) (e : GuitarAudioEngine) : GuitarAudioEngine :=
  match masterGain e with
  | Some g =>
      if audioContext e then
        set_masterGain
          (Some (setValueAtTime (Math_max 0 (Math_min 1 volume)) now
                   (cancelScheduledValues now g))) e
      else e
  | None => e
  end.

(** [resumeAudio()] *)
Definition resumeAudio (now : Q) (e : GuitarAudioEngine) : GuitarAudioEngine :=
  setMasterVolume (3 # 10) now e.

(** ** TabSequencer *)

(** An entry of [allNotes]. *)
Record NoteData := mkNoteData {
  nd_note : NoteEvent;
  nd_beatPosition : Q;
  nd_beatDuration : Q;
  nd_triggered : bool
}.

Record TabSequencer := mkSequencer {
  audioEngine : GuitarAudioEngine;
  isPlaying : bool;
  isPaused : bool;
  currentBeat : Q;
  tempo : Q;
  tabData : option TabData;
  allNotes : list NoteData;
  playbackTimer : bool;             (* an interval is installed *)
  startTime : Q;
  pausedTime : Q;
  totalPausedDuration : Q;
  onProgressCallback : bool;        (* a callback is registered *)
  onCompleteCallback : bool;
  isLooping : bool;
  totalDuration : Q;
  loopStartMeasure : Q;
  loopEndMeasure : Q;
  progressReports : list Q;         (* arguments passed to the progress callback, latest first *)
  completions : nat                 (* calls of the completion callback *)
}.

(** [new TabSequencer(audioEngine)] *)
Definition newSequencer (e : GuitarAudioEngine) : TabSequencer :=
  mkSequencer e false false 0 120 None [] false 0 0 0 false false false 0 1 8 [] 0.

Definition set_audioEngine (x : GuitarAudioEngine) (s : TabSequencer) :=
  mkSequencer x (isPlaying s) (isPaused s) (currentBeat s) (tempo s) (tabData s)
    (allNotes s) (playbackTimer s) (startTime s) (pausedTime s)
    (totalPausedDuration s) (onProgressCallback s) (onCompleteCallback s)
    (isLooping s) (totalDuration s) (loopStartMeasure s) (loopEndMeasure s)
    (progressReports s) (completions s).

Definition set_flags (playing paused : bool) (s : TabSequencer) :=
  mkSequencer (audioEngine s) playing paused (currentBeat s) (tempo s) (tabData s)
    (allNotes s) (playbackTimer s) (startTime s) (pausedTime s)
    (totalPausedDuration s) (onProgressCallback s) (onCompleteCallback s)
    (isLooping s) (totalDuration s) (loopStartMeasure s) (loopEndMeasure s)
    (progressReports s) (completions s).

Definition set_currentBeat (x : Q) (s : TabSequencer) :=
  mkSequencer (audioEngine s) (isPlaying s) (isPaused s) x (tempo s) (tabData s)
    (allNotes s) (playbackTimer s) (startTime s) (pausedTime s)
    (totalPausedDuration s) (onProgressCallback s) (onCompleteCallback s)
    (isLooping s) (totalDuration s) (loopStartMeasure s) (loopEndMeasure s)
    (progressReports s) (completions s).

Definition set_tempo (x : Q) (s : TabSequencer) :=
  mkSequencer (audioEngine s) (isPlaying s) (isPaused s) (currentBeat s) x (tabData s)
    (allNotes s) (playbackTimer s) (startTime s) (pausedTime s)
    (totalPausedDuration s) (onProgressCallback s) (onCompleteCallback s)
    (isLooping s) (totalDuration s) (loopStartMeasure s) (loopEndMeasure s)
    (progressReports s) (completions s).

Definition set_tabData (x : option TabData) (s : TabSequencer) :=
  mkSequencer (audioEngine s) (isPlaying s) (isPaused s) (currentBeat s) (tempo s) x
    (allNotes s) (playbackTimer s) (startTime s) (pausedTime s)
    (totalPausedDuration s) (onProgressCallback s) (onCompleteCallback s)
    (isLooping s) (totalDuration s) (loopStartMeasure s) (loopEndMeasure s)
    (progressReports s) (completions s).

Definition set_allNotes (x : list NoteData) (s : TabSequencer) :=
  mkSequencer (audioEngine s) (isPlaying s) (isPaused s) (currentBeat s) (tempo s)
    (tabData s) x (playbackTimer s) (startTime s) (pausedTime s)
    (totalPausedDuration s) (onProgressCallback s) (onCompleteCallback s)
    (isLooping s) (totalDuration s) (loopStartMeasure s) (loopEndMeasure s)
    (progressReports s) (completions s).

Definition set_playbackTimer (x : bool) (s : TabSequencer) :=
  mkSequencer (audioEngine s) (isPlaying s) (isPaused s) (currentBeat s) (tempo s)
    (tabData s) (allNotes s) x (startTime s) (pausedTime s)
    (totalPausedDuration s) (onProgressCallback s) (onCompleteCallback s)
    (isLooping s) (totalDuration s) (loopStartMeasure s) (loopEndMeasure s)
    (progressReports s) (completions s).

Definition set_startTime (x : Q) (s : TabSequencer) :=
  mkSequencer (audioEngine s) (isPlaying s) (isPaused s) (currentBeat s) (tempo s)
    (tabData s) (allNotes s) (playbackTimer s) x (pausedTime s)
    (totalPausedDuration s) (onProgressCallback s) (onCompleteCallback s)
    (isLooping s) (totalDuration s) (loopStartMeasure s) (loopEndMeasure s)
    (progressReports s) (completions s).

Definition set_pausedTime (x : Q) (s : TabSequencer) :=
  mkSequencer (audioEngine s) (isPlaying s) (isPaused s) (currentBeat s) (tempo s)
    (tabData s) (allNotes s) (playbackTimer s) (startTime s) x
    (totalPausedDuration s) (onProgressCallback s) (onCompleteCallback s)
    (isLooping s) (totalDuration s) (loopStartMeasure s) (loopEndMeasure s)
    (progressReports s) (completions s).

Definition set_totalPausedDuration (x : Q) (s : TabSequencer) :=
  mkSequencer (audioEngine s) (isPlaying s) (isPaused s) (currentBeat s) (tempo s)
    (tabData s) (allNotes s) (playbackTimer s) (startTime s) (pausedTime s)
    x (onProgressCallback s) (onCompleteCallback s)
    (isLooping s) (totalDuration s) (loopStartMeasure s) (loopEndMeasure s)
    (progressReports s) (completions s).

Definition set_callbacks (progress complete : bool) (s : TabSequencer) :=
  mkSequencer (audioEngine s) (isPlaying s) (isPaused s) (currentBeat s) (tempo s)
    (tabData s) (allNotes s) (playbackTimer s) (startTime s) (pausedTime s)
    (totalPausedDuration s) progress complete
    (isLooping s) (totalDuration s) (loopStartMeasure s) (loopEndMeasure s)
    (progressReports s) (completions s).

Definition set_isLooping (x : bool) (s : TabSequencer) :=
  mkSequencer (audioEngine s) (isPlaying s) (isPaused s) (currentBeat s) (tempo s)
    (tabData s) (allNotes s) (playbackTimer s) (startTime s) (pausedTime s)
    (totalPausedDuration s) (onProgressCallback s) (onCompleteCallback s)
    x (totalDuration s) (loopStartMeasure s) (loopEndMeasure s)
    (progressReports s) (completions s).

Definition set_totalDuration (x : Q) (s : TabSequencer) :=
  mkSequencer (audioEngine s) (isPlaying s) (isPaused s) (currentBeat s) (tempo s)
    (tabData s) (allNotes s) (playbackTimer s) (startTime s) (pausedTime s)
    (totalPausedDuration s) (onProgressCallback s) (onCompleteCallback s)
    (isLooping s) x (loopStartMeasure s) (loopEndMeasure s)
    (progressReports s) (completions s).

Definition set_loopRange (a b : Q) (s : TabSequencer) :=
  mkSequencer (audioEngine s) (isPlaying s) (isPaused s) (currentBeat s) (tempo s)
    (tabData s) (allNotes s) (playbackTimer s) (startTime s) (pausedTime s)
    (totalPausedDuration s) (onProgressCallback s) (onCompleteCallback s)
    (isLooping s) (totalDuration s) a b
    (progressReports s) (completions s).

Definition set_observed (reports : list Q) (n : nat) (s : TabSequencer) :=
  mkSequencer (audioEngine s) (isPlaying s) (isPaused s) (currentBeat s) (tempo s)
    (tabData s) (allNotes s) (playbackTimer s) (startTime s) (pausedTime s)
    (totalPausedDuration s) (onProgressCallback s) (onCompleteCallback s)
    (isLooping s) (totalDuration s) (loopStartMeasure s) (loopEndMeasure s)
    reports n.

(** [if (tabData.tempo)]: the field is present and is not zero. *)
Definition truthy (x : option Q) : bool :=
  match x with
  | Some q => negb (Qeq_bool q 0)
  | None => false
  end.

Definition setTabData (tab : TabData) (s : TabSequencer) : TabSequencer :=
  let s1 := set_tabData (Some tab) s in
  if truthy (tab_tempo tab) then set_tempo (default 0 (tab_tempo tab)) s1 else s1.

Definition setTempo (bpm : Q) (s : TabSequencer) : TabSequencer :=
  set_tempo (Math_max 60 (Math_min 200 bpm)) s.

Definition setProgressCallback (s : TabSequencer) : TabSequencer :=
  set_callbacks true (onCompleteCallback s) s.

Definition setCompleteCallback (s : TabSequencer) : TabSequencer :=
  set_callbacks (onProgressCallback s) true s.

Definition setLooping (enabled : bool) (s : TabSequencer) : TabSequencer :=
  set_isLooping enabled s.

Definition setLoopRange (startMeasure endMeasure : Q) (s : TabSequencer) : TabSequencer :=
  set_loopRange startMeasure endMeasure s.

(** [if (this.onProgressCallback) this.onProgressCallback(progress)] *)
Definition reportProgress (progress : Q) (s : TabSequencer) : TabSequencer :=
  if onProgressCallback s
  then set_observed (progress :: progressReports s) (completions s) s
  else s.

(** [if (this.onCompleteCallback) this.onCompleteCallback()] *)
Definition reportComplete (s : TabSequencer) : TabSequencer :=
  if onCompleteCallback s
  then set_observed (progressReports s) (S (completions s)) s
  else s.

(** *** Flattening: [prepareNotes] *)

(** The beat that [prepareNotes] gives to a note. *)
Definition globalBeat (note : NoteEvent) : Q :=
  match globalBeatPosition note with
  | Some g => g
  | None => beatPosition note
  end.

Definition toNoteData (note : NoteEvent) : NoteData :=
  mkNoteData note (globalBeat note) (beatDuration note) false.

(** The two nested loops: every note with [fret >= 0], in measure order. *)
Definition collectNotes (ms : list Measure) : list NoteData :=
  flat_map (fun measure =>
              map toNoteData (List.filter (fun note => (0 <=? fret note)%Z) (notes measure)))
           ms.

(** [Array.prototype.sort] with the comparator
    [(a, b) => a.beatPosition - b.beatPosition]: a stable sort, modelled by
    insertion from the right. *)
Fixpoint insertNote (x : NoteData) (l : list NoteData) : list NoteData :=
  match l with
  | [] => [x]
  | y :: r =>
      if Qle_bool (nd_beatPosition x) (nd_beatPosition y) then x :: l
      else y :: insertNote x r
  end.

Definition sortNotes (l : list NoteData) : list NoteData :=
  foldr insertNote [] l.

(** [measures.length * 4] *)
Definition totalBeatsOf (tab : TabData) : Q :=
  inject_Z (Z.of_nat (length (measures tab))) * 4.

(** [prepareNotes()]; without tab data the read of [measures] raises after
    [allNotes] has been emptied. *)
Definition prepareNotes (s : TabSequencer) : TabSequencer :=
  let s1 := set_allNotes [] s in
  match tabData s with
  | None => s1
  | Some tab =>
      let beatDuration := 60 / tempo s in
      let totalBeats := totalBeatsOf tab in
      set_allNotes (sortNotes (collectNotes (measures tab)))
        (set_totalDuration (totalBeats * beatDuration) s1)
  end.

(** *** Transport *)

(** [startRealtimePlayback()] installs the interval; its callback is [tick]. *)
Definition startRealtimePlayback (s : TabSequencer) : TabSequencer :=
  set_playbackTimer true s.

Definition startFreshPlayback (now : Q) (s : TabSequencer) : TabSequencer :=
  let s1 := set_flags true false s in
  let s2 := set_currentBeat 0 s1 in
  let s3 := set_startTime now s2 in
  let s4 := set_totalPausedDuration 0 s3 in
  startRealtimePlayback (prepareNotes s4).

Definition resume (now : Q) (s : TabSequencer) : TabSequencer :=
  let s1 := set_flags true false s in
  let pauseDuration := now - pausedTime s1 in
  let s2 := set_totalPausedDuration (totalPausedDuration s1 + pauseDuration) s1 in
  startRealtimePlayback s2.

(** [play()]; [None] is the rejection of [ensureAudioContext]. *)
Definition play (available : bool) (now : Q) (s : TabSequencer) : option TabSequencer :=
  match tabData s with
  | None => Some s
  | Some _ =>
      e1 ← ensureAudioContext available (audioEngine s);
      let s1 := set_audioEngine (setMasterVolume (3 # 10) now e1) s in
      Some (if isPaused s1 then resume now s1 else startFreshPlayback now s1)
  end.

Definition stop (now : Q) (s : TabSequencer) : TabSequencer :=
  let s1 := set_flags false false s in
  let s2 := set_currentBeat 0 s1 in
  let s3 := set_totalPausedDuration 0 s2 in
  let s4 := set_playbackTimer false s3 in
  let s5 := set_audioEngine (stopAllNotes now (audioEngine s4)) s4 in
  reportProgress 0 s5.

(** [pause()]; without an audio context the read of [currentTime] raises
    after the two flags have been set. *)
Definition pause (now : Q) (s : TabSequencer) : TabSequencer :=
  let s1 := set_flags false true s in
  if negb (audioContext (audioEngine s1)) then s1 else
  let s2 := set_pausedTime now s1 in
  let s3 := set_playbackTimer false s2 in
  set_audioEngine (stopAllNotes now (audioEngine s3)) s3.

(** [loop()] *)
Definition inLoopRange (loopStartBeat loopEndBeat : Q) (noteData : NoteData) : bool :=
  Qle_bool loopStartBeat (nd_beatPosition noteData)
  && Qltb (nd_beatPosition noteData) loopEndBeat.

Definition untrigger (noteData : NoteData) : NoteData :=
  mkNoteData (nd_note noteData) (nd_beatPosition noteData)
    (nd_beatDuration noteData) false.

Definition loop (now : Q) (s : TabSequencer) : TabSequencer :=
  let loopStartBeat := (loopStartMeasure s - 1) * 4 in
  let s1 := set_currentBeat loopStartBeat s in
  let s2 := set_startTime (now - (loopStartBeat * 60 / tempo s1)) s1 in
  let s3 := set_totalPausedDuration 0 s2 in
  let loopEndBeat := loopEndMeasure s3 * 4 in
  set_allNotes
    (map (fun noteData =>
            if inLoopRange loopStartBeat loopEndBeat noteData
            then untrigger noteData else noteData)
         (allNotes s3))
    s3.

(** *** The tick *)

(** A call [audioEngine.playNote(note, startTime, duration)] issued by the
    tick.  [playNote] is asynchronous: its body runs after the tick
    callback has returned. *)
Record PlayCall := mkCall {
  call_note : NoteEvent;
  call_startTime : Q;
  call_duration : Q
}.

Definition lookahead : Q := 5 # 100.

(** The condition under which the tick fires a note. *)
Definition due (currentBeat : Q) (noteData : NoteData) : bool :=
  negb (nd_triggered noteData)
  && Qle_bool (nd_beatPosition noteData - lookahead) currentBeat
  && Qle_bool currentBeat (nd_beatPosition noteData + lookahead).

Definition fire (currentBeat beatDuration : Q) (noteData : NoteData) : PlayCall :=
  let noteStartTime :=
    Math_max 0 ((nd_beatPosition noteData - currentBeat) * beatDuration) in
  let noteDuration := nd_beatDuration noteData * beatDuration in
  mkCall (nd_note noteData) noteStartTime noteDuration.

Definition markTriggered (noteData : NoteData) : NoteData :=
  mkNoteData (nd_note noteData) (nd_beatPosition noteData)
    (nd_beatDuration noteData) true.

(** The [for] loop over [allNotes]: the updated entries and the calls
    issued, in order. *)
Fixpoint triggerNotes (currentBeat beatDuration : Q) (l : list NoteData)
  : list NoteData * list PlayCall :=
  match l with
  | [] => ([], [])
  | noteData :: rest =>
      let '(rest', calls) := triggerNotes currentBeat beatDuration rest in
      if due currentBeat noteData
      then (markTriggered noteData :: rest', fire currentBeat beatDuration noteData :: calls)
      else (noteData :: rest', calls)
  end.

(** The beat and the progress that a tick at clock time [now] computes.
    For a tab without measures [totalDuration] is 0 and the code divides by
    zero, getting an infinity or [NaN]; that case is outside these numbers,
    and the properties of the progress exclude it by a hypothesis. *)
Definition tickBeat (now : Q) (s : TabSequencer) : Q :=
  let elapsed := now - startTime s - totalPausedDuration s in
  let beatDuration := 60 / tempo s in
  elapsed / beatDuration.

Definition tickProgress (now : Q) (s : TabSequencer) : Q :=
  let beatDuration := 60 / tempo s in
  Math_min (tickBeat now s / (totalDuration s / beatDuration)) 1.

(** The callback of the interval, run at clock time [now]. Without tab data
    the read of [measures] raises after the progress report. *)
Definition tick (now : Q) (s : TabSequencer) : TabSequencer * list PlayCall :=
  if negb (isPlaying s) then (s, []) else
  let beatDuration := 60 / tempo s in
  let cb := tickBeat now s in
  let progress := tickProgress now s in
  let '(notes', calls) := triggerNotes cb beatDuration (allNotes s) in
  let s1 := set_allNotes notes' (set_currentBeat cb s) in
  let s2 := reportProgress progress s1 in
  match tabData s2 with
  | None => (s2, calls)
  | Some _ =>
      let loopEndBeat := loopEndMeasure s2 * 4 in
      if isLooping s2 && Qle_bool loopEndBeat (currentBeat s2) then (loop now s2, calls)
      else if negb (isLooping s2) && Qle_bool 1 progress
           then (reportComplete (stop now s2), calls)
           else (s2, calls)
  end.

(** The bodies of the [playNote] calls of a tick, run once the callback has
    returned. *)
Definition deliver (midiFrequency : Z -> Q) (available : bool) (now : Q)
  (calls : list PlayCall) (e : GuitarAudioEngine) : option GuitarAudioEngine :=
  foldl (fun oe c =>
           e' ← oe;
           playNote midiFrequency available (call_note c) (call_startTime c)
             (call_duration c) now e')
        (Some e) calls.

(** A run of ticks at the given clock times, with the calls of each. *)
Fixpoint runTicks (times : list Q) (s : TabSequencer)
  : TabSequencer * list (Q * list PlayCall) :=
  match times with
  | [] => (s, [])
  | now :: rest =>
      let '(s1, calls) := tick now s in
      let '(s2, log) := runTicks rest s1 in
      (s2, (now, calls) :: log)
  end.

(** ** GuitarTabPlayer, the controller

    The part of the controller that drives the sequencer and the engine:
    loading, tempo, loop range, transport buttons.  The page elements are
    left out, but for the two loop inputs, which the controller reads back;
    an input is modelled by what [parseInt] makes of its text ([None] is
    [NaN]).  The controller's [audioEngine] is the engine of its sequencer,
    one shared object. *)

(** A note of the legacy format. *)
Record LegacyNote := mkLegacyNote {
  legacy_string : Z;
  legacy_fret : Z;
  subdivision : Q;
  duration : Q
}.

(** [convertLegacyFormat(legacyData)], on the list of legacy measures, each
    the list of its notes. *)
Definition convertLegacyNote (measureIndex : nat) (note : LegacyNote) : NoteEvent :=
  mkNote (legacy_string note) (legacy_fret note)
    (subdivision note * (25 # 100))
    (duration note * (25 # 100))
    (Some (inject_Z (Z.of_nat measureIndex) * 4 + subdivision note * (25 # 100))).

Definition convertLegacyFormat (legacyMeasures : list (list LegacyNote)) : TabData :=
  mkTab None
    (imap (fun measureIndex measure =>
             mkMeasure (map (convertLegacyNote measureIndex) measure))
          legacyMeasures).

(** The body of the inner loop of [addGlobalBeatPositions]. *)
Definition addGlobalBeatPosition (measureIndex : nat) (note : NoteEvent) : NoteEvent :=
  match globalBeatPosition note with
  | Some _ => note
  | None =>
      mkNote (string note) (fret note) (beatPosition note) (beatDuration note)
        (Some (inject_Z (Z.of_nat measureIndex) * 4 + beatPosition note))
  end.

(** [addGlobalBeatPositions()], on the tab data. *)
Definition addGlobalBeatPositions (tab : TabData) : TabData :=
  mkTab (tab_tempo tab)
    (imap (fun measureIndex measure =>
             mkMeasure (map (addGlobalBeatPosition measureIndex) (notes measure)))
          (measures tab)).

Record GuitarTabPlayer := mkPlayer {
  player_tabData : option TabData;
  player_isPlaying : bool;
  currentTempo : Q;
  currentPosition : Q;
  player_currentBeat : Q;
  player_isLooping : bool;
  player_loopStartMeasure : Z;
  player_loopEndMeasure : Z;
  selectedMeasures : list Z;
  loopStartInput : option Z;
  loopEndInput : option Z;
  sequencer : TabSequencer
}.

(** The fields set by the constructor, before [loadTabData]; the two
    inputs are as the page gives them. *)
Definition newPlayer (startInput endInput : option Z) : GuitarTabPlayer :=
  mkPlayer None false 120 0 0 false 1 8 [] startInput endInput
    (setCompleteCallback (setProgressCallback (newSequencer newEngine))).

Definition set_sequencer (x : TabSequencer) (p : GuitarTabPlayer) :=
  mkPlayer (player_tabData p) (player_isPlaying p) (currentTempo p) (currentPosition p)
    (player_currentBeat p) (player_isLooping p) (player_loopStartMeasure p)
    (player_loopEndMeasure p) (selectedMeasures p) (loopStartInput p) (loopEndInput p) x.

Definition set_player_isPlaying (x : bool) (p : GuitarTabPlayer) :=
  mkPlayer (player_tabData p) x (currentTempo p) (currentPosition p)
    (player_currentBeat p) (player_isLooping p) (player_loopStartMeasure p)
    (player_loopEndMeasure p) (selectedMeasures p) (loopStartInput p) (loopEndInput p)
    (sequencer p).

Definition set_player_tabData (x : option TabData) (p : GuitarTabPlayer) :=
  mkPlayer x (player_isPlaying p) (currentTempo p) (currentPosition p)
    (player_currentBeat p) (player_isLooping p) (player_loopStartMeasure p)
    (player_loopEndMeasure p) (selectedMeasures p) (loopStartInput p) (loopEndInput p)
    (sequencer p).

Definition set_currentTempo (x : Q) (p : GuitarTabPlayer) :=
  mkPlayer (player_tabData p) (player_isPlaying p) x (currentPosition p)
    (player_currentBeat p) (player_isLooping p) (player_loopStartMeasure p)
    (player_loopEndMeasure p) (selectedMeasures p) (loopStartInput p) (loopEndInput p)
    (sequencer p).

Definition set_player_position (position beat : Q) (p : GuitarTabPlayer) :=
  mkPlayer (player_tabData p) (player_isPlaying p) (currentTempo p) position
    beat (player_isLooping p) (player_loopStartMeasure p)
    (player_loopEndMeasure p) (selectedMeasures p) (loopStartInput p) (loopEndInput p)
    (sequencer p).

Definition set_player_isLooping (x : bool) (p : GuitarTabPlayer) :=
  mkPlayer (player_tabData p) (player_isPlaying p) (currentTempo p) (currentPosition p)
    (player_currentBeat p) x (player_loopStartMeasure p)
    (player_loopEndMeasure p) (selectedMeasures p) (loopStartInput p) (loopEndInput p)
    (sequencer p).

Definition set_player_loop (a b : Z) (p : GuitarTabPlayer) :=
  mkPlayer (player_tabData p) (player_isPlaying p) (currentTempo p) (currentPosition p)
    (player_currentBeat p) (player_isLooping p) a b
    (selectedMeasures p) (loopStartInput p) (loopEndInput p) (sequencer p).

Definition set_selectedMeasures (x : list Z) (p : GuitarTabPlayer) :=
  mkPlayer (player_tabData p) (player_isPlaying p) (currentTempo p) (currentPosition p)
    (player_currentBeat p) (player_isLooping p) (player_loopStartMeasure p)
    (player_loopEndMeasure p) x (loopStartInput p) (loopEndInput p) (sequencer p).

Definition set_loopInputs (a b : option Z) (p : GuitarTabPlayer) :=
  mkPlayer (player_tabData p) (player_isPlaying p) (currentTempo p) (currentPosition p)
    (player_currentBeat p) (player_isLooping p) (player_loopStartMeasure p)
    (player_loopEndMeasure p) (selectedMeasures p) a b (sequencer p).

(** [parseInt(input.value) || d]: [d] for [NaN] and for 0. *)
Definition parsedOr (x : option Z) (d : Z) : Z :=
  match x with
  | Some v => if (v =? 0)%Z then d else v
  | None => d
  end.

(** [this.tabData?.measures.length || 8] *)
Definition measureCountOr8 (p : GuitarTabPlayer) : Z :=
  match player_tabData p with
  | Some tab =>
      if (Z.of_nat (length (measures tab)) =? 0)%Z then 8
      else Z.of_nat (length (measures tab))
  | None => 8
  end.

(** The measures [start, start + 1, ..., end]. *)
Definition measureRange (a b : Z) : list Z :=
  map (fun k => (a + Z.of_nat k)%Z) (seq 0 (Z.to_nat (b - a + 1))).

(** [updateLoopRange()] *)
Definition updateLoopRange (p : GuitarTabPlayer) : GuitarTabPlayer :=
  let loopStart := Z.max 1 (parsedOr (loopStartInput p) 1) in
  let loopEnd0 := Z.min (measureCountOr8 p) (parsedOr (loopEndInput p) 8) in
  let p1 := set_player_loop loopStart loopEnd0 p in
  let p2 :=
    if (loopEnd0 <? loopStart)%Z
    then set_loopInputs (loopStartInput p1) (Some loopStart)
           (set_player_loop loopStart loopStart p1)
    else p1 in
  let p3 :=
    set_sequencer
      (setLoopRange (inject_Z (player_loopStartMeasure p2))
         (inject_Z (player_loopEndMeasure p2)) (sequencer p2)) p2 in
  set_selectedMeasures
    (measureRange (player_loopStartMeasure p3) (player_loopEndMeasure p3)) p3.

(** [selectAllMeasures()] *)
Definition selectAllMeasures (p : GuitarTabPlayer) : GuitarTabPlayer :=
  let p1 := set_player_loop 1 (measureCountOr8 p) p in
  let p2 := set_loopInputs (Some (player_loopStartMeasure p1))
              (Some (player_loopEndMeasure p1)) p1 in
  updateLoopRange p2.

(** [getMeasureFromClick(x, y)] *)
Definition getMeasureFromClick (x y : Q) : Z :=
  let measuresPerRow := 4%Z in
  let measureWidth := 200 in
  let rowHeight := 180 in
  let row := Qfloor ((y - 60) / rowHeight) in
  let measureInRow := Qfloor ((x - 50) / measureWidth) in
  (row * measuresPerRow + measureInRow)%Z.

(** [handleCanvasClick(event)], with the click at [(x, y)] inside the canvas. *)
Definition handleCanvasClick (x y : Q) (p : GuitarTabPlayer) : GuitarTabPlayer :=
  match player_tabData p with
  | None => p
  | Some tab =>
      let measureIndex := getMeasureFromClick x y in
      if ((0 <=? measureIndex) && (measureIndex <? Z.of_nat (length (measures tab))))%Z
      then
        let measureNumber := (measureIndex + 1)%Z in
        updateLoopRange
          (set_loopInputs (Some measureNumber) (Some measureNumber)
             (set_player_loop measureNumber measureNumber p))
      else p
  end.

(** [setupFromTabData()]; without tab data reading its title raises ([None]). *)
Definition setupFromTabData (p : GuitarTabPlayer) : option GuitarTabPlayer :=
  match player_tabData p with
  | None => None
  | Some tab0 =>
      let tab := addGlobalBeatPositions tab0 in
      let p1 := set_player_tabData (Some tab) p in
      let p2 := if truthy (tab_tempo tab)
                then set_currentTempo (default 0 (tab_tempo tab)) p1 else p1 in
      let p3 := set_sequencer
                  (setTempo (currentTempo p2) (setTabData tab (sequencer p2))) p2 in
      let count := Z.of_nat (length (measures tab)) in
      let p4 := set_player_loop (player_loopStartMeasure p3) count p3 in
      let p5 := set_loopInputs (loopStartInput p4) (Some count) p4 in
      Some (updateLoopRange p5)
  end.

(** [adjustTempo(delta)] *)
Definition adjustTempo (delta : Q) (p : GuitarTabPlayer) : GuitarTabPlayer :=
  let p1 := set_currentTempo (Math_max 60 (Math_min 200 (currentTempo p + delta))) p in
  set_sequencer (setTempo (currentTempo p1) (sequencer p1)) p1.

(** [toggleLoop()] *)
Definition toggleLoop (p : GuitarTabPlayer) : GuitarTabPlayer :=
  let p1 := set_player_isLooping (negb (player_isLooping p)) p in
  set_sequencer
    (setLoopRange (inject_Z (player_loopStartMeasure p1))
       (inject_Z (player_loopEndMeasure p1))
       (setLooping (player_isLooping p1) (sequencer p1))) p1.

(** The controller's [play()]: a failure of the sequencer's [play] is caught
    and the button goes back. *)
Definition player_play (available : bool) (now : Q) (p : GuitarTabPlayer)
  : GuitarTabPlayer :=
  let p1 := set_player_isPlaying true p in
  match play available now (sequencer p1) with
  | Some s' => set_sequencer s' p1
  | None => set_player_isPlaying false p1
  end.

(** The controller's [pause()] *)
Definition player_pause (now : Q) (p : GuitarTabPlayer) : GuitarTabPlayer :=
  let p1 := set_player_isPlaying false p in
  set_sequencer (pause now (sequencer p1)) p1.

(** The controller's [stop()]: [stopAllNotes] on the engine, then the
    sequencer's [stop]. *)
Definition player_stop (now : Q) (p : GuitarTabPlayer) : GuitarTabPlayer :=
  let p1 := set_player_position 0 0 (set_player_isPlaying false p) in
  let s1 := set_audioEngine (stopAllNotes now (audioEngine (sequencer p1))) (sequencer p1) in
  set_sequencer (stop now s1) p1.

(** [restart()] *)
Definition restart (available : bool) (now : Q) (p : GuitarTabPlayer) : GuitarTabPlayer :=
  player_play available now (player_stop now p).

(** [togglePlayPause()] *)
Definition togglePlayPause (available : bool) (now : Q) (p : GuitarTabPlayer)
  : GuitarTabPlayer :=
  if player_isPlaying p then player_pause now p else player_play available now p.

(** The progress observer that [setupAudioCallbacks] registers, applied to
    a reported progress. *)
Definition onProgress (progress : Q) (p : GuitarTabPlayer) : GuitarTabPlayer :=
  let position := Math_min progress 1 in
  let beats := match player_tabData p with
               | Some tab => inject_Z (Z.of_nat (length (measures tab))) * 4
               | None => 32
               end in
  set_player_position position (position * beats) p.

(** [onPlaybackComplete()], the completion observer. *)
Definition onPlaybackComplete (p : GuitarTabPlayer) : GuitarTabPlayer :=
  set_player_position 0 0 (set_player_isPlaying false p).

(** ** GuitarVoice, the Karplus-Strong voice

    The delay line is a [Float32Array]: the noise burst that
    [fillInitialNoise] writes is held as rounded by [Math_fround].  The
    synthesis loop reads the cells as they are held; what it writes back
    is taken as an exact number, like every other number here.
    [Math.random()] is an argument: [random i] is the value of the [i]-th
    call. *)

Record GuitarVoice := mkGuitarVoice {
  dampingFactor : Q;
  tensionFactor : Q;
  pluckPosition : Q;
  voice_isWound : bool;
  gainNode : option AudioParam;       (* [None] is [null] *)
  scriptProcessor : bool;             (* a script processor is attached *)
  delayLine : option (list Q);        (* [None] is [null] *)
  delayLineSize : nat;
  writeIndex : nat;
  voice_isPlaying : bool;
  baseFrequency : Q;
  lastOutput : Q
}.

(** [new GuitarVoice(audioContext, destination)] *)
Definition newGuitarVoice : GuitarVoice :=
  mkGuitarVoice (9995 # 10000) 1 (3 # 10) false None false None 0 0 false 440 0.

Definition setStringParameters (damping tension pluckPos : Q) (isWound : bool)
  (v : GuitarVoice) : GuitarVoice :=
  mkGuitarVoice damping tension pluckPos isWound (gainNode v) (scriptProcessor v)
    (delayLine v) (delayLineSize v) (writeIndex v) (voice_isPlaying v)
    (baseFrequency v) (lastOutput v).

(** [Math.round]: to the nearest integer, halves upwards. *)
Definition Math_round (x : Q) : Z := Qfloor (x + (1 # 2)).

(** [fillInitialNoise(velocity)]: the new contents of the delay line. *)
Definition fillInitialNoise (random : nat -> Q) (velocity : Q) (v : GuitarVoice)
  : list Q :=
  let pluckSamples := Qfloor (inject_Z (Z.of_nat (delayLineSize v)) * pluckPosition v) in
  map (fun i =>
         if (Z.of_nat i <? pluckSamples)%Z
         then Math_fround ((random i * 2 - 1) * velocity * (8 # 10))
         else Math_fround ((random i * 2 - 1) * velocity * (4 # 10)))
      (seq 0 (delayLineSize v)).

(** [startNote(midiNote, velocity, startTime)] on a context of sample rate
    [sampleRate]. *)
Definition startNote (midiFrequency : Z -> Q) (sampleRate : Q) (random : nat -> Q)
  (midiNote : Z) (velocity startTime : Q) (v : GuitarVoice) : GuitarVoice :=
  let frequency := midiFrequency midiNote in
  let size := Z.to_nat (Z.max 64 (Math_round (sampleRate / frequency))) in
  let v1 := mkGuitarVoice (dampingFactor v) (tensionFactor v) (pluckPosition v)
              (voice_isWound v) (gainNode v) (scriptProcessor v)
              (Some (repeat 0 size)) size (writeIndex v) (voice_isPlaying v)
              frequency (lastOutput v) in
  let line := fillInitialNoise random velocity v1 in
  let gain := linearRampToValueAtTime (velocity * (3 # 10)) (startTime + (5 # 1000))
                (setValueAtTime 0 startTime (mkParam 1)) in
  mkGuitarVoice (dampingFactor v) (tensionFactor v) (pluckPosition v)
    (voice_isWound v) (Some gain) true (Some line) size 0 true frequency (lastOutput v).

(** [stopNote(stopTime)] called at clock time [now]: a fade of 0.1 s.  The
    clean-up that it schedules is [cleanup], 200 ms later. *)
Definition stopNote (stopTime now : Q) (v : GuitarVoice) : GuitarVoice :=
  match gainNode v with
  | None => v
  | Some g =>
      let g1 := setValueAtTime (currentValue g now) stopTime g in
      let g2 := exponentialRampToValueAtTime (1 # 1000) (stopTime + (1 # 10)) g1 in
      mkGuitarVoice (dampingFactor v) (tensionFactor v) (pluckPosition v)
        (voice_isWound v) (Some g2) (scriptProcessor v) (delayLine v)
        (delayLineSize v) (writeIndex v) (voice_isPlaying v) (baseFrequency v)
        (lastOutput v)
  end.

(** [cleanup()] *)
Definition cleanup (v : GuitarVoice) : GuitarVoice :=
  mkGuitarVoice (dampingFactor v) (tensionFactor v) (pluckPosition v)
    (voice_isWound v) None false None (delayLineSize v) (writeIndex v) false
    (baseFrequency v) (lastOutput v).

(** [applyWoundStringFilter(input)]: the filtered value, which is also the
    new [lastOutput]. *)
Definition applyWoundStringFilter (input : Q) (v : GuitarVoice) : Q :=
  (7 # 10) * input + (3 # 10) * lastOutput v.

(** One turn of the sample loop of [processAudio]: the new voice and the
    sample written to the output buffer.  [None] where the loop would read
    outside the delay line (a case the code answers with [NaN], which these
    numbers do not have). *)
Definition processSample (v : GuitarVoice) : option (GuitarVoice * Q) :=
  line ← delayLine v;
  currentSample ← line !! writeIndex v;
  let nextIndex := ((writeIndex v + 1) mod delayLineSize v)%nat in
  nextSample ← line !! nextIndex;
  let damped := (currentSample + nextSample) * (5 # 10) * dampingFactor v in
  let filteredSample :=
    if voice_isWound v then applyWoundStringFilter damped v else damped in
  Some (mkGuitarVoice (dampingFactor v) (tensionFactor v) (pluckPosition v)
          (voice_isWound v) (gainNode v) (scriptProcessor v)
          (Some (<[writeIndex v := filteredSample]> line)) (delayLineSize v)
          nextIndex (voice_isPlaying v) (baseFrequency v)
          (if voice_isWound v then filteredSample else lastOutput v),
        currentSample).

Fixpoint processSamples (n : nat) (v : GuitarVoice) : option (GuitarVoice * list Q) :=
  match n with
  | O => Some (v, [])
  | S n' =>
      '(v1, sample) ← processSample v;
      '(v2, rest) ← processSamples n' v1;
      Some (v2, sample :: rest)
  end.

(** [processAudio(event)] for an output buffer of [n] samples: the new
    voice and the contents of the buffer. *)
Definition processAudio (n : nat) (v : GuitarVoice) : option (GuitarVoice * list Q) :=
  if negb (voice_isPlaying v) || negb (bool_decide (is_Some (delayLine v)))
  then Some (v, repeat 0 n)
  else processSamples n v.

(** A voice between [startNote] and [cleanup]: playing, with a delay line
    of [delayLineSize] cells and its index inside it. *)
Definition voice_ready (v : GuitarVoice) (line : list Q) : Prop :=
  voice_isPlaying v = true
  /\ delayLine v = Some line
  /\ length line = delayLineSize v
  /\ (writeIndex v < delayLineSize v)%nat.

(** Every cell of the delay line and the last filter output are within [M]. *)
Definition voice_bounded (M : Q) (v : GuitarVoice) (line : list Q) : Prop :=
  Forall (fun c => - M <= c <= M) line /\ - M <= lastOutput v <= M.

(** The sample that one turn of the loop writes back, from the sample read
    and the next one. *)
Definition feedbackSample (v : GuitarVoice) (currentSample nextSample : Q) : Q :=
  let damped := (currentSample + nextSample) * (5 # 10) * dampingFactor v in
  if voice_isWound v then applyWoundStringFilter damped v else damped.

(** ** Closed forms used in the proofs *)

(** The oscillator that [forEach] builds for an entry of the table. *)
Definition harmonicOscillator (startTime duration : Q) (h : Harmonic) : Oscillator :=
  mkOscillator (h_freq h) (h_type h) (Some startTime) (Some (startTime + duration)).

(** The voice that [playSimpleGuitarNote] builds at frequency [f] when the
    store already holds [n] oscillators. *)
Definition voiceOf (f st d : Q) (sc : StringCharacteristic) (n : nat) : Voice :=
  mkVoice
    (imap (fun i h => ((n + i)%nat, harmonicAmp sc i h)) (harmonicsTable f))
    (3 # 10)
    (mkBiquad lowpass (f * (if isWound sc then 4 else 6)) (15 # 10))
    (mkBiquad highpass (f * (5 # 10)) (7 # 10))
    (guitarEnvelope (damping sc * (25 # 100)) st d)
    (n + 5)
    (f * (5 # 1000))
    (mkParam 1).

(** The partials of a voice: for each input of its mix gain, the frequency
    of the oscillator (read in the store) and the value of its gain. *)
Definition harmonicBank (e : GuitarAudioEngine) (v : Voice) : list (option Q * Q) :=
  map (fun '(id, amp) => (osc_frequency <$> oscillators e !! id, amp)) (v_harmonics v).

(** The gain between the envelope of a voice and the destination: its
    stoppable gain times the master gain. *)
Definition outputGainAt (e : GuitarAudioEngine) (voiceId : nat) (tau : Q) : option Q :=
  v ← voices e !! voiceId;
  g ← masterGain e;
  a ← valueAt (v_stoppableGain v) tau;
  b ← valueAt g tau;
  Some (a * b).

(** The part of a tick that every playing tick performs: the new beat, the
    entries fired and the progress report. *)
Definition tickCore (now : Q) (s : TabSequencer) : TabSequencer :=
  reportProgress (tickProgress now s)
    (set_allNotes (fst (triggerNotes (tickBeat now s) (60 / tempo s) (allNotes s)))
       (set_currentBeat (tickBeat now s) s)).

(** The beat of a tick lies within [lookahead] of the beat of an entry. *)
Definition inWindow (currentBeat : Q) (noteData : NoteData) : bool :=
  Qle_bool (nd_beatPosition noteData - lookahead) currentBeat
  && Qle_bool currentBeat (nd_beatPosition noteData + lookahead).

(** An entry that has not been fired. *)
Definition unfired (noteData : NoteData) : bool := negb (nd_triggered noteData).

(** The [playNote] calls that a run of ticks issues, in the order in which
    they are issued. *)
Definition callsOfRun (times : list Q) (s : TabSequencer) : list PlayCall :=
  concat (map snd (snd (runTicks times s))).

(** Order of the flattened list. *)
Definition beatLe (a b : NoteData) : Prop := nd_beatPosition a <= nd_beatPosition b.

(** An engine on which [initialize] has succeeded. *)
Definition ready (e : GuitarAudioEngine) : Prop :=
  audioContext e = true /\ isInitialized e = true /\ is_Some (masterGain e).

(** The engine is initialised only together with its context and its
    master gain. *)
Definition engine_wf (e : GuitarAudioEngine) : Prop :=
  isInitialized e = true -> ready e.

(** ** Reachable states

    The states that the public operations, the ticks of the interval, the
    deferred bodies of [playNote] and the timers and listeners of the
    engine can produce from a new sequencer on a new engine. *)
Inductive reachable (midiFrequency : Z -> Q) : TabSequencer -> Prop :=
| reach_new : reachable midiFrequency (newSequencer newEngine)
| reach_setTabData tab s :
    reachable midiFrequency s -> reachable midiFrequency (setTabData tab s)
| reach_setTempo bpm s :
    reachable midiFrequency s -> reachable midiFrequency (setTempo bpm s)
| reach_setLooping enabled s :
    reachable midiFrequency s -> reachable midiFrequency (setLooping enabled s)
| reach_setLoopRange a b s :
    reachable midiFrequency s -> reachable midiFrequency (setLoopRange a b s)
| reach_setProgressCallback s :
    reachable midiFrequency s -> reachable midiFrequency (setProgressCallback s)
| reach_setCompleteCallback s :
    reachable midiFrequency s -> reachable midiFrequency (setCompleteCallback s)
| reach_play available now s s' :
    reachable midiFrequency s -> play available now s = Some s' ->
    reachable midiFrequency s'
| reach_pause now s :
    reachable midiFrequency s -> reachable midiFrequency (pause now s)
| reach_stop now s :
    reachable midiFrequency s -> reachable midiFrequency (stop now s)
| reach_tick now s :
    reachable midiFrequency s -> reachable midiFrequency (fst (tick now s))
| reach_playNote available note startOffset duration now s e' :
    reachable midiFrequency s ->
    playNote midiFrequency available note startOffset duration now (audioEngine s) = Some e' ->
    reachable midiFrequency (set_audioEngine e' s)
| reach_stopAllNotes now s :
    reachable midiFrequency s ->
    reachable midiFrequency (set_audioEngine (stopAllNotes now (audioEngine s)) s)
| reach_setMasterVolume volume now s :
    reachable midiFrequency s ->
    reachable midiFrequency (set_audioEngine (setMasterVolume volume now (audioEngine s)) s)
| reach_oscillatorEnded id s :
    reachable midiFrequency s ->
    reachable midiFrequency (set_audioEngine (oscillatorEnded id (audioEngine s)) s)
| reach_voiceCleanup key s :
    reachable midiFrequency s ->
    reachable midiFrequency (set_audioEngine (voiceCleanup key (audioEngine s)) s)
| reach_playNoteCleanup midiNote s :
    reachable midiFrequency s ->
    reachable midiFrequency (set_audioEngine (playNoteCleanup midiNote (audioEngine s)) s).

(** ** Sample inputs *)

(** Equal temperament with the twelve ratios [2^(k/12)] rounded to six
    decimals: a rational stand-in for [440 * 2^((m - 69) / 12)]. *)
Definition semitoneRatio (k : Z) : Q :=
  nth (Z.to_nat k)
    [ 1; 1059463 # 1000000; 1122462 # 1000000; 1189207 # 1000000;
      1259921 # 1000000; 1334840 # 1000000; 1414214 # 1000000;
      1498307 # 1000000; 1587401 # 1000000; 1681793 # 1000000;
      1781797 # 1000000; 1887749 # 1000000 ] 1.

Definition sampleFrequency (m : Z) : Q :=
  440 * semitoneRatio ((m - 69) mod 12) * Qpower 2 ((m - 69) / 12).

(** An engine right after a successful [initialize]. *)
Definition engine0 : GuitarAudioEngine :=
  default newEngine (initialize true newEngine).

(** Open high E string, one beat long. *)
Definition noteE4 : NoteEvent := mkNote 0 0 0 1 None.

(** [noteE4] played at 2 s on [engine0], after a [stopAllNotes] at 1 s
    and without it. *)
Definition engineAfterCancel : GuitarAudioEngine :=
  default engine0 (playNote sampleFrequency true noteE4 0 1 2 (stopAllNotes 1 engine0)).

Definition engineNoCancel : GuitarAudioEngine :=
  default engine0 (playNote sampleFrequency true noteE4 0 1 2 engine0).

(** At clock time 0, a note on the D string scheduled 10 s ahead. *)
Definition engineScheduled : GuitarAudioEngine :=
  default engine0 (playNote sampleFrequency true (mkNote 3 2 0 1 (Some 0)) 10 1 0 engine0).

(** A tab whose tempo field is above the range of [setTempo]. *)
Definition tabFast : TabData := mkTab (Some 300) [].

(** Two measures; the note of the second one carries no
    [globalBeatPosition]. *)
Definition tabTwoMeasures : TabData :=
  mkTab (Some 120)
    [ mkMeasure [mkNote 0 0 0 1 (Some 0)];
      mkMeasure [mkNote 1 3 1 1 None] ].

(** Two measures at 120 bpm with one note on beat 1, loaded and started
    at clock time 0 with a progress observer. *)
Definition tabBeatOne : TabData :=
  mkTab (Some 120) [ mkMeasure [mkNote 0 0 1 1 (Some 1)]; mkMeasure [] ].

Definition playingBeatOne : TabSequencer :=
  default (newSequencer engine0)
    (play true 0 (setProgressCallback (setTabData tabBeatOne (newSequencer engine0)))).

(** Three measures at 120 bpm with triggers on beats 3 and 9, looping over
    measures 1 to 2, started at clock time 0. *)
Definition tabLoop : TabData :=
  mkTab (Some 120)
    [ mkMeasure [mkNote 0 0 3 1 (Some 3)];
      mkMeasure [];
      mkMeasure [mkNote 1 0 1 1 (Some 9)] ].

Definition loopingPlayback : TabSequencer :=
  default (newSequencer engine0)
    (play true 0
       (setLoopRange 1 2 (setLooping true (setTabData tabLoop (newSequencer engine0))))).

(** Clock times [from/100, (from+1)/100, ...]: [n] ticks of 10 ms. *)
Definition tickTimes (from : nat) (n : nat) : list Q :=
  map (fun k => inject_Z (Z.of_nat k) / 100) (seq from n).

(** [loopingPlayback] after the 399 ticks that precede its first loop end
    (8 beats at 120 bpm: 4 s). *)
Definition loopBoundary : TabSequencer :=
  fst (runTicks (tickTimes 1 399) loopingPlayback).

(** One measure at 120 bpm with notes on beats 1 and 1.04, loaded into a
    new sequencer on a new engine and started at clock time 0. *)
Definition tabTwoClose : TabData :=
  mkTab (Some 120)
    [ mkMeasure [mkNote 0 0 1 1 (Some 1); mkNote 1 0 (26 # 25) 1 (Some (26 # 25))] ].

Definition playingTwoClose : TabSequencer :=
  default (newSequencer newEngine)
    (play true 0
       (setCompleteCallback
          (setProgressCallback (setTabData tabTwoClose (newSequencer newEngine))))).

(** The second call of the tick of [playingTwoClose] at 0.5 s (beat 1). *)
Definition secondCall : PlayCall :=
  default (mkCall noteE4 0 0) (snd (tick (1 # 2) playingTwoClose) !! 1%nat).

(** [playingTwoClose] once the body of a [playNote] call has run. *)
Definition playingWithVoice : TabSequencer :=
  set_audioEngine
    (default newEngine
       (playNote sampleFrequency true noteE4 0 1 0 (audioEngine playingTwoClose)))
    playingTwoClose.

(** A player on a page whose loop inputs read 1 and 8, before and after
    [tabTwoMeasures] is loaded. *)
Definition playerWithTab (tab : TabData) : GuitarTabPlayer :=
  set_player_tabData (Some tab) (newPlayer (Some 1%Z) (Some 8%Z)).

Definition playerLoaded : GuitarTabPlayer :=
  default (playerWithTab tabTwoMeasures) (setupFromTabData (playerWithTab tabTwoMeasures)).

(** Two measures in the legacy format; the last note is a rest. *)
Definition legacyTwoMeasures : list (list LegacyNote) :=
  [ [mkLegacyNote 0 3 4 2]; [mkLegacyNote 1 0 8 4; mkLegacyNote 2 (-1) 0 4] ].

Definition legacyTrigger : NoteData :=
  mkNoteData (convertLegacyNote 1 (mkLegacyNote 1 0 8 4))
    (inject_Z (Z.of_nat 1) * 4 + 8 * (25 # 100)) (4 * (25 # 100)) false.

(** A stand-in for [Math.random]. *)
Definition sampleRandom (i : nat) : Q := if Nat.even i then 1 # 4 else 9 # 10.

(** E4 plucked at full velocity at clock time 0, on a context of 44100 Hz:
    the delay line has 134 cells. *)
Definition voicePlucked : GuitarVoice :=
  startNote sampleFrequency 44100 sampleRandom 64 1 0 newGuitarVoice.

Definition pluckedLine : list Q := default [] (delayLine voicePlucked).

Definition pluckedGain : AudioParam := default (mkParam 1) (gainNode voicePlucked).




(** The beats of a list of entries are in ascending order. *)
Definition sortedBeats (l : list NoteData) : Prop :=
  StronglySorted Qle (map nd_beatPosition l).

(** Every key of [activeVoices] is a note id. *)
Definition noteIdKeys (e : GuitarAudioEngine) : Prop :=
  Forall (fun kv => exists m t, fst kv = NoteId m t) (activeVoices e).

(** The beat of a note of the measure at [measureIndex]: the global
    position it carries, or else the measure offset plus its position in
    the measure. *)
Definition derivedBeat (measureIndex : nat) (note : NoteEvent) : Q :=
  match globalBeatPosition note with
  | Some g => g
  | None => inject_Z (Z.of_nat measureIndex) * 4 + beatPosition note
  end.

(** * Properties *)

(** ** Numbers *)

Lemma Qltb_lt (a b : Q) : Qltb a b = true <-> a < b.
Proof.
  unfold Qltb. rewrite negb_true_iff. split.
  - intros H. apply Qnot_le_lt. intros Hle.
    apply Qle_bool_iff in Hle. congruence.
  - intros H. destruct (Qle_bool b a) eqn:E; [|reflexivity].
    apply Qle_bool_iff in E. exfalso. apply (Qlt_not_le _ _ H E).
Qed.

Lemma Qltb_ge (a b : Q) : Qltb a b = false <-> b <= a.
Proof.
  unfold Qltb. rewrite negb_false_iff. apply Qle_bool_iff.
Qed.

Lemma Math_max_spec (a b : Q) :
  a <= Math_max a b /\ b <= Math_max a b /\ (Math_max a b = a \/ Math_max a b = b).
Proof.
  unfold Math_max. destruct (Qle_bool a b) eqn:E.
  - apply Qle_bool_iff in E. repeat split; [exact E | apply Qle_refl | now right].
  - assert (b < a) by (apply Qltb_lt; unfold Qltb; now rewrite E).
    repeat split; [apply Qle_refl | now apply Qlt_le_weak | now left].
Qed.

Lemma Math_min_spec (a b : Q) :
  Math_min a b <= a /\ Math_min a b <= b /\ (Math_min a b = a \/ Math_min a b = b).
Proof.
  unfold Math_min. destruct (Qle_bool a b) eqn:E.
  - apply Qle_bool_iff in E. repeat split; [apply Qle_refl | exact E | now left].
  - assert (b < a) by (apply Qltb_lt; unfold Qltb; now rewrite E).
    repeat split; [now apply Qlt_le_weak | apply Qle_refl | now right].
Qed.

Lemma Math_max_ge (a b : Q) : b <= Math_max a b.
Proof. apply Math_max_spec. Qed.

(** [Math.max(lo, Math.min(hi, x))] lands in [[lo, hi]]. *)
Lemma clamp_range (lo hi x : Q) :
  lo <= hi -> lo <= Math_max lo (Math_min hi x) <= hi.
Proof.
  intros Hlh. split; [apply Math_max_spec|].
  destruct (Math_max_spec lo (Math_min hi x)) as (_ & _ & [-> | ->]).
  - exact Hlh.
  - apply Math_min_spec.
Qed.

(** *** Rounding to float32 *)














(** ** The platform *)

Section Timeline.

Implicit Types (p : AudioParam) (e : ParamEvent) (l : list ParamEvent).

Lemma cancel_events_before t p :
  Forall (fun x => ev_time x < t) (p_events (cancelScheduledValues t p)).
Proof.
  unfold cancelScheduledValues; simpl.
  induction (p_events p) as [|x l IH]; simpl; [constructor|].
  destruct (Qltb (ev_time x) t) eqn:E; [|exact IH].
  constructor; [now apply Qltb_lt | exact IH].
Qed.

Lemma insertEvent_append e l :
  Forall (fun x => ev_time x <= ev_time e) l -> insertEvent e l = l ++ [e].
Proof.
  induction 1 as [|x l Hx _ IH]; simpl; [reflexivity|].
  apply Qle_bool_iff in Hx. now rewrite Hx, IH.
Qed.

(** Once every event lies in the past, the timeline holds the value of
    the last one. *)
Lemma timelineAt_past prev v l e tau :
  Forall (fun x => ev_time x <= tau) (l ++ [e]) ->
  timelineAt prev v (l ++ [e]) tau = Some (ev_value e).
Proof.
  revert prev v. induction l as [|x l IH]; intros prev v H; simpl in *.
  - inversion H as [|? ? Hx _]; subst.
    apply Qltb_ge in Hx. now rewrite Hx.
  - inversion H as [|? ? Hx Hl]; subst.
    apply Qltb_ge in Hx. rewrite Hx. now apply IH.
Qed.

(** [cancelScheduledValues(t); setValueAtTime(v, t)] pins the parameter
    to [v] from [t] on. *)
Lemma valueAt_cancel_set t v p tau :
  t <= tau ->
  valueAt (setValueAtTime v t (cancelScheduledValues t p)) tau = Some v.
Proof.
  intros Ht. unfold valueAt, setValueAtTime, schedule; simpl.
  pose proof (cancel_events_before t p) as Hc; simpl in Hc.
  rewrite insertEvent_append.
  - apply (timelineAt_past _ _ _ (mkEvent SetValue v t)).
    apply Forall_app; split.
    + eapply Forall_impl; [exact Hc|]. simpl. intros x Hx.
      apply Qlt_le_weak. eapply Qlt_le_trans; eauto.
    + constructor; [exact Ht | constructor].
  - eapply Forall_impl; [exact Hc|]. simpl. intros x Hx. now apply Qlt_le_weak.
Qed.

(** The hard mute leaves the parameter at 0.0001 once its 10 ms ramp is over. *)
Lemma valueAt_muteMaster t p tau :
  t + (1 # 100) <= tau ->
  valueAt (muteMaster t p) tau = Some (1 # 10000).
Proof.
  intros Ht. unfold muteMaster, valueAt, linearRampToValueAtTime, setValueAtTime, schedule.
  pose proof (cancel_events_before t p) as Hc.
  set (q := cancelScheduledValues t p) in *. simpl.
  assert (Hle : Forall (fun x => ev_time x <= t) (p_events q)).
  { eapply Forall_impl; [exact Hc|]. simpl. intros x Hx. now apply Qlt_le_weak. }
  rewrite (insertEvent_append (mkEvent SetValue _ t)) by exact Hle.
  assert (Ht' : t <= t + (1 # 100)) by lra.
  rewrite insertEvent_append.
  - apply (timelineAt_past _ _ _ (mkEvent LinearRamp (1 # 10000) (t + (1 # 100)))).
    apply Forall_app; split; [apply Forall_app; split|].
    + eapply Forall_impl; [exact Hle|]. simpl. intros x Hx. lra.
    + constructor; [simpl; lra | constructor].
    + constructor; [exact Ht | constructor].
  - apply Forall_app; split.
    + eapply Forall_impl; [exact Hle|]. simpl. intros x Hx. lra.
    + constructor; [exact Ht' | constructor].
Qed.

Lemma valueAt_mkParam v tau : valueAt (mkParam v) tau = Some v.
Proof. reflexivity. Qed.

End Timeline.

Section Oscillators.

Implicit Types (o : Oscillator).

Lemma tryStop_start t o : osc_start (tryStop t o) = osc_start o.
Proof.
  unfold tryStop, WebAudio.stop. destruct (osc_start o) eqn:E; simpl; auto.
Qed.

Lemma tryStop_stop t o :
  osc_start o <> None -> exists b, osc_stop (tryStop t o) = Some b /\ b <= t.
Proof.
  unfold tryStop, WebAudio.stop. destruct (osc_start o); [intros _|congruence].
  simpl. destruct (osc_stop o) as [b|].
  - destruct (Qle_bool b t) eqn:E.
    + exists b. split; [reflexivity | now apply Qle_bool_iff].
    + exists t. split; [reflexivity | apply Qle_refl].
  - exists t. split; [reflexivity | apply Qle_refl].
Qed.

Lemma stopped_silent t o tau :
  (osc_start o <> None -> exists b, osc_stop o = Some b /\ b <= t) ->
  t <= tau -> sounding o tau = false.
Proof.
  intros H Ht. unfold sounding. destruct (osc_start o) as [a|]; [|reflexivity].
  destruct H as (b & -> & Hb); [congruence|].
  apply andb_false_iff. right. apply Qltb_ge. lra.
Qed.

(** After any positive number of [stop(t)] the oscillator has a stop time
    at or before [t]. *)
Lemma iter_tryStop t o n :
  (0 < n)%nat ->
  osc_start (Nat.iter n (tryStop t) o) = osc_start o /\
  (osc_start o <> None ->
   exists b, osc_stop (Nat.iter n (tryStop t) o) = Some b /\ b <= t).
Proof.
  induction n as [|n IH]; [lia|]. intros _. simpl.
  destruct n as [|n].
  - simpl. split; [apply tryStop_start | apply tryStop_stop].
  - destruct IH as [IH1 IH2]; [lia|].
    split; [now rewrite tryStop_start|].
    intros Hs. apply tryStop_stop. now rewrite IH1.
Qed.

End Oscillators.

(** ** The engine: cancellation *)

Section Registry.

Context {A B : Type} (f : A -> A) (g : B -> nat).

(** Walking a registry and updating the store at each index: an entry of
    the store has received [f] as many times as the registry names it. *)
Lemma foldl_alter_lookup (ids : list B) (l : list A) (i : nat) (x : A) :
  l !! i = Some x ->
  exists n, foldl (fun acc a => alter f (g a) acc) l ids !! i = Some (Nat.iter n f x)
            /\ (In i (map g ids) -> (0 < n)%nat).
Proof.
  revert l x. induction ids as [|a ids IH]; intros l x Hl; simpl.
  - exists 0%nat. split; [exact Hl | tauto].
  - destruct (decide (g a = i)) as [Heq|Hne].
    + destruct (IH (alter f (g a) l) (f x)) as (n & Hn & _).
      { rewrite Heq, list_lookup_alter_eq, Hl. reflexivity. }
      exists (S n). split; [|lia].
      rewrite Hn. f_equal. symmetry. apply Nat.iter_succ_r.
    + destruct (IH (alter f (g a) l) x) as (n & Hn & Hpos).
      { now rewrite list_lookup_alter_ne. }
      exists n. split; [exact Hn|]. intros [H|H]; [congruence | auto].
Qed.

End Registry.

Lemma zeroGain_silent t v tau :
  t <= tau -> valueAt (v_stoppableGain (zeroGain t v)) tau = Some 0.
Proof. intros H. simpl. now apply valueAt_cancel_set. Qed.

Lemma iter_zeroGain_silent t v n tau :
  (0 < n)%nat -> t <= tau ->
  valueAt (v_stoppableGain (Nat.iter n (zeroGain t) v)) tau = Some 0.
Proof.
  destruct n as [|n]; [lia|]. intros _ H. simpl. now apply valueAt_cancel_set.
Qed.

Lemma stopAllNotes_registries t e :
  audioContext e = true ->
  activeOscillators (stopAllNotes t e) = [] /\ activeVoices (stopAllNotes t e) = [].
Proof. intros H. unfold stopAllNotes. rewrite H. simpl. auto. Qed.

Lemma stopAllNotes_oscillator t e id o :
  audioContext e = true ->
  In id (activeOscillators e) -> oscillators e !! id = Some o ->
  exists o', oscillators (stopAllNotes t e) !! id = Some o'
    /\ osc_start o' = osc_start o
    /\ (osc_start o <> None -> exists b, osc_stop o' = Some b /\ b <= t)
    /\ forall tau, t <= tau -> sounding o' tau = false.
Proof.
  intros Hc Hin Ho. unfold stopAllNotes. rewrite Hc. simpl.
  destruct (foldl_alter_lookup (tryStop t) (fun i : nat => i)
              (activeOscillators e) (oscillators e) id o Ho) as (n & Hn & Hpos).
  rewrite map_id in Hpos. specialize (Hpos Hin).
  destruct (iter_tryStop t o n Hpos) as [Hs Hb].
  eexists. split; [exact Hn|]. split; [exact Hs|]. split; [exact Hb|].
  intros tau Ht. apply (stopped_silent t); [|exact Ht].
  rewrite Hs. exact Hb.
Qed.

Lemma iter_zeroGain_harmonics t v n :
  v_harmonics (Nat.iter n (zeroGain t) v) = v_harmonics v
  /\ v_vibrato (Nat.iter n (zeroGain t) v) = v_vibrato v.
Proof. induction n as [|n IH]; simpl; auto. Qed.

Lemma stopAllNotes_voice_full t e k vid v :
  audioContext e = true ->
  In (k, vid) (activeVoices e) -> voices e !! vid = Some v ->
  exists v', voices (stopAllNotes t e) !! vid = Some v'
    /\ v_harmonics v' = v_harmonics v
    /\ v_vibrato v' = v_vibrato v
    /\ forall tau, t <= tau -> valueAt (v_stoppableGain v') tau = Some 0.
Proof.
  intros Hc Hin Hv. unfold stopAllNotes. rewrite Hc. simpl.
  destruct (foldl_alter_lookup (zeroGain t) (snd : VoiceKey * nat -> nat)
              (activeVoices e) (voices e) vid v Hv) as (n & Hn & Hpos).
  assert (Hn0 : (0 < n)%nat).
  { apply Hpos. apply in_map_iff. exists (k, vid). auto. }
  destruct (iter_zeroGain_harmonics t v n) as [Hh Hvib].
  eexists. split; [exact Hn|]. split; [exact Hh|]. split; [exact Hvib|].
  intros tau Ht. now apply iter_zeroGain_silent.
Qed.

Lemma stopAllNotes_voice t e k vid v :
  audioContext e = true ->
  In (k, vid) (activeVoices e) -> voices e !! vid = Some v ->
  exists v', voices (stopAllNotes t e) !! vid = Some v'
    /\ forall tau, t <= tau -> valueAt (v_stoppableGain v') tau = Some 0.
Proof.
  intros Hc Hin Hv.
  destruct (stopAllNotes_voice_full t e k vid v Hc Hin Hv) as (v' & H1 & _ & _ & H2).
  eauto.
Qed.

(** C1. [stopAllNotes], called at clock time [t], stops at [t] every
    oscillator it finds in [activeOscillators] -- whatever start time the
    oscillator was given, past or still to come -- and pins to zero, from
    [t] on, the gain of every voice it finds in [activeVoices]; so from [t]
    on no registered oscillator sounds and every registered voice is
    multiplied by zero.  Both registries are empty afterwards. *)
Theorem stopAllNotes_silences_registered (t : Q) (e : GuitarAudioEngine) :
  audioContext e = true ->
  (forall id o,
      In id (activeOscillators e) -> oscillators e !! id = Some o ->
      exists o', oscillators (stopAllNotes t e) !! id = Some o'
        /\ osc_start o' = osc_start o
        /\ (osc_start o <> None -> exists b, osc_stop o' = Some b /\ b <= t)
        /\ forall tau, t <= tau -> sounding o' tau = false)
  /\ (forall k vid v,
      In (k, vid) (activeVoices e) -> voices e !! vid = Some v ->
      exists v', voices (stopAllNotes t e) !! vid = Some v'
        /\ forall tau, t <= tau -> valueAt (v_stoppableGain v') tau = Some 0)
  /\ activeOscillators (stopAllNotes t e) = []
  /\ activeVoices (stopAllNotes t e) = [].
Proof.
  intros Hc. split; [|split].
  - intros id o. now apply stopAllNotes_oscillator.
  - intros k vid v. now apply stopAllNotes_voice.
  - now apply stopAllNotes_registries.
Qed.

(** ** The engine: building a voice *)

Lemma forEachHarmonic_eq sc st d (hs : list Harmonic) :
  forall idx e acc,
    forEachHarmonic sc st d idx hs e acc =
    Some (set_activeOscillators
            (foldl (fun s i => setAdd i s) (activeOscillators e)
               (seq (length (oscillators e)) (length hs)))
            (set_oscillators (oscillators e ++ map (harmonicOscillator st d) hs) e),
          acc ++ imap (fun i h => ((length (oscillators e) + i)%nat,
                                   harmonicAmp sc (idx + i) h)) hs).
Proof.
  induction hs as [|h hs IH]; intros idx e acc.
  - simpl. rewrite !app_nil_r. destruct e; reflexivity.
  - cbn [forEachHarmonic]. cbn [WebAudio.start WebAudio.stop setType setFrequency createOscillator
      osc_start osc_stop osc_frequency osc_type mbind option_bind].
    rewrite IH. f_equal. f_equal.
    + unfold set_activeOscillators, set_oscillators; simpl.
      rewrite length_app; simpl. rewrite Nat.add_1_r.
      rewrite <- app_assoc. reflexivity.
    + rewrite <- app_assoc. f_equal. simpl. f_equal.
      * now rewrite !Nat.add_0_r.
      * apply imap_ext. intros i x _. simpl.
        rewrite length_app; simpl. f_equal; [lia | f_equal; lia].
Qed.

Section EngineFacts.

Variable midiFrequency : Z -> Q.

Lemma playSimpleGuitarNote_eq midiNote st d stringIndex sc e :
  audioContext e = true ->
  is_Some (masterGain e) ->
  jsIndex stringCharacteristics stringIndex = Some sc ->
  playSimpleGuitarNote midiFrequency midiNote st d stringIndex e =
  Some (mkEngine true (masterGain e)
          (mapSet (NoteId midiNote st) (length (voices e)) (activeVoices e))
          (setAdd (length (oscillators e) + 5)
             (foldl (fun s i => setAdd i s) (activeOscillators e)
                (seq (length (oscillators e)) 5)))
          (isInitialized e)
          ((oscillators e
            ++ map (harmonicOscillator st d) (harmonicsTable (midiFrequency midiNote)))
           ++ [mkOscillator (45 # 10) sine (Some (st + (1 # 10))) (Some (st + d))])
          (voices e ++ [voiceOf (midiFrequency midiNote) st d sc (length (oscillators e))])).
Proof.
  intros Hc [g Hg] Hsc. unfold playSimpleGuitarNote.
  rewrite Hc, Hsc, Hg. cbn [negb mbind option_bind].
  rewrite forEachHarmonic_eq.
  cbn [WebAudio.start WebAudio.stop setType setFrequency createOscillator
    osc_start osc_stop osc_frequency osc_type mbind option_bind].
  unfold set_activeVoices, set_voices, set_activeOscillators, set_oscillators.
  cbn [audioContext masterGain activeVoices activeOscillators isInitialized
    oscillators voices].
  rewrite Hc, Hg. f_equal.
  rewrite length_app, length_map. cbn [harmonicsTable length app].
  reflexivity.
Qed.

End EngineFacts.

Lemma lookup_app_plus {A : Type} (l1 l2 : list A) (i : nat) :
  (l1 ++ l2) !! (length l1 + i)%nat = l2 !! i.
Proof. rewrite lookup_app_r by lia. f_equal. lia. Qed.

Lemma valid_note_string (note : NoteEvent) :
  (0 <= noteEventToMidiNote note)%Z ->
  (0 <= fret note)%Z /\
  (string note = 0 \/ string note = 1 \/ string note = 2 \/
   string note = 3 \/ string note = 4 \/ string note = 5)%Z.
Proof.
  unfold noteEventToMidiNote.
  destruct (fret note <? 0)%Z eqn:E1; simpl; [lia|].
  destruct (string note <? 0)%Z eqn:E2; simpl; [lia|].
  destruct (6 <=? string note)%Z eqn:E3; simpl; [lia|].
  intros _. lia.
Qed.

Lemma valid_note_characteristics (note : NoteEvent) :
  (0 <= noteEventToMidiNote note)%Z ->
  exists sc, jsIndex stringCharacteristics (string note) = Some sc
             /\ isWound sc = (3 <=? string note)%Z.
Proof.
  intros H. destruct (valid_note_string note H) as [_ Hs].
  destruct Hs as [-> | [-> | [-> | [-> | [-> | ->]]]]]; eexists; split; reflexivity.
Qed.

Section PlayNoteFacts.

Variable midiFrequency : Z -> Q.

Lemma ready_ensure available e : ready e -> ensureAudioContext available e = Some e.
Proof. intros (_ & Hi & _). unfold ensureAudioContext. now rewrite Hi. Qed.

(** [playNote] on a valid note, written out. *)
Lemma playNote_eq available note off dur now e :
  ready e -> (0 <= noteEventToMidiNote note)%Z ->
  exists sc,
    jsIndex stringCharacteristics (string note) = Some sc
    /\ isWound sc = (3 <=? string note)%Z
    /\ playNote midiFrequency available note off dur now e =
       Some (mkEngine true (masterGain e)
               (mapSet (NoteId (noteEventToMidiNote note) (now + off))
                  (length (voices e)) (activeVoices e))
               (setAdd (length (oscillators e) + 5)
                  (foldl (fun s i => setAdd i s) (activeOscillators e)
                     (seq (length (oscillators e)) 5)))
               (isInitialized e)
               ((oscillators e
                 ++ map (harmonicOscillator (now + off) dur)
                      (harmonicsTable (midiFrequency (noteEventToMidiNote note))))
                ++ [mkOscillator (45 # 10) sine (Some (now + off + (1 # 10)))
                      (Some (now + off + dur))])
               (voices e
                ++ [voiceOf (midiFrequency (noteEventToMidiNote note)) (now + off) dur sc
                      (length (oscillators e))])).
Proof.
  intros Hr Hm. destruct (valid_note_characteristics note Hm) as (sc & Hsc & Hw).
  exists sc. split; [exact Hsc|]. split; [exact Hw|].
  unfold playNote. rewrite (ready_ensure _ _ Hr). cbn [mbind option_bind].
  destruct (noteEventToMidiNote note <? 0)%Z eqn:E; [lia|].
  destruct Hr as (Hc & _ & Hg).
  now apply playSimpleGuitarNote_eq.
Qed.

(** A note that is not valid is skipped. *)
Lemma playNote_skip available note off dur now e :
  ready e -> (noteEventToMidiNote note < 0)%Z ->
  playNote midiFrequency available note off dur now e = Some e.
Proof.
  intros Hr Hm. unfold playNote. rewrite (ready_ensure _ _ Hr). cbn [mbind option_bind].
  destruct (noteEventToMidiNote note <? 0)%Z eqn:E; [reflexivity | lia].
Qed.

Lemma playNote_harmonic_bank_ready available note off dur now e :
  ready e -> (0 <= noteEventToMidiNote note)%Z ->
  exists e' v,
    playNote midiFrequency available note off dur now e = Some e'
    /\ voices e' !! length (voices e) = Some v
    /\ length (v_harmonics v) = 5%nat
    /\ let f := midiFrequency (noteEventToMidiNote note) in
       let wound := (3 <=? string note)%Z in
       harmonicBank e' v =
       [ (Some f, 1);
         (Some (f * 2), 6 # 10);
         (Some (f * 3), if wound then (3 # 10) * (7 # 10) else 3 # 10);
         (Some (f * 4), if wound then (15 # 100) * (7 # 10) else 15 # 100);
         (Some (f * 5), if wound then (1 # 10) * (7 # 10) else 1 # 10) ].
Proof.
  intros Hr Hm.
  destruct (playNote_eq available note off dur now e Hr Hm) as (sc & _ & Hw & Heq).
  eexists. eexists. split; [exact Heq|].
  cbn [voices]. split.
  { rewrite <- (Nat.add_0_r (length (voices e))), lookup_app_plus. reflexivity. }
  split; [reflexivity|].
  unfold harmonicBank. cbn [voiceOf v_harmonics harmonicsTable imap map oscillators compose].
  rewrite <- !app_assoc, !lookup_app_plus.
  unfold harmonicAmp. rewrite Hw. cbn.
  destruct (3 <=? string note)%Z; reflexivity.
Qed.

Lemma ensureAudioContext_ready available e :
  engine_wf e -> (available = true \/ isInitialized e = true) ->
  exists e', ensureAudioContext available e = Some e' /\ ready e'
             /\ voices e' = voices e /\ oscillators e' = oscillators e
             /\ ensureAudioContext available e' = Some e'.
Proof.
  intros Hwf Hav. unfold ensureAudioContext, initialize.
  destruct (isInitialized e) eqn:E.
  - exists e. rewrite E. repeat split; now apply Hwf.
  - destruct Hav as [-> | Hi]; [|discriminate].
    eexists. split; [reflexivity|]. repeat split. simpl. eauto.
Qed.

(** C9. The voice built for a played note mixes exactly five oscillators,
    at the fundamental frequency [f] of the note and at [2f], [3f], [4f]
    and [5f], through gains 1.0, 0.6, 0.3, 0.15 and 0.1; on a wound string
    (strings 3, 4 and 5) the gains of the harmonics above the second are
    multiplied by 0.7. *)
Theorem playNote_harmonic_bank available note off dur now e :
  engine_wf e -> (available = true \/ isInitialized e = true) ->
  (0 <= noteEventToMidiNote note)%Z ->
  exists e' v,
    playNote midiFrequency available note off dur now e = Some e'
    /\ voices e' !! length (voices e) = Some v
    /\ length (v_harmonics v) = 5%nat
    /\ let f := midiFrequency (noteEventToMidiNote note) in
       let wound := (3 <=? string note)%Z in
       harmonicBank e' v =
       [ (Some f, 1);
         (Some (f * 2), 6 # 10);
         (Some (f * 3), if wound then (3 # 10) * (7 # 10) else 3 # 10);
         (Some (f * 4), if wound then (15 # 100) * (7 # 10) else 15 # 100);
         (Some (f * 5), if wound then (1 # 10) * (7 # 10) else 1 # 10) ].
Proof.
  intros Hwf Hav Hm.
  destruct (ensureAudioContext_ready available e Hwf Hav)
    as (e1 & He & Hr & Hv & _ & He1).
  destruct (playNote_harmonic_bank_ready available note off dur now e1 Hr Hm)
    as (e' & v & Hplay & Hlook & Hlen & Hbank).
  exists e', v. split.
  - unfold playNote in *. rewrite He. rewrite He1 in Hplay. exact Hplay.
  - rewrite <- Hv. auto.
Qed.

End PlayNoteFacts.

(** ** The engine: after a cancellation *)

Lemma foldl_alter_length {A B : Type} (f : A -> A) (g : B -> nat)
  (ids : list B) (l : list A) :
  length (foldl (fun acc a => alter f (g a) acc) l ids) = length l.
Proof.
  revert l. induction ids as [|a ids IH]; intros l; simpl; [reflexivity|].
  now rewrite IH, length_alter.
Qed.

Lemma stopAllNotes_ready t e : ready e -> ready (stopAllNotes t e).
Proof.
  intros (Hc & Hi & Hg). unfold stopAllNotes. rewrite Hc. simpl.
  repeat split; auto. destruct Hg as [g ->]. simpl. eauto.
Qed.

Lemma stopAllNotes_lengths t e :
  length (voices (stopAllNotes t e)) = length (voices e)
  /\ length (oscillators (stopAllNotes t e)) = length (oscillators e).
Proof.
  unfold stopAllNotes. destruct (audioContext e); simpl; [|auto].
  split.
  - apply (foldl_alter_length (zeroGain t) (snd : VoiceKey * nat -> nat)).
  - apply (foldl_alter_length (tryStop t) (fun i : nat => i)).
Qed.

Lemma stopAllNotes_master t e g :
  audioContext e = true -> masterGain e = Some g ->
  masterGain (stopAllNotes t e) = Some (muteMaster t g).
Proof. intros Hc Hg. unfold stopAllNotes. rewrite Hc, Hg. reflexivity. Qed.

Lemma setMasterVolume_master volume now e g :
  audioContext e = true -> masterGain e = Some g ->
  masterGain (setMasterVolume volume now e) =
  Some (setValueAtTime (Math_max 0 (Math_min 1 volume)) now (cancelScheduledValues now g)).
Proof. intros Hc Hg. unfold setMasterVolume. rewrite Hg, Hc. reflexivity. Qed.

(** [setMasterVolume] applies the clamped volume from the call on,
    whatever was scheduled on the master gain. *)
Lemma setMasterVolume_applies volume now e :
  ready e ->
  exists g, masterGain (setMasterVolume volume now e) = Some g
    /\ forall tau, now <= tau -> valueAt g tau = Some (Math_max 0 (Math_min 1 volume)).
Proof.
  intros (Hc & _ & [g Hg]). eexists. split.
  - apply (setMasterVolume_master volume now e g Hc Hg).
  - intros tau Ht. now apply valueAt_cancel_set.
Qed.

Section AfterCancellation.

Variable midiFrequency : Z -> Q.

(** C8, as the code has it.  After [stopAllNotes] at time [t] the
    registries are empty, so the voice of a later [playNote] is not touched
    by the cancellation: it is the only registered voice, its stoppable
    gain is 1 at all times and its five oscillators run from the scheduled
    start to the scheduled stop.  The master gain, however, stays at the
    0.0001 that the cancellation ramped it to, from [t + 0.01] on, and the
    note goes through it; it is [setMasterVolume] (which [TabSequencer.play]
    calls first) that restores the output, to the clamped volume. *)
Theorem playNote_after_stopAllNotes available note off dur t now e :
  ready e -> (0 <= noteEventToMidiNote note)%Z ->
  exists e2 v,
    playNote midiFrequency available note off dur now (stopAllNotes t e) = Some e2
    /\ voices e2 !! length (voices e) = Some v
    /\ activeVoices e2 = [(NoteId (noteEventToMidiNote note) (now + off), length (voices e))]
    /\ (forall tau, valueAt (v_stoppableGain v) tau = Some 1)
    /\ (forall id amp, In (id, amp) (v_harmonics v) ->
          exists o, oscillators e2 !! id = Some o
                    /\ osc_start o = Some (now + off)
                    /\ osc_stop o = Some (now + off + dur))
    /\ (exists g, masterGain e2 = Some g
          /\ forall tau, t + (1 # 100) <= tau -> valueAt g tau = Some (1 # 10000))
    /\ (forall volume t2, exists g,
          masterGain (setMasterVolume volume t2 e2) = Some g
          /\ forall tau, t2 <= tau ->
               valueAt g tau = Some (Math_max 0 (Math_min 1 volume))).
Proof.
  intros Hr Hm.
  pose proof (stopAllNotes_ready t e Hr) as Hr1.
  destruct (stopAllNotes_lengths t e) as [Hlv Hlo].
  destruct (playNote_eq midiFrequency available note off dur now _ Hr1 Hm)
    as (sc & _ & _ & Heq).
  destruct Hr as (Hc & Hi & [g Hg]).
  destruct (stopAllNotes_registries t e Hc) as [Hro Hrv].
  rewrite Hlv, Hlo, Hrv, Hro in Heq.
  rewrite (stopAllNotes_master t e g Hc Hg) in Heq.
  set (e2 := mkEngine _ _ _ _ _ _ _) in Heq.
  exists e2. eexists. split; [exact Heq|].
  split.
  { unfold e2; cbn [voices].
    rewrite <- Hlv, <- (Nat.add_0_r (length (voices _))), lookup_app_plus. reflexivity. }
  split; [reflexivity|].
  split; [intros tau; reflexivity|].
  split.
  { intros id amp Hin. unfold e2; cbn [oscillators].
    cbn [voiceOf v_harmonics harmonicsTable imap compose] in Hin.
    destruct Hin as [H|[H|[H|[H|[H|[]]]]]]; inversion H; subst id amp; clear H;
      rewrite <- Hlo, <- app_assoc, lookup_app_plus;
      eexists; (split; [reflexivity|]); split; reflexivity. }
  split.
  { exists (muteMaster t g). split; [reflexivity|].
    intros tau Ht. now apply valueAt_muteMaster. }
  intros volume t2. apply setMasterVolume_applies.
  destruct Hr1 as (_ & Hi1 & _).
  split; [reflexivity|]. split; [exact Hi1 | unfold e2; simpl; eauto].
Qed.

End AfterCancellation.

(** ** The engine: a voice that has not started yet *)

Lemma setAdd_In x y s : In x (setAdd y s) <-> x = y \/ In x s.
Proof.
  unfold setAdd. destruct (existsb (Nat.eqb y) s) eqn:E.
  - split; [auto|]. intros [-> | H]; [|exact H].
    apply existsb_exists in E as (z & Hz & Hyz).
    apply Nat.eqb_eq in Hyz. now subst.
  - rewrite in_app_iff. simpl. intuition congruence.
Qed.

Lemma foldl_setAdd_In x l s :
  In x (foldl (fun s i => setAdd i s) s l) <-> In x s \/ In x l.
Proof.
  revert s. induction l as [|y l IH]; intros s; simpl; [tauto|].
  rewrite IH, setAdd_In. intuition congruence.
Qed.

Lemma mapSet_In k v m : exists k', In (k', v) (mapSet k v m).
Proof.
  induction m as [|[k1 v1] m IH]; simpl.
  - exists k. now left.
  - destruct (VoiceKey_eqb k1 k).
    + exists k1. now left.
    + destruct IH as [k' Hk']. exists k'. now right.
Qed.

Section ScheduledVoice.

Variable midiFrequency : Z -> Q.

(** A note is played with any start offset, and [stopAllNotes] comes at
    [t] before a timer or an ['ended'] listener has run -- in particular
    while the note has not started.  The voice and its five oscillators are
    in the registries, so the voice is multiplied by zero and none of its
    oscillators sounds from [t] on. *)
Lemma playNote_then_stopAllNotes available note off dur now t e e1 :
  ready e -> (0 <= noteEventToMidiNote note)%Z ->
  playNote midiFrequency available note off dur now e = Some e1 ->
  exists v',
    voices (stopAllNotes t e1) !! length (voices e) = Some v'
    /\ length (v_harmonics v') = 5%nat
    /\ (forall tau, t <= tau -> valueAt (v_stoppableGain v') tau = Some 0)
    /\ (forall id amp,
          In (id, amp) (v_harmonics v') ->
          exists o, oscillators e1 !! id = Some o
                    /\ osc_start o = Some (now + off)
                    /\ exists o', oscillators (stopAllNotes t e1) !! id = Some o'
                          /\ forall tau, t <= tau -> sounding o' tau = false).
Proof.
  intros Hr Hm Hplay.
  destruct (playNote_eq midiFrequency available note off dur now e Hr Hm)
    as (sc & _ & _ & Heq).
  rewrite Heq in Hplay. injection Hplay as <-.
  set (e1 := mkEngine _ _ _ _ _ _ _).
  destruct (mapSet_In (NoteId (noteEventToMidiNote note) (now + off))
              (length (voices e)) (activeVoices e)) as [k' Hk'].
  assert (Hv : voices e1 !! length (voices e)
               = Some (voiceOf (midiFrequency (noteEventToMidiNote note)) (now + off)
                         dur sc (length (oscillators e)))).
  { unfold e1; cbn [voices].
    rewrite <- (Nat.add_0_r (length (voices e))), lookup_app_plus. reflexivity. }
  destruct (stopAllNotes_voice_full t e1 k' _ _ eq_refl Hk' Hv)
    as (v' & Hv' & Hh & _ & Hzero).
  exists v'. split; [exact Hv'|]. rewrite Hh.
  split; [reflexivity|]. split; [exact Hzero|].
  intros id amp Hin.
  cbn [voiceOf v_harmonics harmonicsTable imap compose] in Hin.
  assert (Hid : exists i o, (i < 5)%nat /\ id = (length (oscillators e) + i)%nat
                            /\ oscillators e1 !! id = Some o
                            /\ osc_start o = Some (now + off)).
  { unfold e1; cbn [oscillators]. rewrite <- app_assoc.
    destruct Hin as [H|[H|[H|[H|[H|[]]]]]]; inversion H; subst id amp; clear H;
      [exists 0%nat | exists 1%nat | exists 2%nat | exists 3%nat | exists 4%nat];
      rewrite lookup_app_plus; eexists; (split; [lia|]);
      (split; [reflexivity|]); split; reflexivity. }
  destruct Hid as (i & o & Hi & -> & Ho & Hs).
  exists o. split; [exact Ho|]. split; [exact Hs|].
  destruct (stopAllNotes_oscillator t e1 (length (oscillators e) + i)%nat o eq_refl)
    as (o' & Ho' & _ & _ & Hsil); [|exact Ho|eauto].
  change (activeOscillators e1)
    with (setAdd (length (oscillators e) + 5)
            (foldl (fun s i => setAdd i s) (activeOscillators e)
               (seq (length (oscillators e)) 5))).
  apply setAdd_In. right. apply foldl_setAdd_In. right.
  apply in_seq. lia.
Qed.

End ScheduledVoice.

(** ** The sequencer: tempo *)

Lemma setTempo_tempo bpm s : tempo (setTempo bpm s) = Math_max 60 (Math_min 200 bpm).
Proof. reflexivity. Qed.

(** [setTempo] stores the clamped value. *)
Lemma setTempo_range bpm s : 60 <= tempo (setTempo bpm s) <= 200.
Proof. rewrite setTempo_tempo. apply clamp_range. lra. Qed.

Lemma setTempo_inside bpm s : 60 <= bpm <= 200 -> tempo (setTempo bpm s) == bpm.
Proof.
  intros [H1 H2]. rewrite setTempo_tempo.
  destruct (Math_min_spec 200 bpm) as (Ha & Hb & Hc).
  destruct (Math_max_spec 60 (Math_min 200 bpm)) as (Hd & He & Hf).
  revert Ha Hb Hc Hd He Hf.
  generalize (Math_max 60 (Math_min 200 bpm)) as M.
  generalize (Math_min 200 bpm) as m.
  intros m M Ha Hb Hc Hd He Hf.
  destruct Hf as [Hf | Hf]; destruct Hc as [Hc | Hc]; subst; lra.
Qed.

(** [setTabData] stores a present, non-zero tempo as it is. *)
Lemma setTabData_tempo tab s q :
  tab_tempo tab = Some q -> ~ q == 0 -> tempo (setTabData tab s) = q.
Proof.
  intros Hq Hz. unfold setTabData, truthy. rewrite Hq.
  destruct (Qeq_bool q 0) eqn:E; [apply Qeq_bool_iff in E; contradiction|].
  reflexivity.
Qed.

Lemma setTabData_no_tempo tab s :
  truthy (tab_tempo tab) = false -> tempo (setTabData tab s) = tempo s.
Proof. intros H. unfold setTabData. rewrite H. reflexivity. Qed.

(** The tempo is never zero: it starts at 120, [setTempo] keeps it at 60
    or more and [setTabData] ignores a zero. *)
Lemma setTabData_tempo_nonzero tab s : ~ tempo s == 0 -> ~ tempo (setTabData tab s) == 0.
Proof.
  intros H. unfold setTabData, truthy.
  destruct (tab_tempo tab) as [q|]; simpl; [|exact H].
  destruct (Qeq_bool q 0) eqn:E; simpl; [exact H|].
  intros Hq. apply Qeq_bool_iff in Hq. congruence.
Qed.

Lemma setTempo_tempo_nonzero bpm s : ~ tempo (setTempo bpm s) == 0.
Proof. pose proof (setTempo_range bpm s). lra. Qed.

(** C7. [setTempo] clamps, [setTabData] does not: loading [tabFast], whose
    tempo field is 300, leaves 300 in the sequencer, above the range
    [[60, 200]] that [setTempo] enforces. *)
Theorem setTabData_stores_tempo_unclamped :
  tempo (setTabData tabFast (newSequencer newEngine)) = 300
  /\ ~ tempo (setTabData tabFast (newSequencer newEngine)) <= 200
  /\ tempo (setTempo 300 (newSequencer newEngine)) = 200.
Proof.
  split; [reflexivity|]. split; [|reflexivity].
  change (tempo (setTabData tabFast (newSequencer newEngine))) with 300. lra.
Qed.

(** The controller calls [setTempo] right after [setTabData]; the pair
    leaves the tempo in range. *)
Lemma load_then_setTempo_range tab bpm s :
  60 <= tempo (setTempo bpm (setTabData tab s)) <= 200.
Proof. apply setTempo_range. Qed.

(** ** The sequencer: flattening *)

Lemma globalBeat_supplied note g :
  globalBeatPosition note = Some g -> nd_beatPosition (toNoteData note) = g.
Proof. intros H. unfold toNoteData, globalBeat. simpl. now rewrite H. Qed.

Lemma globalBeat_missing note :
  globalBeatPosition note = None ->
  nd_beatPosition (toNoteData note) = beatPosition note.
Proof. intros H. unfold toNoteData, globalBeat. simpl. now rewrite H. Qed.

(** Exactly the notes with [fret >= 0] are flattened, none is fired yet. *)
Lemma collectNotes_In ms nd :
  In nd (collectNotes ms) <->
  exists measure note,
    In measure ms /\ In note (notes measure) /\ (0 <= fret note)%Z
    /\ nd = toNoteData note.
Proof.
  unfold collectNotes. rewrite in_flat_map. split.
  - intros (m & Hm & Hin). apply in_map_iff in Hin as (note & <- & Hn).
    apply filter_In in Hn as [Hn Hf]. exists m, note.
    repeat split; auto. now apply Z.leb_le.
  - intros (m & note & Hm & Hn & Hf & ->). exists m. split; [exact Hm|].
    apply in_map. apply filter_In. split; [exact Hn | now apply Z.leb_le].
Qed.

Lemma insertNote_perm x l : Permutation (insertNote x l) (x :: l).
Proof.
  induction l as [|y l IH]; simpl; [reflexivity|].
  destruct (Qle_bool _ _); [reflexivity|].
  rewrite IH. apply perm_swap.
Qed.

Lemma sortNotes_perm l : Permutation (sortNotes l) l.
Proof.
  induction l as [|x l IH]; simpl; [reflexivity|].
  rewrite insertNote_perm. now constructor.
Qed.

Lemma insertNote_sorted x l :
  StronglySorted beatLe l -> StronglySorted beatLe (insertNote x l).
Proof.
  induction 1 as [|y l Hl IH Hy]; simpl.
  - constructor; constructor.
  - destruct (Qle_bool (nd_beatPosition x) (nd_beatPosition y)) eqn:E.
    + apply Qle_bool_iff in E. constructor.
      * now constructor.
      * constructor; [exact E|].
        eapply Forall_impl; [exact Hy|]. intros z Hz. unfold beatLe in *. lra.
    + assert (Hlt : nd_beatPosition y < nd_beatPosition x).
      { apply Qltb_lt. unfold Qltb. now rewrite E. }
      constructor; [exact IH|].
      apply Forall_forall. intros z Hz.
      apply list_elem_of_In in Hz.
      apply (Permutation_in _ (insertNote_perm x l)) in Hz.
      destruct Hz as [<- | Hz].
      * unfold beatLe. lra.
      * rewrite Forall_forall in Hy. apply Hy. now apply list_elem_of_In.
Qed.

(** The flattened list is in ascending order of beat. *)
Lemma sortNotes_sorted l : StronglySorted beatLe (sortNotes l).
Proof.
  induction l as [|x l IH]; simpl; [constructor|]. now apply insertNote_sorted.
Qed.

(** ... and stable: the entries on any one beat keep their original order. *)
Lemma insertNote_stable b x l :
  List.filter (fun y => Qeq_bool (nd_beatPosition y) b) (insertNote x l) =
  List.filter (fun y => Qeq_bool (nd_beatPosition y) b) (x :: l).
Proof.
  induction l as [|y l IH]; [reflexivity|].
  cbn [insertNote].
  destruct (Qle_bool (nd_beatPosition x) (nd_beatPosition y)) eqn:E; [reflexivity|].
  assert (Hlt : nd_beatPosition y < nd_beatPosition x).
  { apply Qltb_lt. unfold Qltb. now rewrite E. }
  cbn [List.filter] in *. rewrite IH.
  destruct (Qeq_bool (nd_beatPosition x) b) eqn:Ex;
    destruct (Qeq_bool (nd_beatPosition y) b) eqn:Ey; try reflexivity.
  apply Qeq_bool_iff in Ex, Ey. lra.
Qed.

Lemma sortNotes_stable b l :
  List.filter (fun y => Qeq_bool (nd_beatPosition y) b) (sortNotes l) =
  List.filter (fun y => Qeq_bool (nd_beatPosition y) b) l.
Proof.
  induction l as [|x l IH]; [reflexivity|].
  cbn [sortNotes foldr]. fold (sortNotes l).
  rewrite insertNote_stable. cbn [List.filter]. now rewrite IH.
Qed.

Lemma prepareNotes_allNotes s tab :
  tabData s = Some tab ->
  allNotes (prepareNotes s) = sortNotes (collectNotes (measures tab)).
Proof. intros H. unfold prepareNotes. rewrite H. reflexivity. Qed.

(** C6. In [tabTwoMeasures] the note of the second measure (index 1) has
    [beatPosition] 1 and no [globalBeatPosition]; [prepareNotes] gives it
    beat 1, its position inside the measure, not [1 * 4 + 1]. *)
Theorem prepareNotes_ignores_measure_offset :
  let s := prepareNotes (setTabData tabTwoMeasures (newSequencer newEngine)) in
  let note := mkNote 1 3 1 1 None in
  measures tabTwoMeasures !! 1%nat = Some (mkMeasure [note])
  /\ map nd_note (allNotes s) = [mkNote 0 0 0 1 (Some 0); note]
  /\ map nd_beatPosition (allNotes s) = [0; 1]
  /\ ~ 1 == 1 * 4 + beatPosition note.
Proof.
  repeat split. simpl. lra.
Qed.

(** ** The sequencer: the tick *)

Lemma Math_min_compat (a a' b : Q) : a == a' -> Math_min a b == Math_min a' b.
Proof.
  intros H. unfold Math_min.
  destruct (Qle_bool a b) eqn:E1; destruct (Qle_bool a' b) eqn:E2;
    try (apply Qle_bool_iff in E1); try (apply Qle_bool_iff in E2);
    try (apply not_true_iff_false in E1; rewrite Qle_bool_iff in E1);
    try (apply not_true_iff_false in E2; rewrite Qle_bool_iff in E2);
    lra.
Qed.

Lemma due_iff cb nd :
  due cb nd = true <->
  nd_triggered nd = false
  /\ nd_beatPosition nd - lookahead <= cb
  /\ cb <= nd_beatPosition nd + lookahead.
Proof.
  unfold due. rewrite !andb_true_iff, negb_true_iff, !Qle_bool_iff. tauto.
Qed.

Lemma triggerNotes_fst cb bd l :
  fst (triggerNotes cb bd l) =
  map (fun nd => if due cb nd then markTriggered nd else nd) l.
Proof.
  induction l as [|nd l IH]; [reflexivity|].
  cbn [triggerNotes map]. destruct (triggerNotes cb bd l) as [r c].
  simpl in IH. destruct (due cb nd); simpl; now rewrite IH.
Qed.

(** The calls of a tick are those of the entries that are due, in the
    order of [allNotes]. *)
Lemma triggerNotes_snd cb bd l :
  snd (triggerNotes cb bd l) = map (fire cb bd) (List.filter (due cb) l).
Proof.
  induction l as [|nd l IH]; [reflexivity|].
  cbn [triggerNotes List.filter]. destruct (triggerNotes cb bd l) as [r c].
  simpl in IH. destruct (due cb nd); simpl; now rewrite IH.
Qed.

Lemma tick_calls now s :
  isPlaying s = true ->
  snd (tick now s) =
  map (fire (tickBeat now s) (60 / tempo s))
      (List.filter (due (tickBeat now s)) (allNotes s)).
Proof.
  intros Hp. unfold tick. rewrite Hp. cbn [negb].
  rewrite <- triggerNotes_snd.
  destruct (triggerNotes _ _ _) as [r c]. cbn [snd].
  destruct (tabData _); [|reflexivity].
  destruct (_ && _); [reflexivity|].
  destruct (_ && _); reflexivity.
Qed.

Lemma tick_not_playing now s : isPlaying s = false -> tick now s = (s, []).
Proof. intros H. unfold tick. now rewrite H. Qed.

(** The start offset and the duration passed with a call. *)
Lemma fire_call cb bd nd :
  call_note (fire cb bd nd) = nd_note nd
  /\ call_startTime (fire cb bd nd) = Math_max 0 ((nd_beatPosition nd - cb) * bd)
  /\ call_duration (fire cb bd nd) = nd_beatDuration nd * bd.
Proof. repeat split. Qed.

(** An entry is marked as fired exactly when the tick calls [playNote] for it. *)
Lemma triggerNotes_marks cb bd l i nd :
  l !! i = Some nd ->
  fst (triggerNotes cb bd l) !! i =
  Some (if due cb nd then markTriggered nd else nd).
Proof.
  intros H. rewrite triggerNotes_fst, list_lookup_fmap, H. reflexivity.
Qed.

(** C2. [playingBeatOne] runs at 120 bpm (0.5 s per beat) with an unfired
    trigger on beat 1.  The tick at 0.46 s computes beat 0.92: the trigger
    is 0.04 s away, inside a window of 50 ms, but the tick compares the
    distance in beats with 0.05 and issues no call. *)
Theorem tick_window_counts_beats :
  let s := playingBeatOne in
  let now := 46 # 100 in
  let secondsPerBeat := 60 / tempo s in
  isPlaying s = true
  /\ tickBeat now s == 92 # 100
  /\ (exists nd, allNotes s = [nd]
        /\ nd_triggered nd = false
        /\ nd_beatPosition nd = 1
        /\ (nd_beatPosition nd - tickBeat now s) * secondsPerBeat == 4 # 100
        /\ due (tickBeat now s) nd = false)
  /\ snd (tick now s) = []
  /\ allNotes (fst (tick now s)) = allNotes s.
Proof.
  cbv zeta. split; [reflexivity|]. split; [reflexivity|]. split.
  - eexists. split; [reflexivity|]. repeat split.
  - split; reflexivity.
Qed.

(** With the window counted in beats the start offset is as the tick
    computes it: [max(0, (beat - currentBeat) * secondsPerBeat)]. *)
Lemma tick_call_of_due now s nd :
  isPlaying s = true -> In nd (allNotes s) -> due (tickBeat now s) nd = true ->
  In (mkCall (nd_note nd)
        (Math_max 0 ((nd_beatPosition nd - tickBeat now s) * (60 / tempo s)))
        (nd_beatDuration nd * (60 / tempo s)))
     (snd (tick now s)).
Proof.
  intros Hp Hin Hd. rewrite tick_calls by exact Hp.
  apply in_map_iff. exists nd. split; [reflexivity|].
  apply filter_In. auto.
Qed.

(** ** The sequencer: progress *)

Lemma startFreshPlayback_totalDuration now s tab :
  tabData s = Some tab ->
  totalDuration (startFreshPlayback now s) = totalBeatsOf tab * (60 / tempo s)
  /\ tempo (startFreshPlayback now s) = tempo s.
Proof.
  intros H. unfold startFreshPlayback, startRealtimePlayback, prepareNotes.
  cbn [tabData set_totalPausedDuration set_startTime set_currentBeat set_flags].
  rewrite H. split; reflexivity.
Qed.

(** While the tempo is the one [prepareNotes] saw, the progress of a tick
    is [min(currentBeat / totalBeats, 1)]. *)
Lemma tickProgress_same_tempo now s totalBeats :
  ~ tempo s == 0 -> ~ totalBeats == 0 ->
  totalDuration s == totalBeats * (60 / tempo s) ->
  tickProgress now s == Math_min (tickBeat now s / totalBeats) 1.
Proof.
  intros Ht Hb Hd. unfold tickProgress. apply Math_min_compat.
  rewrite Hd. field. repeat split; (assumption || lra).
Qed.

(** [setTempo] leaves [totalDuration] as [prepareNotes] computed it. *)
Lemma setTempo_totalDuration bpm s : totalDuration (setTempo bpm s) = totalDuration s.
Proof. reflexivity. Qed.

Lemma loop_progressReports now s : progressReports (loop now s) = progressReports s.
Proof. reflexivity. Qed.

(** Every tick of a playing sequencer with an observer reports
    [tickProgress]; the tick that completes the playback reports 0 after it. *)
Lemma tickCore_frame now s :
  tabData (tickCore now s) = tabData s
  /\ isLooping (tickCore now s) = isLooping s
  /\ loopEndMeasure (tickCore now s) = loopEndMeasure s
  /\ loopStartMeasure (tickCore now s) = loopStartMeasure s
  /\ currentBeat (tickCore now s) = tickBeat now s
  /\ startTime (tickCore now s) = startTime s
  /\ totalPausedDuration (tickCore now s) = totalPausedDuration s
  /\ tempo (tickCore now s) = tempo s
  /\ isPlaying (tickCore now s) = isPlaying s
  /\ allNotes (tickCore now s) =
     fst (triggerNotes (tickBeat now s) (60 / tempo s) (allNotes s)).
Proof.
  unfold tickCore, reportProgress. cbn [onProgressCallback set_allNotes set_currentBeat].
  destruct (onProgressCallback s); repeat split.
Qed.

(** The shape of a tick of a playing sequencer. *)
Lemma tick_fst now s :
  isPlaying s = true ->
  fst (tick now s) =
  match tabData s with
  | None => tickCore now s
  | Some _ =>
      if isLooping s && Qle_bool (loopEndMeasure s * 4) (tickBeat now s)
      then loop now (tickCore now s)
      else if negb (isLooping s) && Qle_bool 1 (tickProgress now s)
           then reportComplete (stop now (tickCore now s))
           else tickCore now s
  end.
Proof.
  intros Hp. unfold tick. rewrite Hp. cbn [negb].
  destruct (tickCore_frame now s) as (Ht & Hl & He & _ & Hb & _).
  unfold tickCore in *.
  destruct (triggerNotes _ _ _) as [r c]. cbn [fst] in *.
  rewrite Ht, Hl, He, Hb.
  destruct (tabData s); [|reflexivity].
  destruct (isLooping s && _); [reflexivity|].
  destruct (negb (isLooping s) && _); reflexivity.
Qed.

Lemma tickCore_reports now s :
  onProgressCallback s = true ->
  progressReports (tickCore now s) = tickProgress now s :: progressReports s.
Proof.
  intros Hc. unfold tickCore, reportProgress.
  cbn [onProgressCallback set_allNotes set_currentBeat]. rewrite Hc. reflexivity.
Qed.

Lemma stop_reports now s :
  onProgressCallback s = true ->
  progressReports (reportComplete (stop now s)) = 0 :: progressReports s.
Proof.
  intros Hc. unfold reportComplete, stop, reportProgress. simpl.
  rewrite Hc. simpl. destruct (onCompleteCallback s); reflexivity.
Qed.

(** Every tick of a playing sequencer with an observer reports
    [tickProgress]; the tick that completes the playback reports 0 after it. *)
Lemma tick_reports now s :
  isPlaying s = true -> onProgressCallback s = true ->
  exists pre,
    progressReports (fst (tick now s)) = pre ++ tickProgress now s :: progressReports s
    /\ (pre = [] \/ pre = [0]).
Proof.
  intros Hp Hc. rewrite (tick_fst now s Hp).
  pose proof (tickCore_reports now s Hc) as Hr.
  destruct (tabData s).
  - destruct (isLooping s && _).
    + exists (@nil Q). rewrite loop_progressReports. auto.
    + destruct (negb (isLooping s) && _).
      * exists [0]. rewrite stop_reports, Hr; auto.
        unfold tickCore, reportProgress.
        cbn [onProgressCallback set_allNotes set_currentBeat]. rewrite Hc. exact Hc.
      * exists (@nil Q). auto.
  - exists (@nil Q). auto.
Qed.

(** C4. [playingBeatOne] was flattened at 120 bpm: two measures, 8 beats,
    [totalDuration] 4 s.  After [setTempo 60] the tick at 2 s computes
    beat 2 and reports progress 1/2, where [min(2 / 8, 1)] is 1/4: the
    divisor [totalDuration / beatDuration] has become 4 beats. *)
Theorem progress_after_setTempo_is_stale :
  let s := setTempo 60 playingBeatOne in
  let s' := fst (tick 2 s) in
  totalBeatsOf tabBeatOne == 8
  /\ tickBeat 2 s == 2
  /\ currentBeat s' == 2
  /\ totalDuration s / (60 / tempo s) == 4
  /\ exists p, progressReports s' = [p]
       /\ p == 1 # 2
       /\ ~ p == Math_min (currentBeat s' / totalBeatsOf tabBeatOne) 1.
Proof.
  cbv zeta. repeat (split; [reflexivity|]).
  eexists. split; [reflexivity|]. split; [reflexivity|].
  intros H. vm_compute in H. discriminate H.
Qed.

(** ** The sequencer: play, pause and resume *)

Lemma initialize_ready e e' : initialize true e = Some e' -> ready e' \/ e' = e.
Proof.
  unfold initialize. destruct (isInitialized e) eqn:E.
  - intros [= <-]. now right.
  - intros [= <-]. left. repeat split. simpl. eauto.
Qed.

Lemma setMasterVolume_frame volume now e :
  isInitialized (setMasterVolume volume now e) = isInitialized e
  /\ audioContext (setMasterVolume volume now e) = audioContext e
  /\ (is_Some (masterGain e) -> is_Some (masterGain (setMasterVolume volume now e))).
Proof.
  unfold setMasterVolume. destruct (masterGain e) as [g|] eqn:Hg.
  - destruct (audioContext e) eqn:Hc.
    + split; [reflexivity|]. split; [simpl; congruence|]. simpl. eauto.
    + rewrite Hg, Hc. split; [reflexivity|]. split; [reflexivity|]. eauto.
  - rewrite Hg. split; [reflexivity|]. split; [reflexivity|]. auto.
Qed.

Lemma setMasterVolume_wf volume now e :
  engine_wf e -> engine_wf (setMasterVolume volume now e).
Proof.
  intros Hwf Hi. destruct (setMasterVolume_frame volume now e) as (H1 & H2 & H3).
  rewrite H1 in Hi. destruct (Hwf Hi) as (Hc & _ & Hg).
  repeat split; [now rewrite H2 | now rewrite H1 | now apply H3].
Qed.

Lemma resume_frame now s :
  audioEngine (resume now s) = audioEngine s
  /\ isPlaying (resume now s) = true
  /\ isPaused (resume now s) = false
  /\ allNotes (resume now s) = allNotes s
  /\ currentBeat (resume now s) = currentBeat s
  /\ tempo (resume now s) = tempo s
  /\ startTime (resume now s) = startTime s
  /\ totalPausedDuration (resume now s) = totalPausedDuration s + (now - pausedTime s).
Proof. repeat split. Qed.

Lemma startFreshPlayback_frame now s :
  audioEngine (startFreshPlayback now s) = audioEngine s
  /\ isPlaying (startFreshPlayback now s) = true
  /\ currentBeat (startFreshPlayback now s) = 0
  /\ startTime (startFreshPlayback now s) = now
  /\ totalPausedDuration (startFreshPlayback now s) = 0.
Proof.
  unfold startFreshPlayback, startRealtimePlayback, prepareNotes. simpl.
  destruct (tabData s); repeat split.
Qed.

Lemma play_master available now s tab :
  tabData s = Some tab -> engine_wf (audioEngine s) ->
  (available = true \/ isInitialized (audioEngine s) = true) ->
  exists s' g,
    play available now s = Some s'
    /\ isPlaying s' = true
    /\ masterGain (audioEngine s') = Some g
    /\ forall tau, now <= tau -> valueAt g tau = Some (3 # 10).
Proof.
  intros Ht Hwf Hav. unfold play. rewrite Ht.
  destruct (ensureAudioContext_ready available _ Hwf Hav) as (e1 & -> & Hr & _).
  cbn [mbind option_bind].
  destruct (setMasterVolume_applies (3 # 10) now e1 Hr) as (g & Hg & Hv).
  eexists. exists g. split; [reflexivity|].
  cbn [isPaused set_audioEngine].
  destruct (isPaused s).
  - destruct (resume_frame now (set_audioEngine (setMasterVolume (3 # 10) now e1) s))
      as (-> & -> & _). auto.
  - destruct (startFreshPlayback_frame now
                (set_audioEngine (setMasterVolume (3 # 10) now e1) s))
      as (-> & -> & _). auto.
Qed.

(** C10. With tab data loaded, [play] -- whether it starts afresh or
    resumes -- leaves the master gain at 0.3 from the call on, whatever the
    engine held before; in particular a volume set with [setMasterVolume]
    before the call (0 included) is replaced by 0.3. *)
Theorem play_sets_master_volume available now s tab :
  tabData s = Some tab -> engine_wf (audioEngine s) ->
  (available = true \/ isInitialized (audioEngine s) = true) ->
  (exists s' g,
      play available now s = Some s'
      /\ isPlaying s' = true
      /\ masterGain (audioEngine s') = Some g
      /\ forall tau, now <= tau -> valueAt g tau = Some (3 # 10))
  /\ (forall volume t0,
      exists s' g,
        play available now
          (set_audioEngine (setMasterVolume volume t0 (audioEngine s)) s) = Some s'
        /\ isPlaying s' = true
        /\ masterGain (audioEngine s') = Some g
        /\ forall tau, now <= tau -> valueAt g tau = Some (3 # 10)).
Proof.
  intros Ht Hwf Hav. split; [now apply (play_master available now s tab)|].
  intros volume t0. apply (play_master available now _ tab).
  - exact Ht.
  - now apply setMasterVolume_wf.
  - destruct Hav as [Ha | Hi]; [now left | right].
    cbn [audioEngine set_audioEngine].
    now rewrite (proj1 (setMasterVolume_frame volume t0 (audioEngine s))).
Qed.

Lemma pause_frame now s :
  audioContext (audioEngine s) = true ->
  audioEngine (pause now s) = stopAllNotes now (audioEngine s)
  /\ isPlaying (pause now s) = false
  /\ isPaused (pause now s) = true
  /\ pausedTime (pause now s) = now
  /\ tabData (pause now s) = tabData s
  /\ allNotes (pause now s) = allNotes s
  /\ currentBeat (pause now s) = currentBeat s
  /\ tempo (pause now s) = tempo s
  /\ startTime (pause now s) = startTime s
  /\ totalPausedDuration (pause now s) = totalPausedDuration s.
Proof.
  intros Hc. unfold pause. cbn [audioEngine set_flags]. rewrite Hc.
  repeat split.
Qed.

(** A paused sequencer does not tick. *)
Lemma pause_freezes now now' s :
  audioContext (audioEngine s) = true ->
  tick now' (pause now s) = (pause now s, []).
Proof.
  intros Hc. apply tick_not_playing. now apply pause_frame.
Qed.

Lemma tickBeat_compat now now' s s' :
  now - startTime s - totalPausedDuration s
    == now' - startTime s' - totalPausedDuration s' ->
  tempo s = tempo s' ->
  tickBeat now s == tickBeat now' s'.
Proof.
  intros He Ht. unfold tickBeat. rewrite Ht, He. reflexivity.
Qed.

(** C3. A playback paused at clock time [tp] and resumed with [play] at
    [tr], however long after, keeps the stored [currentBeat] and the list
    of triggers with its fired flags; the pause [tr - tp] is added to the
    paused total, so that the beat a tick computes [delta] after the resume
    is the beat it would have computed [delta] after the pause: at the
    resume itself, the beat of the pause. *)
Theorem pause_resume_continuity available tp tr s tab :
  isPlaying s = true -> tabData s = Some tab -> ready (audioEngine s) ->
  exists s',
    play available tr (pause tp s) = Some s'
    /\ isPlaying s' = true
    /\ currentBeat s' = currentBeat s
    /\ allNotes s' = allNotes s
    /\ totalPausedDuration s' = totalPausedDuration s + (tr - tp)
    /\ forall delta, tickBeat (tr + delta) s' == tickBeat (tp + delta) s.
Proof.
  intros _ Ht Hr.
  destruct (pause_frame tp s (proj1 Hr))
    as (He & Hp1 & Hp2 & Hpt & Htab & Hn & Hb & Htempo & Hst & Htpd).
  unfold play. rewrite Htab, Ht, He.
  rewrite (ready_ensure available _ (stopAllNotes_ready tp _ Hr)).
  cbn [mbind option_bind isPaused set_audioEngine]. rewrite Hp2.
  eexists. split; [reflexivity|].
  set (s1 := set_audioEngine _ (pause tp s)).
  destruct (resume_frame tr s1) as (_ & Hq & _ & Hn' & Hb' & Htempo' & Hst' & Htpd').
  assert (Hs1 : allNotes s1 = allNotes s /\ currentBeat s1 = currentBeat s
                /\ tempo s1 = tempo s /\ startTime s1 = startTime s
                /\ totalPausedDuration s1 = totalPausedDuration s
                /\ pausedTime s1 = tp).
  { unfold s1. cbn [allNotes currentBeat tempo startTime totalPausedDuration
      pausedTime set_audioEngine]. auto 10. }
  destruct Hs1 as (E1 & E2 & E3 & E4 & E5 & E6).
  split; [exact Hq|]. split; [congruence|]. split; [congruence|].
  split; [rewrite Htpd'; congruence|].
  intros delta. apply tickBeat_compat; [|congruence].
  rewrite Hst', Htpd', E4, E5, E6. ring.
Qed.

(** ** The sequencer: looping *)

Lemma due_window cb nd : due cb nd = negb (nd_triggered nd) && inWindow cb nd.
Proof. unfold due, inWindow. now rewrite andb_assoc. Qed.

Lemma inLoopRange_iff a b nd :
  inLoopRange a b nd = true <-> a <= nd_beatPosition nd /\ nd_beatPosition nd < b.
Proof.
  unfold inLoopRange. now rewrite andb_true_iff, Qle_bool_iff, Qltb_lt.
Qed.

(** What [loop] does, field by field. *)
Lemma loop_frame now s :
  currentBeat (loop now s) = (loopStartMeasure s - 1) * 4
  /\ totalPausedDuration (loop now s) = 0
  /\ startTime (loop now s) = now - ((loopStartMeasure s - 1) * 4 * 60 / tempo s)
  /\ tempo (loop now s) = tempo s
  /\ isPlaying (loop now s) = isPlaying s
  /\ isLooping (loop now s) = isLooping s
  /\ tabData (loop now s) = tabData s
  /\ loopStartMeasure (loop now s) = loopStartMeasure s
  /\ loopEndMeasure (loop now s) = loopEndMeasure s
  /\ allNotes (loop now s) =
     map (fun nd => if inLoopRange ((loopStartMeasure s - 1) * 4) (loopEndMeasure s * 4) nd
                    then untrigger nd else nd) (allNotes s).
Proof. repeat split. Qed.

(** Right after a loop reset the transport is on the loop start, and runs
    on from there. *)
Lemma loop_beat now s delta :
  ~ tempo s == 0 ->
  tickBeat (now + delta) (loop now s)
  == (loopStartMeasure s - 1) * 4 + delta / (60 / tempo s).
Proof.
  intros Ht. destruct (loop_frame now s) as (_ & Hp & Hs & Htempo & _).
  unfold tickBeat. rewrite Hp, Hs, Htempo. field. repeat split; (assumption || lra).
Qed.

Lemma loop_entry now s i nd :
  allNotes s !! i = Some nd ->
  allNotes (loop now s) !! i =
  Some (mkNoteData (nd_note nd) (nd_beatPosition nd) (nd_beatDuration nd)
          (if inLoopRange ((loopStartMeasure s - 1) * 4) (loopEndMeasure s * 4) nd
           then false else nd_triggered nd)).
Proof.
  intros H. destruct (loop_frame now s) as (_ & _ & _ & _ & _ & _ & _ & _ & _ & ->).
  rewrite list_lookup_fmap, H. cbn [fmap option_fmap option_map].
  destruct (inLoopRange _ _ nd); [reflexivity | now destruct nd].
Qed.

Lemma tickCore_entry now s i nd :
  allNotes s !! i = Some nd ->
  allNotes (tickCore now s) !! i =
  Some (mkNoteData (nd_note nd) (nd_beatPosition nd) (nd_beatDuration nd)
          (nd_triggered nd || due (tickBeat now s) nd)).
Proof.
  intros H.
  destruct (tickCore_frame now s) as (_ & _ & _ & _ & _ & _ & _ & _ & _ & ->).
  rewrite (triggerNotes_marks _ _ _ _ _ H).
  destruct (due (tickBeat now s) nd) eqn:E.
  - now rewrite orb_true_r.
  - rewrite orb_false_r. now destruct nd.
Qed.

(** A tick that has not reached the loop end only fires and reports. *)
Lemma tick_inside now s tab :
  isPlaying s = true -> tabData s = Some tab -> isLooping s = true ->
  Qltb (tickBeat now s) (loopEndMeasure s * 4) = true ->
  fst (tick now s) = tickCore now s.
Proof.
  intros Hp Ht Hl Hb. rewrite (tick_fst now s Hp), Ht, Hl.
  unfold Qltb in Hb. apply negb_true_iff in Hb. now rewrite Hb.
Qed.

(** A tick that has reached the loop end resets the loop. *)
Lemma tick_reset now s tab :
  isPlaying s = true -> tabData s = Some tab -> isLooping s = true ->
  loopEndMeasure s * 4 <= tickBeat now s ->
  fst (tick now s) = loop now (tickCore now s).
Proof.
  intros Hp Ht Hl Hb. rewrite (tick_fst now s Hp), Ht, Hl.
  apply Qle_bool_iff in Hb. now rewrite Hb.
Qed.

Lemma tickBeat_tickCore t now s : tickBeat t (tickCore now s) = tickBeat t s.
Proof.
  destruct (tickCore_frame now s) as (_ & _ & _ & _ & _ & Hs & Hp & Ht & _).
  unfold tickBeat. now rewrite Hs, Hp, Ht.
Qed.

Lemma forallb_pointwise {A : Type} (f g : A -> bool) (l : list A) :
  (forall x, f x = g x) -> forallb f l = forallb g l.
Proof. intros H. induction l as [|x l IH]; simpl; [reflexivity | now rewrite H, IH]. Qed.

Lemma existsb_pointwise {A : Type} (f g : A -> bool) (l : list A) :
  (forall x, f x = g x) -> existsb f l = existsb g l.
Proof. intros H. induction l as [|x l IH]; simpl; [reflexivity | now rewrite H, IH]. Qed.

Lemma lookup_In {A : Type} (l : list A) i x : l !! i = Some x -> In x l.
Proof.
  revert i. induction l as [|y l IH]; intros [|i] H; simpl in *; try discriminate.
  - left. congruence.
  - right. eauto.
Qed.

Lemma runTicks_cons now times s :
  runTicks (now :: times) s =
  (fst (runTicks times (fst (tick now s))),
   (now, snd (tick now s)) :: snd (runTicks times (fst (tick now s)))).
Proof.
  cbn [runTicks]. destruct (tick now s) as [s1 calls].
  cbn [fst snd]. now destruct (runTicks times s1).
Qed.

Lemma callsOfRun_cons now times s :
  callsOfRun (now :: times) s = snd (tick now s) ++ callsOfRun times (fst (tick now s)).
Proof. unfold callsOfRun. now rewrite runTicks_cons. Qed.

(** The calls of a playing tick are those of its [for] loop. *)
Lemma tick_calls_triggerNotes now s :
  isPlaying s = true ->
  snd (tick now s) = snd (triggerNotes (tickBeat now s) (60 / tempo s) (allNotes s)).
Proof. intros Hp. now rewrite tick_calls, triggerNotes_snd. Qed.

(** One pass of the [for] loop, counted: the notes it calls, together with
    the notes of the entries it leaves unfired (and selected by [P]), are
    the notes of the entries that were unfired and either within the window
    or selected by [P]. *)
Lemma triggerNotes_calls_perm cb bd (P : NoteData -> bool) l :
  Permutation
    (map call_note (snd (triggerNotes cb bd l))
     ++ map nd_note
          (List.filter (fun nd => unfired nd && P nd) (fst (triggerNotes cb bd l))))
    (map nd_note (List.filter (fun nd => unfired nd && (inWindow cb nd || P nd)) l)).
Proof.
  induction l as [|nd l IH]; [constructor|].
  cbn [triggerNotes]. destruct (triggerNotes cb bd l) as [r c]. cbn [fst snd] in IH.
  rewrite due_window. unfold unfired in *. cbn [List.filter].
  destruct (nd_triggered nd) eqn:Et; cbn [negb andb].
  - cbn [fst snd List.filter]. rewrite Et. cbn [negb andb]. exact IH.
  - destruct (inWindow cb nd) eqn:Ew; cbn [orb fst snd map List.filter app].
    + cbn [markTriggered nd_triggered negb andb fire call_note].
      now apply perm_skip.
    + rewrite Et. cbn [negb andb]. destruct (P nd); cbn [map]; [|exact IH].
      apply Permutation_sym, Permutation_cons_app, Permutation_sym, IH.
Qed.

(** Within one loop iteration -- ticks that stay below the loop end -- the
    notes called are those of the entries that were unfired at its start
    and have a tick in their window, each once. *)
Lemma calls_iteration tab times :
  forall s,
    isPlaying s = true -> tabData s = Some tab -> isLooping s = true ->
    forallb (fun t => Qltb (tickBeat t s) (loopEndMeasure s * 4)) times = true ->
    Permutation
      (map call_note (callsOfRun times s))
      (map nd_note
         (List.filter
            (fun nd => unfired nd && existsb (fun t => inWindow (tickBeat t s) nd) times)
            (allNotes s))).
Proof.
  induction times as [|now times IH]; intros s Hp Ht Hl Hall.
  - cbn [existsb callsOfRun runTicks snd map concat].
    rewrite (List.filter_ext _ (fun _ => false)) by (intros nd; apply andb_false_r).
    induction (allNotes s) as [|x l IHl]; [constructor | exact IHl].
  - cbn [forallb] in Hall. apply andb_true_iff in Hall as [Hnow Hrest].
    rewrite callsOfRun_cons, (tick_inside now s tab Hp Ht Hl Hnow), map_app.
    rewrite (tick_calls_triggerNotes now s Hp).
    destruct (tickCore_frame now s) as (Ht' & Hl' & He' & _ & _ & _ & _ & _ & Hp' & Hn').
    assert (Hrest' : forallb (fun t => Qltb (tickBeat t (tickCore now s))
                                         (loopEndMeasure (tickCore now s) * 4)) times = true).
    { rewrite He', <- Hrest. apply forallb_pointwise.
      intros t. now rewrite tickBeat_tickCore. }
    pose proof (IH (tickCore now s) (eq_trans Hp' Hp) (eq_trans Ht' Ht) (eq_trans Hl' Hl)
                  Hrest') as IH'.
    rewrite Hn' in IH'.
    rewrite (List.filter_ext _
               (fun nd => unfired nd && existsb (fun t => inWindow (tickBeat t s) nd) times))
      in IH'.
    2:{ intros nd. f_equal. apply existsb_pointwise. intros t.
        now rewrite tickBeat_tickCore. }
    eapply Permutation_trans; [apply Permutation_app_head; exact IH'|].
    apply (triggerNotes_calls_perm (tickBeat now s) (60 / tempo s)
             (fun nd => existsb (fun t => inWindow (tickBeat t s) nd) times)).
Qed.

(** C5. Let a tick at [now], in a looping playback, compute a beat at or
    past the loop end.  Then the tick resets the loop: [currentBeat] is the
    loop start exactly (and the transport runs on from it), the paused total
    is zero, the entries with a beat in [[loopStart, loopEnd)] are unfired
    and the others keep their flag (set if this very tick has called them,
    which it does only within their window).  In the iteration that
    follows -- ticks [times] that stay below the loop end -- the notes
    passed to [playNote] are, each once, those of the entries that are
    unfired after the reset and have a tick in their window: an entry
    inside the range is called again once a tick falls in its window, and
    no call goes to an entry whose window lies beyond the loop end.  With
    the range [[0, 8)]: a trigger on beat 3 is called once per iteration, a
    trigger on beat 9 never. *)
Theorem loop_reset_refires now s tab times :
  isPlaying s = true -> tabData s = Some tab -> isLooping s = true ->
  ~ tempo s == 0 ->
  loopEndMeasure s * 4 <= tickBeat now s ->
  let s' := fst (tick now s) in
  let loopStartBeat := (loopStartMeasure s - 1) * 4 in
  let loopEndBeat := loopEndMeasure s * 4 in
  forallb (fun t => Qltb (tickBeat t s') loopEndBeat) times = true ->
  currentBeat s' = loopStartBeat
  /\ totalPausedDuration s' = 0
  /\ (forall delta, tickBeat (now + delta) s' == loopStartBeat + delta / (60 / tempo s))
  /\ length (allNotes s') = length (allNotes s)
  /\ (forall i nd,
        allNotes s !! i = Some nd ->
        exists fired,
          allNotes s' !! i =
          Some (mkNoteData (nd_note nd) (nd_beatPosition nd) (nd_beatDuration nd) fired)
          /\ (loopStartBeat <= nd_beatPosition nd < loopEndBeat -> fired = false)
          /\ (~ loopStartBeat <= nd_beatPosition nd < loopEndBeat ->
              (fired = true <->
               nd_triggered nd = true
               \/ nd_beatPosition nd - lookahead <= tickBeat now s
                                                <= nd_beatPosition nd + lookahead)))
  /\ (forall c,
        In c (snd (tick now s)) ->
        exists nd,
          In nd (allNotes s) /\ nd_triggered nd = false /\ call_note c = nd_note nd
          /\ nd_beatPosition nd - lookahead <= tickBeat now s
                                           <= nd_beatPosition nd + lookahead)
  /\ Permutation
       (map call_note (callsOfRun times s'))
       (map nd_note
          (List.filter
             (fun nd => unfired nd && existsb (fun t => inWindow (tickBeat t s') nd) times)
             (allNotes s')))
  /\ (forall i nd t,
        allNotes s !! i = Some nd ->
        loopStartBeat <= nd_beatPosition nd < loopEndBeat ->
        In t times ->
        nd_beatPosition nd - lookahead <= tickBeat t s' <= nd_beatPosition nd + lookahead ->
        In (nd_note nd) (map call_note (callsOfRun times s')))
  /\ (forall c,
        In c (callsOfRun times s') ->
        exists nd t,
          In nd (allNotes s') /\ nd_triggered nd = false /\ call_note c = nd_note nd
          /\ In t times
          /\ nd_beatPosition nd - lookahead <= tickBeat t s'
                                           <= nd_beatPosition nd + lookahead
          /\ nd_beatPosition nd - lookahead < loopEndBeat).
Proof.
  intros Hp Ht Hl Htempo Hend s' lsb leb Hall.
  assert (Hs' : s' = loop now (tickCore now s)) by (apply (tick_reset now s tab); assumption).
  destruct (tickCore_frame now s)
    as (Ht' & Hl' & He' & Hsm' & _ & _ & _ & Htempo' & Hp' & Hn').
  destruct (loop_frame now (tickCore now s))
    as (Hcb & Hpd & _ & Htempo2 & Hp2 & Hl2 & Ht2 & _ & He2 & Hn2).
  assert (Hle : loopEndMeasure s' = loopEndMeasure s) by (rewrite Hs', He2, He'; reflexivity).
  assert (Hentry : forall i nd,
             allNotes s !! i = Some nd ->
             allNotes s' !! i =
             Some (mkNoteData (nd_note nd) (nd_beatPosition nd) (nd_beatDuration nd)
                     (if inLoopRange lsb leb nd then false
                      else nd_triggered nd || due (tickBeat now s) nd))).
  { intros i nd Hi. rewrite Hs'.
    rewrite (loop_entry now _ i _ (tickCore_entry now s i nd Hi)).
    rewrite Hsm', He'. reflexivity. }
  assert (Hperm : Permutation
            (map call_note (callsOfRun times s'))
            (map nd_note
               (List.filter
                  (fun nd => unfired nd
                             && existsb (fun t => inWindow (tickBeat t s') nd) times)
                  (allNotes s')))).
  { apply (calls_iteration tab).
    - rewrite Hs', Hp2, Hp'. exact Hp.
    - rewrite Hs', Ht2, Ht'. exact Ht.
    - rewrite Hs', Hl2, Hl'. exact Hl.
    - rewrite Hle. exact Hall. }
  split; [rewrite Hs', Hcb, Hsm'; reflexivity|].
  split; [rewrite Hs'; exact Hpd|].
  split.
  { intros delta. rewrite Hs', loop_beat by (rewrite Htempo'; exact Htempo).
    rewrite Hsm', Htempo'. reflexivity. }
  split.
  { rewrite Hs', Hn2, length_map, Hn', triggerNotes_fst. apply length_map. }
  split.
  { intros i nd Hi. eexists. split; [exact (Hentry i nd Hi)|]. split.
    - intros Hin. apply inLoopRange_iff in Hin. fold lsb leb in Hin. now rewrite Hin.
    - intros Hout.
      assert (Hno : inLoopRange lsb leb nd = false).
      { apply not_true_iff_false. intros Hin. apply inLoopRange_iff in Hin. tauto. }
      rewrite Hno, orb_true_iff, due_iff. split.
      + intros [H | (_ & H1 & H2)]; [now left | right; split; assumption].
      + intros [H | [H1 H2]]; [now left|].
        destruct (nd_triggered nd); [now left | right; auto]. }
  split.
  { intros c Hc. rewrite (tick_calls now s Hp) in Hc.
    apply in_map_iff in Hc as (nd & <- & Hin).
    apply filter_In in Hin as [Hin Hd]. apply due_iff in Hd as (Hf & H1 & H2).
    exists nd. repeat split; assumption. }
  split; [exact Hperm|].
  split.
  - intros i nd t Hi Hrange Hin [H1 H2].
    pose proof (Hentry i nd Hi) as He.
    assert (Hr : inLoopRange lsb leb nd = true) by (apply inLoopRange_iff; exact Hrange).
    rewrite Hr in He.
    apply (Permutation_in _ (Permutation_sym Hperm)).
    apply in_map_iff. eexists. split; [|apply filter_In; split; [exact (lookup_In _ _ _ He)|]].
    + reflexivity.
    + cbn [unfired nd_triggered negb andb]. apply existsb_exists. exists t.
      split; [exact Hin|]. unfold inWindow. cbn [nd_beatPosition].
      apply andb_true_iff. split; now apply Qle_bool_iff.
  - intros c Hc.
    assert (Hn : In (call_note c) (map call_note (callsOfRun times s'))) by now apply in_map.
    apply (Permutation_in _ Hperm) in Hn.
    apply in_map_iff in Hn as (nd & Hnote & Hin).
    apply filter_In in Hin as [Hin Hsel].
    apply andb_true_iff in Hsel as [Hun Hex].
    apply existsb_exists in Hex as (t & Hint & Hw).
    unfold inWindow in Hw. apply andb_true_iff in Hw as [H1 H2].
    apply Qle_bool_iff in H1, H2.
    rewrite forallb_forall in Hall. specialize (Hall t Hint). apply Qltb_lt in Hall.
    exists nd, t. split; [exact Hin|]. split; [now apply negb_true_iff in Hun|].
    split; [now symmetry|]. split; [exact Hint|]. split; [split; assumption|].
    subst leb. lra.
Qed.

(** ** Invariants of the reachable states *)

Lemma engine_wf_same (e e' : GuitarAudioEngine) :
  isInitialized e' = isInitialized e -> audioContext e' = audioContext e ->
  (is_Some (masterGain e) -> is_Some (masterGain e')) ->
  engine_wf e -> engine_wf e'.
Proof.
  intros Hi Hc Hg Hwf H. rewrite Hi in H. destruct (Hwf H) as (H1 & H2 & H3).
  repeat split; [now rewrite Hc | now rewrite Hi | now apply Hg].
Qed.

Lemma stopAllNotes_wf t e : engine_wf e -> engine_wf (stopAllNotes t e).
Proof.
  apply engine_wf_same; unfold stopAllNotes; destruct (audioContext e) eqn:E;
    simpl; auto.
  intros [g ->]. simpl. eauto.
Qed.

Lemma ensureAudioContext_wf available e e' :
  engine_wf e -> ensureAudioContext available e = Some e' -> engine_wf e'.
Proof.
  intros Hwf. unfold ensureAudioContext, initialize.
  destruct (isInitialized e); [now intros [= <-]|].
  destruct available; [|discriminate].
  intros [= <-] _. repeat split. simpl. eauto.
Qed.

Lemma stop_frame now s :
  audioEngine (stop now s) = stopAllNotes now (audioEngine s)
  /\ tempo (stop now s) = tempo s.
Proof.
  unfold stop, reportProgress. simpl. destruct (onProgressCallback s); auto.
Qed.

Lemma reportComplete_frame s :
  audioEngine (reportComplete s) = audioEngine s /\ tempo (reportComplete s) = tempo s.
Proof. unfold reportComplete. destruct (onCompleteCallback s); auto. Qed.

Lemma tickCore_engine now s : audioEngine (tickCore now s) = audioEngine s.
Proof.
  unfold tickCore, reportProgress. simpl. now destruct (onProgressCallback s).
Qed.

Lemma tick_invariant now s (P : GuitarAudioEngine -> Prop) :
  (forall t e, P e -> P (stopAllNotes t e)) ->
  P (audioEngine s) ->
  P (audioEngine (fst (tick now s))) /\ tempo (fst (tick now s)) = tempo s.
Proof.
  intros Hstop HP. destruct (isPlaying s) eqn:Hp.
  - rewrite (tick_fst now s Hp).
    pose proof (tickCore_engine now s) as He.
    destruct (tickCore_frame now s) as (_ & _ & _ & _ & _ & _ & _ & Ht & _).
    destruct (tabData s); [|rewrite He; auto].
    destruct (isLooping s && _).
    { destruct (loop_frame now (tickCore now s)) as (_ & _ & _ & Ht2 & _).
      rewrite Ht2, Ht. split; [|reflexivity].
      change (audioEngine (loop now (tickCore now s)))
        with (audioEngine (tickCore now s)). now rewrite He. }
    destruct (negb (isLooping s) && _); [|rewrite He; auto].
    destruct (reportComplete_frame (stop now (tickCore now s))) as [-> ->].
    destruct (stop_frame now (tickCore now s)) as [-> ->].
    rewrite He, Ht. auto.
  - rewrite tick_not_playing by exact Hp. auto.
Qed.

Section Reachable.

Variable midiFrequency : Z -> Q.

Lemma playSimpleGuitarNote_wf midiNote st d stringIndex e e' :
  engine_wf e ->
  playSimpleGuitarNote midiFrequency midiNote st d stringIndex e = Some e' ->
  engine_wf e'.
Proof.
  intros Hwf H.
  destruct (audioContext e) eqn:Hc;
    [|unfold playSimpleGuitarNote in H; rewrite Hc in H; discriminate].
  destruct (jsIndex stringCharacteristics stringIndex) as [sc|] eqn:Hsc;
    [|unfold playSimpleGuitarNote in H; rewrite Hc, Hsc in H; discriminate].
  destruct (masterGain e) as [g|] eqn:Hg;
    [|unfold playSimpleGuitarNote in H; rewrite Hc, Hsc, Hg in H; discriminate].
  rewrite (playSimpleGuitarNote_eq midiFrequency midiNote st d stringIndex sc e Hc)
    in H by (rewrite ?Hg; eauto).
  injection H as <-. intros Hi. cbn [isInitialized] in Hi.
  repeat split; [exact Hi | cbn [masterGain]; rewrite Hg; eauto].
Qed.

Lemma playNote_wf available note st d now e e' :
  engine_wf e ->
  playNote midiFrequency available note st d now e = Some e' -> engine_wf e'.
Proof.
  intros Hwf H. unfold playNote in H.
  destruct (ensureAudioContext available e) as [e1|] eqn:He; [|discriminate].
  cbn [mbind option_bind] in H.
  pose proof (ensureAudioContext_wf _ _ _ Hwf He) as Hwf1.
  destruct (noteEventToMidiNote note <? 0)%Z.
  - now injection H as <-.
  - now apply (playSimpleGuitarNote_wf _ _ _ _ _ _ Hwf1 H).
Qed.

(** In every reachable state the engine is initialised only together with
    its context and master gain, and the tempo is not zero. *)
Lemma reachable_invariant s :
  reachable midiFrequency s -> engine_wf (audioEngine s) /\ ~ tempo s == 0.
Proof.
  induction 1 as [ | tab s _ [IH1 IH2] | bpm s _ [IH1 IH2] | en s _ IH | a b s _ IH
                 | s _ IH | s _ IH | available now s s' _ [IH1 IH2] Hplay
                 | now s _ [IH1 IH2] | now s _ [IH1 IH2] | now s _ [IH1 IH2]
                 | available note st d now s e' _ [IH1 IH2] Hplay
                 | now s _ [IH1 IH2] | volume now s _ [IH1 IH2]
                 | id s _ [IH1 IH2] | key s _ [IH1 IH2] | m s _ [IH1 IH2] ];
    try exact IH.
  - split; [intros H; discriminate H | cbn; lra].
  - split; [|now apply setTabData_tempo_nonzero].
    unfold setTabData. now destruct (truthy _).
  - split; [exact IH1 | apply setTempo_tempo_nonzero].
  - unfold play in Hplay. destruct (tabData s); [|now injection Hplay as <-].
    destruct (ensureAudioContext available (audioEngine s)) as [e1|] eqn:He;
      [|discriminate].
    cbn [mbind option_bind] in Hplay. injection Hplay as <-.
    pose proof (setMasterVolume_wf (3 # 10) now e1
                  (ensureAudioContext_wf _ _ _ IH1 He)) as Hwf.
    cbn [isPaused set_audioEngine]. destruct (isPaused s).
    + auto.
    + unfold startFreshPlayback, startRealtimePlayback, prepareNotes. simpl.
      destruct (tabData s); auto.
  - unfold pause. cbn [audioEngine set_flags].
    destruct (audioContext (audioEngine s)); cbn [negb]; [|auto].
    split; [now apply stopAllNotes_wf | exact IH2].
  - destruct (stop_frame now s) as [-> ->]. split; [now apply stopAllNotes_wf | exact IH2].
  - destruct (tick_invariant now s engine_wf stopAllNotes_wf IH1) as [H1 ->]. auto.
  - split; [now apply (playNote_wf _ _ _ _ _ _ _ IH1 Hplay) | exact IH2].
  - split; [now apply stopAllNotes_wf | exact IH2].
  - split; [now apply setMasterVolume_wf | exact IH2].
  - auto.
  - auto.
  - auto.
Qed.

End Reachable.

(** * The properties at sample inputs *)

Lemma engine0_ready : ready engine0.
Proof. repeat split. simpl. eauto. Defined.

(** In [engineScheduled] the six oscillators of a note are to start at
    10 s; [stopAllNotes] at 5 s leaves none of them sounding later on, and
    the gain of the voice at zero. *)
Lemma stopAllNotes_silences_registered_witness :
  audioContext engineScheduled = true
  /\ activeOscillators engineScheduled = [0; 1; 2; 3; 4; 5]%nat
  /\ (forall id o,
        In id (activeOscillators engineScheduled) ->
        oscillators engineScheduled !! id = Some o ->
        exists o', oscillators (stopAllNotes 5 engineScheduled) !! id = Some o'
                   /\ forall tau, 5 <= tau -> sounding o' tau = false)
  /\ (forall k vid v,
        In (k, vid) (activeVoices engineScheduled) ->
        voices engineScheduled !! vid = Some v ->
        exists v', voices (stopAllNotes 5 engineScheduled) !! vid = Some v'
                   /\ forall tau, 5 <= tau -> valueAt (v_stoppableGain v') tau = Some 0).
Proof.
  split; [reflexivity|]. split; [reflexivity|].
  destruct (stopAllNotes_silences_registered 5 engineScheduled eq_refl)
    as (Hosc & Hvoice & _).
  split.
  - intros id o Hin Ho. destruct (Hosc id o Hin Ho) as (o' & H1 & _ & _ & H2). eauto.
  - exact Hvoice.
Defined.

Example scheduled_note_never_starts :
  (osc_start <$> oscillators engineScheduled !! 0%nat) = Some (Some 10)
  /\ (osc_stop <$> oscillators (stopAllNotes 5 engineScheduled) !! 0%nat) = Some (Some 5).
Proof. split; reflexivity. Qed.

(** C8, as stated, fails on [engine0]: after [stopAllNotes] at 1 s, the
    note played at 2 s reaches the destination through a gain of 0.0001 at
    2.5 s; without the cancellation the same call gives 0.3. *)
Lemma cancellation_mutes_later_playNote :
  playNote sampleFrequency true noteE4 0 1 2 (stopAllNotes 1 engine0)
    = Some engineAfterCancel
  /\ playNote sampleFrequency true noteE4 0 1 2 engine0 = Some engineNoCancel
  /\ outputGainAt engineAfterCancel 0 (5 # 2) = Some (1 # 10000)
  /\ outputGainAt engineNoCancel 0 (5 # 2) = Some (3 # 10)
  /\ ~ (1 # 10000) == (3 # 10).
Proof.
  split; [vm_compute; reflexivity|]. split; [vm_compute; reflexivity|].
  split; [vm_compute; reflexivity|]. split; [vm_compute; reflexivity|].
  intros H. discriminate H.
Qed.

Lemma playNote_after_stopAllNotes_witness :
  ready engine0
  /\ (0 <= noteEventToMidiNote noteE4)%Z
  /\ exists e2 g,
       playNote sampleFrequency true noteE4 0 1 2 (stopAllNotes 1 engine0) = Some e2
       /\ activeVoices e2 = [(NoteId 64 (2 + 0), 0%nat)]
       /\ masterGain e2 = Some g
       /\ valueAt g (5 # 2) = Some (1 # 10000).
Proof.
  split; [exact engine0_ready|]. split; [vm_compute; discriminate|].
  destruct (playNote_after_stopAllNotes sampleFrequency true noteE4 0 1 1 2 engine0
              engine0_ready)
    as (e2 & v & Hplay & _ & Hreg & _ & _ & (g & Hg & Hv) & _).
  { vm_compute; discriminate. }
  exists e2, g. split; [exact Hplay|]. split; [exact Hreg|]. split; [exact Hg|].
  apply Hv. vm_compute; discriminate.
Defined.

(** The first note on a new engine, on the (wound) D string: the engine is
    initialised, and the three upper harmonics are damped. *)
Lemma playNote_harmonic_bank_witness :
  engine_wf newEngine
  /\ (0 <= noteEventToMidiNote (mkNote 3 2 0 1 None))%Z
  /\ exists e' v,
       playNote sampleFrequency true (mkNote 3 2 0 1 None) 0 1 0 newEngine = Some e'
       /\ voices e' !! 0%nat = Some v
       /\ harmonicBank e' v =
          [ (Some (sampleFrequency 52), 1);
            (Some (sampleFrequency 52 * 2), 6 # 10);
            (Some (sampleFrequency 52 * 3), (3 # 10) * (7 # 10));
            (Some (sampleFrequency 52 * 4), (15 # 100) * (7 # 10));
            (Some (sampleFrequency 52 * 5), (1 # 10) * (7 # 10)) ].
Proof.
  assert (Hwf : engine_wf newEngine) by (intros H; discriminate H).
  split; [exact Hwf|]. split; [vm_compute; discriminate|].
  destruct (playNote_harmonic_bank sampleFrequency true (mkNote 3 2 0 1 None) 0 1 0
              newEngine Hwf (or_introl eq_refl))
    as (e' & v & Hplay & Hv & _ & Hbank).
  { vm_compute; discriminate. }
  exists e', v. split; [exact Hplay|]. split; [exact Hv|]. exact Hbank.
Defined.

(** Pausing [playingBeatOne] at 0.2 s and resuming at 10 s. *)
Lemma pause_resume_continuity_witness :
  isPlaying playingBeatOne = true
  /\ tabData playingBeatOne = Some tabBeatOne
  /\ ready (audioEngine playingBeatOne)
  /\ exists s',
       play true 10 (pause (2 # 10) playingBeatOne) = Some s'
       /\ currentBeat s' = currentBeat playingBeatOne
       /\ allNotes s' = allNotes playingBeatOne
       /\ tickBeat (10 + 0) s' == tickBeat ((2 # 10) + 0) playingBeatOne.
Proof.
  assert (Hr : ready (audioEngine playingBeatOne)).
  { repeat split. simpl. eauto. }
  split; [reflexivity|]. split; [reflexivity|]. split; [exact Hr|].
  destruct (pause_resume_continuity true (2 # 10) 10 playingBeatOne tabBeatOne
              eq_refl eq_refl Hr)
    as (s' & Hplay & _ & Hb & Hn & _ & Hc).
  exists s'. split; [exact Hplay|]. split; [exact Hb|]. split; [exact Hn|].
  apply Hc.
Defined.

(** The first [play] on a fresh engine, and a [play] after a mute. *)
Lemma play_sets_master_volume_witness :
  tabData (setTabData tabBeatOne (newSequencer newEngine)) = Some tabBeatOne
  /\ engine_wf newEngine
  /\ (exists s' g,
        play true 0 (setTabData tabBeatOne (newSequencer newEngine)) = Some s'
        /\ masterGain (audioEngine s') = Some g
        /\ valueAt g 1 = Some (3 # 10)).
Proof.
  assert (Hwf : engine_wf newEngine) by (intros H; discriminate H).
  split; [reflexivity|]. split; [exact Hwf|].
  destruct (play_sets_master_volume true 0
              (setTabData tabBeatOne (newSequencer newEngine)) tabBeatOne
              eq_refl Hwf (or_introl eq_refl))
    as ((s' & g & Hplay & _ & Hg & Hv) & _).
  exists s', g. split; [exact Hplay|]. split; [exact Hg|].
  apply Hv. vm_compute; discriminate.
Defined.

Example play_after_mute :
  let s := setTabData tabBeatOne (newSequencer engine0) in
  let muted := set_audioEngine (setMasterVolume 0 0 (audioEngine s)) s in
  (exists g, masterGain (audioEngine muted) = Some g /\ valueAt g 1 = Some 0)
  /\ (exists s' g, play true 1 muted = Some s'
        /\ masterGain (audioEngine s') = Some g /\ valueAt g 2 = Some (3 # 10)).
Proof.
  cbv zeta. split.
  - eexists. split; reflexivity.
  - eexists. eexists. split; [reflexivity|]. split; reflexivity.
Qed.

(** [loopBoundary] is [loopingPlayback] just before its first loop end; the
    tick at 4 s resets the loop, and the iteration that follows issues one
    call, for the trigger on beat 3; the trigger on beat 9 is not called. *)
Lemma loop_reset_refires_witness :
  isPlaying loopBoundary = true
  /\ tabData loopBoundary = Some tabLoop
  /\ isLooping loopBoundary = true
  /\ loopEndMeasure loopBoundary * 4 <= tickBeat 4 loopBoundary
  /\ (map nd_beatPosition (allNotes loopBoundary) = [3; 9]
      /\ map nd_triggered (allNotes loopBoundary) = [true; false])
  /\ currentBeat (fst (tick 4 loopBoundary)) == 0
  /\ map nd_triggered (allNotes (fst (tick 4 loopBoundary))) = [false; false]
  /\ map call_note (callsOfRun (tickTimes 401 399) (fst (tick 4 loopBoundary)))
     = [mkNote 0 0 3 1 (Some 3)]
  /\ Permutation
       (map call_note (callsOfRun (tickTimes 401 399) (fst (tick 4 loopBoundary))))
       (map nd_note
          (List.filter
             (fun nd =>
                unfired nd
                && existsb (fun t => inWindow (tickBeat t (fst (tick 4 loopBoundary))) nd)
                     (tickTimes 401 399))
             (allNotes (fst (tick 4 loopBoundary))))).
Proof.
  assert (H1 : isPlaying loopBoundary = true) by (vm_compute; reflexivity).
  assert (H2 : tabData loopBoundary = Some tabLoop) by (vm_compute; reflexivity).
  assert (H3 : isLooping loopBoundary = true) by (vm_compute; reflexivity).
  assert (H4 : ~ tempo loopBoundary == 0).
  { intros H. vm_compute in H. discriminate H. }
  assert (H5 : loopEndMeasure loopBoundary * 4 <= tickBeat 4 loopBoundary).
  { apply Qle_bool_iff. vm_compute. reflexivity. }
  assert (H6 : forallb (fun t => Qltb (tickBeat t (fst (tick 4 loopBoundary)))
                                   (loopEndMeasure loopBoundary * 4))
                 (tickTimes 401 399) = true) by (vm_compute; reflexivity).
  pose proof (loop_reset_refires 4 loopBoundary tabLoop (tickTimes 401 399)
                H1 H2 H3 H4 H5 H6) as (Hcb & _ & _ & _ & _ & _ & Hperm & _).
  split; [exact H1|]. split; [exact H2|]. split; [exact H3|]. split; [exact H5|].
  split; [split; vm_compute; reflexivity|].
  split; [rewrite Hcb; vm_compute; reflexivity|].
  split; [vm_compute; reflexivity|].
  split; [vm_compute; reflexivity | exact Hperm].
Defined.

(** Thirteen seconds of [loopingPlayback] in ticks of 10 ms: three
    iterations of the loop over beats [[0, 8)].  The only calls are for the
    trigger on beat 3, one per iteration, by the ticks at 1.48 s, 5.48 s and
    9.48 s. *)
Example loop_run_three_iterations :
  map (fun entry => (Qred (fst entry), map (fun c => globalBeatPosition (call_note c)) (snd entry)))
      (List.filter (fun entry => negb (Nat.eqb (length (snd entry)) 0))
         (snd (runTicks (tickTimes 1 1300) loopingPlayback)))
  = [ (37 # 25, [Some 3]); (137 # 25, [Some 3]); (237 # 25, [Some 3]) ].
Proof. vm_compute. reflexivity. Qed.

(** * Further properties of the sequencer *)

Lemma Math_max_compat_r (a b b' : Q) : b == b' -> Math_max a b == Math_max a b'.
Proof.
  intros H. unfold Math_max.
  destruct (Qle_bool a b) eqn:E1; destruct (Qle_bool a b') eqn:E2;
    try (apply Qle_bool_iff in E1); try (apply Qle_bool_iff in E2);
    try (apply not_true_iff_false in E1; rewrite Qle_bool_iff in E1);
    try (apply not_true_iff_false in E2; rewrite Qle_bool_iff in E2);
    lra.
Qed.

Lemma Math_max_mono_r (a b b' : Q) : b <= b' -> Math_max a b <= Math_max a b'.
Proof.
  intros H.
  destruct (Math_max_spec a b) as (H1 & H2 & [-> | ->]);
    destruct (Math_max_spec a b') as (H3 & H4 & _); lra.
Qed.

Lemma beatDuration_pos s : 0 < tempo s -> 0 < 60 / tempo s.
Proof.
  intros H. unfold Qdiv. apply Qmult_lt_0_compat; [lra|]. now apply Qinv_lt_0_compat.
Qed.

(** X1. Every call that a tick issues is for an unfired entry of [allNotes];
    with a positive tempo its start offset lies between 0 and the time of
    0.05 beats, and its duration is the duration of the entry in seconds:
    the tick never schedules a note in the past, nor further ahead than its
    window. *)
Theorem tick_call_bounds now s c :
  isPlaying s = true -> 0 < tempo s -> In c (snd (tick now s)) ->
  0 <= call_startTime c <= lookahead * (60 / tempo s)
  /\ exists nd,
       In nd (allNotes s)
       /\ nd_triggered nd = false
       /\ call_note c = nd_note nd
       /\ call_duration c = nd_beatDuration nd * (60 / tempo s).
Proof.
  intros Hp Ht Hin. rewrite tick_calls in Hin by exact Hp.
  apply in_map_iff in Hin as (nd & <- & Hnd).
  apply filter_In in Hnd as [Hnd Hdue].
  apply due_iff in Hdue as (Hf & Hlo & Hhi).
  pose proof (beatDuration_pos s Ht) as Hbd.
  split.
  - cbn [fire call_startTime].
    destruct (Math_max_spec 0 ((nd_beatPosition nd - tickBeat now s) * (60 / tempo s)))
      as (H0 & _ & Hc).
    split; [exact H0|].
    destruct Hc as [Hc | Hc]; rewrite Hc.
    + apply Qmult_le_0_compat; [unfold lookahead; lra | lra].
    + apply Qmult_le_compat_r; [lra | lra].
  - exists nd. repeat split; assumption.
Qed.

Lemma map_beats_preserved (f : NoteData -> NoteData) (l : list NoteData) :
  (forall nd, nd_beatPosition (f nd) = nd_beatPosition nd) ->
  map nd_beatPosition (map f l) = map nd_beatPosition l.
Proof.
  intros H. rewrite map_map. apply map_ext. exact H.
Qed.

Lemma tickCore_beats now s :
  map nd_beatPosition (allNotes (tickCore now s)) = map nd_beatPosition (allNotes s).
Proof.
  destruct (tickCore_frame now s) as (_ & _ & _ & _ & _ & _ & _ & _ & _ & ->).
  rewrite triggerNotes_fst. apply map_beats_preserved.
  intros nd. now destruct (due _ nd).
Qed.

Lemma stop_allNotes now s : allNotes (reportComplete (stop now s)) = allNotes s.
Proof.
  unfold reportComplete, stop, reportProgress. simpl.
  destruct (onProgressCallback s); simpl; destruct (onCompleteCallback s); reflexivity.
Qed.

(** A tick never changes the beat of an entry, nor the number of entries. *)
Lemma tick_beats now s :
  map nd_beatPosition (allNotes (fst (tick now s))) = map nd_beatPosition (allNotes s).
Proof.
  destruct (isPlaying s) eqn:Hp; [|now rewrite tick_not_playing].
  rewrite (tick_fst now s Hp).
  destruct (tabData s); [|apply tickCore_beats].
  destruct (isLooping s && _).
  - destruct (loop_frame now (tickCore now s)) as (_ & _ & _ & _ & _ & _ & _ & _ & _ & ->).
    rewrite map_beats_preserved; [apply tickCore_beats|].
    intros nd. now destruct (inLoopRange _ _ nd).
  - destruct (negb (isLooping s) && _); [|apply tickCore_beats].
    rewrite stop_allNotes. apply tickCore_beats.
Qed.

Lemma sortNotes_sortedBeats l : sortedBeats (sortNotes l).
Proof.
  unfold sortedBeats. induction (sortNotes_sorted l) as [|x r Hr IH Hx]; simpl.
  - constructor.
  - constructor; [exact IH|]. apply Forall_map. exact Hx.
Qed.

Lemma sortedBeats_filter (f : NoteData -> bool) l :
  sortedBeats l -> sortedBeats (List.filter f l).
Proof.
  unfold sortedBeats. induction l as [|x l IH]; simpl; [auto|].
  intros H. inversion H as [|? ? Hl Hx]; subst.
  destruct (f x); simpl; [|auto].
  constructor; [auto|].
  rewrite Forall_map in *. rewrite Forall_forall in *.
  intros y Hy. apply Hx. apply list_elem_of_In in Hy. apply list_elem_of_In.
  apply filter_In in Hy. tauto.
Qed.

Section Order.

Variable midiFrequency : Z -> Q.

(** The list of triggers of a reachable sequencer is in ascending order of
    beat: [prepareNotes] sorts it and nothing moves an entry afterwards. *)
Lemma reachable_sortedBeats s :
  reachable midiFrequency s -> sortedBeats (allNotes s).
Proof.
  induction 1 as [ | tab s _ IH | bpm s _ IH | en s _ IH | a b s _ IH
                 | s _ IH | s _ IH | available now s s' _ IH Hplay
                 | now s _ IH | now s _ IH | now s _ IH
                 | available note st d now s e' _ IH Hplay
                 | now s _ IH | volume now s _ IH
                 | id s _ IH | key s _ IH | m s _ IH ];
    try exact IH.
  - constructor.
  - unfold setTabData. now destruct (truthy _).
  - unfold play in Hplay. destruct (tabData s) as [tab|] eqn:Ht;
      [|now injection Hplay as <-].
    destruct (ensureAudioContext available (audioEngine s)) as [e1|]; [|discriminate].
    cbn [mbind option_bind] in Hplay. injection Hplay as <-.
    cbn [isPaused set_audioEngine]. destruct (isPaused s); [exact IH|].
    unfold startFreshPlayback, startRealtimePlayback, prepareNotes. simpl.
    rewrite Ht. simpl. apply sortNotes_sortedBeats.
  - unfold pause. cbn [audioEngine set_flags].
    now destruct (audioContext (audioEngine s)).
  - unfold stop, reportProgress. simpl. now destruct (onProgressCallback s).
  - unfold sortedBeats. rewrite tick_beats. exact IH.
Qed.

(** X2. The calls of one tick come in ascending order of beat; with a positive
    tempo their start offsets are in ascending order too. *)
Theorem tick_calls_in_beat_order now s :
  reachable midiFrequency s -> isPlaying s = true -> 0 < tempo s ->
  StronglySorted Qle (map call_startTime (snd (tick now s))).
Proof.
  intros Hr Hp Ht. rewrite tick_calls by exact Hp. rewrite map_map.
  pose proof (sortedBeats_filter (due (tickBeat now s)) _ (reachable_sortedBeats s Hr))
    as Hs.
  pose proof (beatDuration_pos s Ht) as Hbd.
  unfold sortedBeats in Hs.
  induction (List.filter (due (tickBeat now s)) (allNotes s)) as [|x l IH]; simpl.
  - constructor.
  - inversion Hs as [|? ? Hl Hx]; subst.
    constructor; [now apply IH|].
    rewrite Forall_map in *. eapply Forall_impl; [exact Hx|].
    intros y Hy. unfold compose in *. cbn [fire call_startTime] in *.
    apply Math_max_mono_r. apply Qmult_le_compat_r; lra.
Qed.

End Order.

(** While looping is off, a tick keeps looping off, and the notes it
    calls, together with the notes of the entries it leaves unfired, are
    the notes of the entries that were unfired before it. *)
Lemma tick_nonloop_calls now s :
  isLooping s = false ->
  isLooping (fst (tick now s)) = false
  /\ Permutation
       (map call_note (snd (tick now s))
        ++ map nd_note (List.filter unfired (allNotes (fst (tick now s)))))
       (map nd_note (List.filter unfired (allNotes s))).
Proof.
  intros Hl. destruct (isPlaying s) eqn:Hp.
  2:{ rewrite tick_not_playing by exact Hp. now split. }
  assert (Hcore : Permutation
            (map call_note (snd (tick now s))
             ++ map nd_note (List.filter unfired (allNotes (tickCore now s))))
            (map nd_note (List.filter unfired (allNotes s)))).
  { destruct (tickCore_frame now s) as (_ & _ & _ & _ & _ & _ & _ & _ & _ & ->).
    rewrite (tick_calls_triggerNotes now s Hp).
    pose proof (triggerNotes_calls_perm (tickBeat now s) (60 / tempo s)
                  (fun _ => true) (allNotes s)) as H.
    rewrite (List.filter_ext (fun nd => unfired nd && true) unfired) in H
      by (intros nd; apply andb_true_r).
    rewrite (List.filter_ext
               (fun nd => unfired nd && (inWindow (tickBeat now s) nd || true)) unfired) in H
      by (intros nd; now rewrite orb_true_r, andb_true_r).
    exact H. }
  rewrite (tick_fst now s Hp), Hl. cbn [andb negb].
  destruct (tickCore_frame now s) as (_ & Hl' & _).
  destruct (tabData s); [|split; [now rewrite Hl', Hl | exact Hcore]].
  destruct (Qle_bool 1 (tickProgress now s)); [|split; [now rewrite Hl', Hl | exact Hcore]].
  rewrite stop_allNotes. split; [|exact Hcore].
  unfold reportComplete, stop, reportProgress. simpl.
  destruct (onProgressCallback (tickCore now s)); simpl;
    destruct (onCompleteCallback (tickCore now s)); simpl; now rewrite Hl', Hl.
Qed.

(** X3. While looping is off, a run of ticks calls [playNote] at most once for
    any entry, whatever the clock times of the ticks: the notes passed to
    [playNote] during the run, together with the notes of the entries that
    are still unfired after it, are exactly the notes of the entries that
    were unfired before it.  So an unfired entry is called once or not at
    all, a fired one never, and the run issues no more calls than there
    were unfired entries. *)
Theorem fires_at_most_once_without_loop times s :
  isLooping s = false ->
  Permutation
    (map call_note (callsOfRun times s)
     ++ map nd_note (List.filter unfired (allNotes (fst (runTicks times s)))))
    (map nd_note (List.filter unfired (allNotes s)))
  /\ (length (callsOfRun times s) <= length (List.filter unfired (allNotes s)))%nat.
Proof.
  intros Hl.
  assert (H : Permutation
            (map call_note (callsOfRun times s)
             ++ map nd_note (List.filter unfired (allNotes (fst (runTicks times s)))))
            (map nd_note (List.filter unfired (allNotes s)))).
  { revert s Hl. induction times as [|now times IH]; intros s Hl.
    - apply Permutation_refl.
    - destruct (tick_nonloop_calls now s Hl) as [Hl' Hstep].
      rewrite callsOfRun_cons, runTicks_cons, map_app, <- app_assoc. cbn [fst].
      eapply Permutation_trans; [|exact Hstep].
      apply Permutation_app_head. apply IH. exact Hl'. }
  split; [exact H|].
  apply Permutation_length in H.
  rewrite length_app, !length_map in H. lia.
Qed.

Lemma stop_fields now s :
  isPlaying (stop now s) = false
  /\ isPaused (stop now s) = false
  /\ currentBeat (stop now s) = 0
  /\ totalPausedDuration (stop now s) = 0
  /\ playbackTimer (stop now s) = false
  /\ audioEngine (stop now s) = stopAllNotes now (audioEngine s)
  /\ tabData (stop now s) = tabData s
  /\ allNotes (stop now s) = allNotes s
  /\ completions (stop now s) = completions s
  /\ progressReports (stop now s) =
     (if onProgressCallback s then 0 :: progressReports s else progressReports s).
Proof.
  unfold stop, reportProgress. simpl. destruct (onProgressCallback s); repeat split.
Qed.

Lemma reportComplete_fields s :
  isPlaying (reportComplete s) = isPlaying s
  /\ isPaused (reportComplete s) = isPaused s
  /\ currentBeat (reportComplete s) = currentBeat s
  /\ totalPausedDuration (reportComplete s) = totalPausedDuration s
  /\ playbackTimer (reportComplete s) = playbackTimer s
  /\ audioEngine (reportComplete s) = audioEngine s
  /\ progressReports (reportComplete s) = progressReports s
  /\ completions (reportComplete s) =
     (if onCompleteCallback s then S (completions s) else completions s).
Proof. unfold reportComplete. destruct (onCompleteCallback s); repeat split. Qed.

Lemma tickCore_observers now s :
  onProgressCallback (tickCore now s) = onProgressCallback s
  /\ onCompleteCallback (tickCore now s) = onCompleteCallback s
  /\ completions (tickCore now s) = completions s
  /\ isPaused (tickCore now s) = isPaused s.
Proof.
  unfold tickCore, reportProgress. simpl.
  destruct (onProgressCallback s) eqn:E; simpl; rewrite ?E; repeat split.
Qed.

(** X4. The natural end of a playback.  When looping is off and a tick computes
    a progress of 1, the tick stops the transport -- not playing, not
    paused, beat 0, no timer, the engine silenced as by [stopAllNotes] --,
    reports the progress and then 0, calls the completion observer once,
    and every later tick does nothing. *)
Theorem tick_completes now s tab :
  isPlaying s = true -> tabData s = Some tab -> isLooping s = false ->
  1 <= tickProgress now s ->
  let s' := fst (tick now s) in
  isPlaying s' = false
  /\ isPaused s' = false
  /\ currentBeat s' = 0
  /\ totalPausedDuration s' = 0
  /\ playbackTimer s' = false
  /\ audioEngine s' = stopAllNotes now (audioEngine s)
  /\ completions s' = (if onCompleteCallback s then S (completions s) else completions s)
  /\ progressReports s' =
     (if onProgressCallback s then 0 :: tickProgress now s :: progressReports s
      else progressReports s)
  /\ forall now', tick now' s' = (s', []).
Proof.
  intros Hp Ht Hl Hprog s'.
  assert (Hs' : s' = reportComplete (stop now (tickCore now s))).
  { unfold s'. rewrite (tick_fst now s Hp), Ht, Hl. cbn [andb negb].
    apply Qle_bool_iff in Hprog. now rewrite Hprog. }
  destruct (reportComplete_fields (stop now (tickCore now s)))
    as (R1 & R2 & R3 & R4 & R5 & R6 & R7 & R8).
  destruct (stop_fields now (tickCore now s))
    as (S1 & S2 & S3 & S4 & S5 & S6 & _ & _ & S9 & S10).
  destruct (tickCore_observers now s) as (O1 & O2 & O3 & _).
  rewrite Hs'.
  split; [congruence|]. split; [congruence|]. split; [congruence|].
  split; [congruence|]. split; [congruence|].
  split; [rewrite R6, S6, tickCore_engine; reflexivity|].
  split.
  { rewrite R8. unfold stop, reportProgress. simpl.
    destruct (onProgressCallback (tickCore now s)); simpl; now rewrite O2, O3. }
  split.
  { rewrite R7, S10, O1. destruct (onProgressCallback s) eqn:Hc; [|
      unfold tickCore, reportProgress; simpl; now rewrite Hc ].
    now rewrite tickCore_reports. }
  intros now'. apply tick_not_playing. congruence.
Qed.

Lemma runTicks_not_playing times s :
  isPlaying s = false -> fst (runTicks times s) = s.
Proof.
  intros Hp. induction times as [|now times IH]; [reflexivity|].
  cbn [runTicks]. rewrite tick_not_playing by exact Hp.
  destruct (runTicks times s) as [s2 log]. exact IH.
Qed.

Lemma loop_completions now s : completions (loop now s) = completions s.
Proof. reflexivity. Qed.

Lemma tick_completions now s :
  completions (fst (tick now s)) = completions s
  \/ (completions (fst (tick now s)) = S (completions s)
      /\ isPlaying (fst (tick now s)) = false).
Proof.
  destruct (isPlaying s) eqn:Hp; [|left; now rewrite tick_not_playing].
  rewrite (tick_fst now s Hp).
  destruct (tickCore_observers now s) as (_ & O2 & O3 & _).
  destruct (tabData s); [|now left].
  destruct (isLooping s && _); [left; now rewrite loop_completions|].
  destruct (negb (isLooping s) && _); [|now left].
  destruct (reportComplete_fields (stop now (tickCore now s)))
    as (R1 & _ & _ & _ & _ & _ & _ & R8).
  destruct (stop_fields now (tickCore now s)) as (S1 & _ & _ & _ & _ & _ & _ & _ & S9 & _).
  rewrite R8, R1, S1, S9, O3.
  assert (Hc : onCompleteCallback (stop now (tickCore now s)) = onCompleteCallback s).
  { rewrite <- O2. unfold stop, reportProgress. simpl.
    now destruct (onProgressCallback (tickCore now s)). }
  rewrite Hc. destruct (onCompleteCallback s); auto.
Qed.

(** X5. However many ticks run, the completion observer is called at most
    once: the tick that calls it stops the transport. *)
Theorem completes_at_most_once times s :
  (completions s <= completions (fst (runTicks times s)) <= S (completions s))%nat.
Proof.
  revert s. induction times as [|now times IH]; intros s; [cbn; lia|].
  cbn [runTicks].
  destruct (tick now s) as [s1 calls] eqn:Ht.
  assert (Hs1 : s1 = fst (tick now s)) by now rewrite Ht.
  destruct (runTicks times s1) as [s2 log] eqn:Hr.
  assert (Hs2 : s2 = fst (runTicks times s1)) by now rewrite Hr.
  cbn [fst].
  destruct (tick_completions now s) as [Hc | [Hc Hp]]; rewrite <- Hs1 in *.
  - specialize (IH s1). rewrite <- Hs2 in IH. lia.
  - rewrite Hs2, (runTicks_not_playing times s1 Hp). lia.
Qed.

Lemma play_fresh available now s tab e1 :
  tabData s = Some tab -> isPaused s = false ->
  ensureAudioContext available (audioEngine s) = Some e1 ->
  play available now s =
  Some (startFreshPlayback now (set_audioEngine (setMasterVolume (3 # 10) now e1) s)).
Proof.
  intros Ht Hp He. unfold play. rewrite Ht, He.
  cbn [mbind option_bind isPaused set_audioEngine]. now rewrite Hp.
Qed.

Lemma startFreshPlayback_fresh now s tab :
  tabData s = Some tab ->
  allNotes (startFreshPlayback now s) = sortNotes (collectNotes (measures tab))
  /\ isPaused (startFreshPlayback now s) = false
  /\ totalDuration (startFreshPlayback now s) = totalBeatsOf tab * (60 / tempo s)
  /\ tempo (startFreshPlayback now s) = tempo s.
Proof.
  intros H. unfold startFreshPlayback, startRealtimePlayback, prepareNotes.
  cbn [tabData set_totalPausedDuration set_startTime set_currentBeat set_flags].
  rewrite H. repeat split.
Qed.

(** X6. [stop] and then [play] start the tab again from the beginning: beat 0
    at the clock time of [play], nothing paused, and the triggers flattened
    from the tab again, all unfired, whatever had been fired before. *)
Theorem stop_then_play_restarts available t now s tab :
  tabData s = Some tab -> engine_wf (audioEngine s) ->
  (available = true \/ isInitialized (audioEngine s) = true) ->
  exists s',
    play available now (stop t s) = Some s'
    /\ isPlaying s' = true /\ isPaused s' = false
    /\ currentBeat s' = 0 /\ startTime s' = now /\ totalPausedDuration s' = 0
    /\ allNotes s' = sortNotes (collectNotes (measures tab))
    /\ Forall (fun nd => nd_triggered nd = false) (allNotes s')
    /\ (~ tempo s == 0 -> totalDuration s' = totalBeatsOf tab * (60 / tempo s)).
Proof.
  intros Ht Hwf Hav.
  destruct (stop_fields t s) as (_ & S2 & _ & _ & _ & S6 & S7 & _).
  destruct (stop_frame t s) as [_ Stempo].
  destruct (ensureAudioContext_ready available (stopAllNotes t (audioEngine s)))
    as (e1 & He1 & _).
  { now apply stopAllNotes_wf. }
  { destruct Hav as [Ha | Hi]; [now left | right].
    unfold stopAllNotes. now destruct (audioContext (audioEngine s)). }
  rewrite <- S6 in He1.
  revert S2 S6 S7 Stempo He1. generalize (stop t s) as s0.
  intros s0 S2 S6 S7 Stempo He1.
  rewrite (play_fresh available now s0 tab e1 (eq_trans S7 Ht) S2 He1).
  eexists. split; [reflexivity|].
  set (s1 := set_audioEngine (setMasterVolume (3 # 10) now e1) s0).
  assert (Htab : tabData s1 = Some tab).
  { unfold s1. cbn [tabData set_audioEngine]. congruence. }
  assert (Htempo : tempo s1 = tempo s).
  { unfold s1. cbn [tempo set_audioEngine]. exact Stempo. }
  destruct (startFreshPlayback_frame now s1) as (_ & Hp & Hb & Hst & Hpd).
  destruct (startFreshPlayback_fresh now s1 tab Htab) as (Hn & Hpa & Hd & _).
  split; [exact Hp|]. split; [exact Hpa|]. split; [exact Hb|].
  split; [exact Hst|]. split; [exact Hpd|]. split; [exact Hn|].
  split; [|intros _; rewrite Hd, Htempo; reflexivity].
  rewrite Hn. apply Forall_forall. intros nd Hin. apply list_elem_of_In in Hin.
  apply (Permutation_in _ (sortNotes_perm _)) in Hin.
  apply collectNotes_In in Hin as (m & note & _ & _ & _ & ->). reflexivity.
Qed.

(** X7. Once the playback has started (the clock is past the start time plus
    the paused total), with a positive tempo and a tab that is not empty,
    the progress of a tick lies between 0 and 1. *)
Theorem tickProgress_range now s :
  0 < tempo s -> 0 < totalDuration s ->
  startTime s + totalPausedDuration s <= now ->
  0 <= tickProgress now s <= 1.
Proof.
  intros Ht Hd Hnow. pose proof (beatDuration_pos s Ht) as Hbd.
  unfold tickProgress.
  destruct (Math_min_spec (tickBeat now s / (totalDuration s / (60 / tempo s))) 1)
    as (H1 & H2 & Hc).
  split; [|exact H2].
  assert (Hq : 0 <= tickBeat now s / (totalDuration s / (60 / tempo s))).
  { unfold tickBeat.
    assert (Hden : 0 < totalDuration s / (60 / tempo s)).
    { unfold Qdiv at 1. apply Qmult_lt_0_compat; [exact Hd|].
      now apply Qinv_lt_0_compat. }
    unfold Qdiv at 1. apply Qmult_le_0_compat.
    - unfold Qdiv. apply Qmult_le_0_compat; [lra|].
      apply Qlt_le_weak. now apply Qinv_lt_0_compat.
    - apply Qlt_le_weak. now apply Qinv_lt_0_compat. }
  destruct Hc as [Hc | Hc]; rewrite Hc; [exact Hq | lra].
Qed.

(** * Further properties of the engine *)

(** [initialize] touches neither the registries nor the stores. *)
Lemma initialize_frame available e e1 :
  initialize available e = Some e1 ->
  activeVoices e1 = activeVoices e /\ activeOscillators e1 = activeOscillators e
  /\ voices e1 = voices e /\ oscillators e1 = oscillators e.
Proof.
  unfold initialize. destruct (isInitialized e).
  - intros [= <-]. repeat split.
  - destruct available; [|discriminate]. intros [= <-]. repeat split.
Qed.

(** X8. A successful [initialize] leaves an initialised engine, on which
    [initialize] and [ensureAudioContext] change nothing any more, whether
    or not the platform would still give a context; it touches neither the
    registries nor the stores, and on a first initialisation the master
    gain is 0.3 with nothing scheduled. *)
Theorem initialize_once available e e1 :
  initialize available e = Some e1 ->
  isInitialized e1 = true
  /\ (forall available', initialize available' e1 = Some e1
                         /\ ensureAudioContext available' e1 = Some e1)
  /\ activeVoices e1 = activeVoices e /\ activeOscillators e1 = activeOscillators e
  /\ voices e1 = voices e /\ oscillators e1 = oscillators e
  /\ (isInitialized e = false ->
      available = true /\ audioContext e1 = true
      /\ masterGain e1 = Some (mkParam (3 # 10))).
Proof.
  unfold initialize. destruct (isInitialized e) eqn:Hi.
  - intros [= <-]. split; [exact Hi|]. split.
    + intros a. unfold ensureAudioContext, initialize. now rewrite Hi.
    + repeat split; discriminate.
  - destruct available; [|discriminate]. intros [= <-].
    repeat split.
Qed.

(** Where the platform gives no context, [initialize] fails on an engine
    that is not initialised yet, and so do [playNote] and [play]. *)
Lemma initialize_unavailable e :
  isInitialized e = false -> initialize false e = None.
Proof. intros H. unfold initialize. now rewrite H. Qed.

Section EngineExtras.

Variable midiFrequency : Z -> Q.

(** X9. A note with a negative fret, or with a string outside 0..5, is skipped:
    [playNote] does what [ensureAudioContext] does and nothing else, so no
    voice and no oscillator is created or registered. *)
Theorem playNote_invalid_note_skipped available note off dur now e :
  (fret note < 0 \/ string note < 0 \/ 6 <= string note)%Z ->
  playNote midiFrequency available note off dur now e = ensureAudioContext available e
  /\ forall e',
       playNote midiFrequency available note off dur now e = Some e' ->
       voices e' = voices e /\ oscillators e' = oscillators e
       /\ activeVoices e' = activeVoices e
       /\ activeOscillators e' = activeOscillators e.
Proof.
  intros Hbad.
  assert (Hm : noteEventToMidiNote note = (-1)%Z).
  { unfold noteEventToMidiNote.
    destruct (fret note <? 0)%Z eqn:E1; [reflexivity|].
    destruct (string note <? 0)%Z eqn:E2; [reflexivity|].
    destruct (6 <=? string note)%Z eqn:E3; [reflexivity|]. lia. }
  assert (Heq : playNote midiFrequency available note off dur now e
                = ensureAudioContext available e).
  { unfold playNote. destruct (ensureAudioContext available e); [|reflexivity].
    cbn [mbind option_bind]. now rewrite Hm. }
  split; [exact Heq|].
  intros e' H. rewrite Heq in H. unfold ensureAudioContext in H.
  destruct (isInitialized e); [now injection H as <-|].
  destruct (initialize_frame available e e' H) as (H1 & H2 & H3 & H4).
  auto.
Qed.

(** X10. A valid note on an initialised engine adds exactly one voice and six
    oscillators to the stores and leaves the older ones and the master gain
    as they were; the five harmonic oscillators run from [now + off] to
    [now + off + dur], the vibrato oscillator starts 0.1 s later and stops
    with them. *)
Theorem playNote_schedules_one_voice available note off dur now e :
  ready e -> (0 <= noteEventToMidiNote note)%Z ->
  exists e',
    playNote midiFrequency available note off dur now e = Some e'
    /\ length (voices e') = S (length (voices e))
    /\ length (oscillators e') = (length (oscillators e) + 6)%nat
    /\ (forall i, (i < length (voices e))%nat -> voices e' !! i = voices e !! i)
    /\ (forall i, (i < length (oscillators e))%nat ->
                  oscillators e' !! i = oscillators e !! i)
    /\ masterGain e' = masterGain e
    /\ (forall i, (i < 5)%nat ->
          exists o, oscillators e' !! (length (oscillators e) + i)%nat = Some o
                    /\ osc_start o = Some (now + off)
                    /\ osc_stop o = Some (now + off + dur))
    /\ (exists o, oscillators e' !! (length (oscillators e) + 5)%nat = Some o
                  /\ osc_start o = Some (now + off + (1 # 10))
                  /\ osc_stop o = Some (now + off + dur)
                  /\ osc_frequency o = 45 # 10).
Proof.
  intros Hr Hm.
  destruct (playNote_eq midiFrequency available note off dur now e Hr Hm)
    as (sc & _ & _ & Heq).
  eexists. split; [exact Heq|]. cbn [voices oscillators masterGain].
  split; [rewrite length_app; simpl; lia|].
  split; [rewrite !length_app, length_map; simpl; lia|].
  split; [intros i Hi; now rewrite lookup_app_l|].
  split; [intros i Hi; rewrite <- app_assoc; now rewrite lookup_app_l|].
  split; [reflexivity|].
  split.
  - intros i Hi. rewrite <- app_assoc, lookup_app_plus.
    cbn [harmonicsTable map app].
    destruct i as [|[|[|[|[|?]]]]]; try lia; eexists; repeat split.
  - rewrite <- app_assoc, lookup_app_plus. cbn [harmonicsTable map app].
    eexists. repeat split.
Qed.

End EngineExtras.

(** X11. [setMasterVolume] on an initialised engine brings the volume into
    [[0, 1]] and holds the master gain there from the call on, whatever was
    scheduled (a ramp of [stopAllNotes] included). *)
Theorem setMasterVolume_clamps_and_holds volume now e :
  ready e ->
  exists g v,
    masterGain (setMasterVolume volume now e) = Some g
    /\ 0 <= v <= 1
    /\ (0 <= volume <= 1 -> v == volume)
    /\ forall tau, now <= tau -> valueAt g tau = Some v.
Proof.
  intros Hr. destruct (setMasterVolume_applies volume now e Hr) as (g & Hg & Hv).
  exists g, (Math_max 0 (Math_min 1 volume)).
  split; [exact Hg|]. split; [apply clamp_range; lra|]. split; [|exact Hv].
  intros [H0 H1].
  destruct (Math_min_spec 1 volume) as (Ha & Hb & Hc).
  destruct (Math_max_spec 0 (Math_min 1 volume)) as (Hd & He & Hf).
  revert Ha Hb Hc Hd He Hf.
  generalize (Math_max 0 (Math_min 1 volume)) as M.
  generalize (Math_min 1 volume) as m.
  intros m M Ha Hb Hc Hd He Hf.
  destruct Hf as [Hf | Hf]; destruct Hc as [Hc | Hc]; subst; lra.
Qed.

(** Before the engine is initialised [setMasterVolume] does nothing. *)
Lemma setMasterVolume_uninitialised volume now e :
  masterGain e = None \/ audioContext e = false -> setMasterVolume volume now e = e.
Proof.
  unfold setMasterVolume. intros [H | H].
  - now rewrite H.
  - rewrite H. now destruct (masterGain e).
Qed.

Lemma filter_all_true {A : Type} (f : A -> bool) (l : list A) :
  Forall (fun x => f x = true) l -> List.filter f l = l.
Proof.
  induction 1 as [|x l Hx _ IH]; simpl; [reflexivity|]. now rewrite Hx, IH.
Qed.

(** Cancelling at [t] undoes the hard mute made at [t]. *)
Lemma cancel_muteMaster t g :
  cancelScheduledValues t (muteMaster t g) = cancelScheduledValues t g.
Proof.
  unfold muteMaster, linearRampToValueAtTime, setValueAtTime, schedule.
  pose proof (cancel_events_before t g) as Hc.
  set (q := cancelScheduledValues t g) in *.
  assert (Hle : Forall (fun x => ev_time x <= t) (p_events q)).
  { eapply Forall_impl; [exact Hc|]. simpl. intros x Hx. now apply Qlt_le_weak. }
  cbn [p_events p_value].
  rewrite (insertEvent_append (mkEvent SetValue _ t)) by exact Hle.
  rewrite insertEvent_append.
  2:{ apply Forall_app; split.
      - eapply Forall_impl; [exact Hle|]. simpl. intros x Hx. lra.
      - constructor; [simpl; lra | constructor]. }
  unfold cancelScheduledValues at 1. cbn [p_events p_value].
  rewrite !List.filter_app. cbn [List.filter ev_time].
  assert (E1 : Qltb t t = false) by (apply Qltb_ge; lra).
  assert (E2 : Qltb (t + (1 # 100)) t = false) by (apply Qltb_ge; lra).
  rewrite E1, E2, !app_nil_r.
  rewrite filter_all_true.
  - clearbody q. now destruct q.
  - eapply Forall_impl; [exact Hc|]. intros x Hx. now apply Qltb_lt.
Qed.

Lemma muteMaster_twice t g : muteMaster t (muteMaster t g) = muteMaster t g.
Proof.
  unfold muteMaster at 1. rewrite cancel_muteMaster. reflexivity.
Qed.

(** X12. Two [stopAllNotes] at the same clock time do what one does (the
    controller's [stop] calls it directly and again through the
    sequencer); without an audio context it does nothing at all. *)
Theorem stopAllNotes_twice t e :
  stopAllNotes t (stopAllNotes t e) = stopAllNotes t e
  /\ (audioContext e = false -> stopAllNotes t e = e).
Proof.
  unfold stopAllNotes. destruct (audioContext e) eqn:Hc; cbn [negb].
  - split; [|discriminate].
    cbn [audioContext negb masterGain activeOscillators activeVoices oscillators
         voices isInitialized foldl].
    f_equal. destruct (masterGain e) as [g|]; [|reflexivity].
    cbn [fmap option_fmap option_map]. now rewrite muteMaster_twice.
  - rewrite Hc. auto.
Qed.

Section Restore.

Variable midiFrequency : Z -> Q.

(** X13. [resumeAudio] undoes the mute of a cancellation: a note played after
    [stopAllNotes] and [resumeAudio] reaches the destination through a gain
    of 0.3 from the time of [resumeAudio] on. *)
Theorem resumeAudio_restores_output available note off dur t t2 now e :
  ready e -> (0 <= noteEventToMidiNote note)%Z ->
  exists e3,
    playNote midiFrequency available note off dur now
      (resumeAudio t2 (stopAllNotes t e)) = Some e3
    /\ forall tau, t2 <= tau ->
         exists q, outputGainAt e3 (length (voices e)) tau = Some q /\ q == 3 # 10.
Proof.
  intros Hr Hm.
  pose proof (stopAllNotes_ready t e Hr) as Hr1.
  destruct (stopAllNotes_lengths t e) as [Hlv _].
  set (e1 := stopAllNotes t e) in *.
  destruct (setMasterVolume_frame (3 # 10) t2 e1) as (Hi & Hc & Hg).
  assert (Hr2 : ready (resumeAudio t2 e1)).
  { destruct Hr1 as (H1 & H2 & H3). unfold resumeAudio.
    repeat split; [now rewrite Hc | now rewrite Hi | now apply Hg]. }
  destruct (playNote_eq midiFrequency available note off dur now _ Hr2 Hm)
    as (sc & _ & _ & Heq).
  eexists. split; [exact Heq|].
  intros tau Htau. unfold outputGainAt. cbn [voices masterGain].
  assert (Hlen : length (voices (resumeAudio t2 e1)) = length (voices e)).
  { rewrite <- Hlv. unfold resumeAudio, setMasterVolume.
    destruct (masterGain e1); [|reflexivity]. now destruct (audioContext e1). }
  rewrite <- Hlen, <- (Nat.add_0_r (length (voices _))), lookup_app_plus.
  cbn [lookup list_lookup mbind option_bind voiceOf v_stoppableGain].
  destruct (setMasterVolume_applies (3 # 10) t2 e1 Hr1) as (g & Hg' & Hv).
  unfold resumeAudio. rewrite Hg'. cbn [mbind option_bind].
  rewrite valueAt_mkParam. cbn [mbind option_bind].
  rewrite (Hv tau Htau). cbn [mbind option_bind].
  eexists. split; [reflexivity|]. vm_compute. reflexivity.
Qed.

Lemma mapSet_noteIdKeys m t v l :
  Forall (fun kv : VoiceKey * nat => exists m t, fst kv = NoteId m t) l ->
  Forall (fun kv : VoiceKey * nat => exists m t, fst kv = NoteId m t)
         (mapSet (NoteId m t) v l).
Proof.
  intros H. induction l as [|[k v'] l IH]; simpl.
  - constructor; [simpl; eauto | constructor].
  - inversion H as [|? ? Hk Hl]; subst.
    destruct (VoiceKey_eqb k (NoteId m t)).
    + constructor; [exact Hk | exact Hl].
    + constructor; [exact Hk | now apply IH].
Qed.

Lemma filter_Forall {A : Type} (P : A -> Prop) (f : A -> bool) (l : list A) :
  Forall P l -> Forall P (List.filter f l).
Proof.
  induction 1 as [|x l Hx _ IH]; simpl; [constructor|].
  destruct (f x); [constructor|]; auto.
Qed.

Lemma stopAllNotes_noteIdKeys t e : noteIdKeys e -> noteIdKeys (stopAllNotes t e).
Proof.
  unfold noteIdKeys, stopAllNotes. destruct (audioContext e); simpl; [constructor | auto].
Qed.

Lemma ensureAudioContext_activeVoices available e e' :
  ensureAudioContext available e = Some e' -> activeVoices e' = activeVoices e.
Proof.
  unfold ensureAudioContext, initialize. destruct (isInitialized e); [now intros [= <-]|].
  destruct available; [|discriminate]. now intros [= <-].
Qed.

Lemma setMasterVolume_activeVoices volume now e :
  activeVoices (setMasterVolume volume now e) = activeVoices e.
Proof.
  unfold setMasterVolume. destruct (masterGain e); [|reflexivity].
  now destruct (audioContext e).
Qed.

Lemma playNote_noteIdKeys available note off dur now e e' :
  noteIdKeys e ->
  playNote midiFrequency available note off dur now e = Some e' -> noteIdKeys e'.
Proof.
  unfold noteIdKeys. intros Hk H. unfold playNote in H.
  destruct (ensureAudioContext available e) as [e1|] eqn:He; [|discriminate].
  cbn [mbind option_bind] in H.
  pose proof (ensureAudioContext_activeVoices _ _ _ He) as Hv.
  destruct (noteEventToMidiNote note <? 0)%Z; [injection H as <-; now rewrite Hv|].
  unfold playSimpleGuitarNote in H.
  destruct (audioContext e1); [|discriminate]. cbn [negb] in H.
  destruct (jsIndex stringCharacteristics (string note)) as [sc|]; [|discriminate].
  cbn [mbind option_bind] in H.
  destruct (masterGain e1); [|discriminate]. cbn [mbind option_bind] in H.
  rewrite forEachHarmonic_eq in H. cbn [mbind option_bind] in H.
  cbn [WebAudio.start WebAudio.stop setType setFrequency createOscillator
       osc_start osc_stop osc_frequency osc_type mbind option_bind] in H.
  injection H as <-. cbn. apply mapSet_noteIdKeys. now rewrite Hv.
Qed.

Lemma reachable_noteIdKeys s :
  reachable midiFrequency s -> noteIdKeys (audioEngine s).
Proof.
  induction 1 as [ | tab s _ IH | bpm s _ IH | en s _ IH | a b s _ IH
                 | s _ IH | s _ IH | available now s s' _ IH Hplay
                 | now s _ IH | now s _ IH | now s _ IH
                 | available note st d now s e' _ IH Hplay
                 | now s _ IH | volume now s _ IH
                 | id s _ IH | key s _ IH | m s _ IH ];
    try exact IH.
  - constructor.
  - unfold setTabData. now destruct (truthy _).
  - unfold play in Hplay. destruct (tabData s); [|now injection Hplay as <-].
    destruct (ensureAudioContext available (audioEngine s)) as [e1|] eqn:He;
      [|discriminate].
    cbn [mbind option_bind] in Hplay. injection Hplay as <-.
    assert (Hk : noteIdKeys (setMasterVolume (3 # 10) now e1)).
    { unfold noteIdKeys. rewrite setMasterVolume_activeVoices,
        (ensureAudioContext_activeVoices _ _ _ He). exact IH. }
    cbn [isPaused set_audioEngine]. destruct (isPaused s); [exact Hk|].
    destruct (startFreshPlayback_frame now
                (set_audioEngine (setMasterVolume (3 # 10) now e1) s)) as (-> & _).
    exact Hk.
  - unfold pause. cbn [audioEngine set_flags].
    destruct (audioContext (audioEngine s)); cbn [negb]; [|exact IH].
    now apply stopAllNotes_noteIdKeys.
  - destruct (stop_frame now s) as [-> _]. now apply stopAllNotes_noteIdKeys.
  - now destruct (tick_invariant now s noteIdKeys stopAllNotes_noteIdKeys IH).
  - now apply (playNote_noteIdKeys _ _ _ _ _ _ _ IH Hplay).
  - now apply stopAllNotes_noteIdKeys.
  - unfold noteIdKeys. cbn [audioEngine set_audioEngine].
    now rewrite setMasterVolume_activeVoices.
  - unfold noteIdKeys, voiceCleanup, mapDelete. cbn. now apply filter_Forall.
  - unfold noteIdKeys, playNoteCleanup, mapDelete. cbn. now apply filter_Forall.
Qed.

(** X14. The timer that [playNote] leaves behind deletes the key [midiNote], a
    number, from a map whose keys are all note ids ([`${midiNote}-${startTime}`]):
    in no reachable state does it remove a voice. *)
Theorem playNoteCleanup_removes_nothing s midiNote :
  reachable midiFrequency s ->
  playNoteCleanup midiNote (audioEngine s) = audioEngine s.
Proof.
  intros Hr. pose proof (reachable_noteIdKeys s Hr) as Hk.
  unfold playNoteCleanup, mapDelete, noteIdKeys in *.
  rewrite filter_all_true.
  - now destruct (audioEngine s).
  - eapply Forall_impl; [exact Hk|]. intros [k v] (m & t & Hkv). simpl in *. now subst.
Qed.

End Restore.

Section Deliver.

Variable midiFrequency : Z -> Q.

(** The calls that carry a note [playNote] does not skip. *)
Lemma playNote_ready available note off dur now e :
  ready e ->
  exists e',
    playNote midiFrequency available note off dur now e = Some e'
    /\ ready e'
    /\ masterGain e' = masterGain e
    /\ length (voices e') =
       (length (voices e) + if (0 <=? noteEventToMidiNote note)%Z then 1 else 0)%nat
    /\ length (oscillators e') =
       (length (oscillators e) + if (0 <=? noteEventToMidiNote note)%Z then 6 else 0)%nat.
Proof.
  intros Hr. destruct (0 <=? noteEventToMidiNote note)%Z eqn:E.
  - apply Z.leb_le in E.
    destruct (playNote_eq midiFrequency available note off dur now e Hr E)
      as (sc & _ & _ & Heq).
    eexists. split; [exact Heq|]. destruct Hr as (Hc & Hi & Hg).
    cbn [voices oscillators masterGain].
    split; [repeat split; assumption|]. split; [reflexivity|].
    split; [rewrite length_app; simpl; lia|].
    rewrite !length_app, length_map. simpl. lia.
  - apply Z.leb_gt in E. exists e.
    rewrite (playNote_skip midiFrequency available note off dur now e Hr E).
    rewrite !Nat.add_0_r. repeat split; try apply Hr.
Qed.

(** X15. The bodies of the [playNote] calls of a tick, run on an initialised
    engine, all succeed, whether or not a new context could be created:
    they leave the engine initialised and the master gain as it was, and
    add one voice and six oscillators for every call whose note is valid,
    none for the others. *)
Theorem deliver_one_voice_per_valid_call available now calls e :
  ready e ->
  let valid :=
    length (List.filter (fun c => (0 <=? noteEventToMidiNote (call_note c))%Z) calls) in
  exists e',
    deliver midiFrequency available now calls e = Some e'
    /\ ready e'
    /\ masterGain e' = masterGain e
    /\ length (voices e') = (length (voices e) + valid)%nat
    /\ length (oscillators e') = (length (oscillators e) + 6 * valid)%nat.
Proof.
  intros Hr. cbv zeta. revert e Hr. unfold deliver.
  induction calls as [|c calls IH]; intros e Hr.
  - exists e. simpl. rewrite !Nat.add_0_r. repeat split; try apply Hr.
  - destruct (playNote_ready available (call_note c) (call_startTime c) (call_duration c)
                now e Hr)
      as (e1 & Hplay & Hr1 & Hg1 & Hv1 & Ho1).
    destruct (IH e1 Hr1) as (e' & Hrun & Hr' & Hg' & Hv' & Ho').
    exists e'. cbn [foldl mbind option_bind List.filter]. rewrite Hplay, Hrun.
    split; [reflexivity|]. split; [exact Hr'|]. split; [congruence|].
    rewrite Hv', Ho', Hv1, Ho1.
    destruct (0 <=? noteEventToMidiNote (call_note c))%Z; simpl; split; lia.
Qed.

End Deliver.

(** * Properties of the controller *)

Lemma flat_map_imap {A B C : Type} (f : B -> list C) (g : nat -> A -> B) (l : list A) :
  flat_map f (imap g l) = concat (imap (fun i x => f (g i x)) l).
Proof.
  revert g. induction l as [|x l IH]; intros g; [reflexivity|].
  cbn [imap flat_map concat]. f_equal. apply IH.
Qed.

Lemma filter_map_commute {A B : Type} (f : B -> bool) (g : A -> B) (l : list A) :
  List.filter f (map g l) = map g (List.filter (fun x => f (g x)) l).
Proof.
  induction l as [|x l IH]; simpl; [reflexivity|].
  destruct (f (g x)); simpl; now rewrite IH.
Qed.

Lemma addGlobalBeatPosition_fret m note :
  fret (addGlobalBeatPosition m note) = fret note
  /\ string (addGlobalBeatPosition m note) = string note
  /\ beatPosition (addGlobalBeatPosition m note) = beatPosition note
  /\ beatDuration (addGlobalBeatPosition m note) = beatDuration note
  /\ globalBeatPosition (addGlobalBeatPosition m note) = Some (derivedBeat m note).
Proof.
  unfold addGlobalBeatPosition, derivedBeat.
  destruct (globalBeatPosition note) eqn:E; simpl; auto.
Qed.

(** The triggers of a tab that went through [addGlobalBeatPositions]. *)
Lemma collectNotes_addGlobalBeatPositions tab :
  collectNotes (measures (addGlobalBeatPositions tab)) =
  concat (imap (fun m measure =>
                  map (fun note =>
                         mkNoteData (addGlobalBeatPosition m note) (derivedBeat m note)
                           (beatDuration note) false)
                      (List.filter (fun note => (0 <=? fret note)%Z) (notes measure)))
               (measures tab)).
Proof.
  unfold collectNotes, addGlobalBeatPositions. cbn [measures].
  rewrite flat_map_imap. f_equal. apply imap_ext. intros m measure _.
  cbn [notes]. rewrite filter_map_commute, map_map.
  erewrite filter_ext.
  - apply map_ext. intros note.
    destruct (addGlobalBeatPosition_fret m note) as (_ & _ & _ & Hd & Hg).
    unfold toNoteData, globalBeat. now rewrite Hg, Hd.
  - intros note. cbn. now rewrite (proj1 (addGlobalBeatPosition_fret m note)).
Qed.

(** X16. Loading a tab through the controller: the sequencer receives the tab
    completed by [addGlobalBeatPositions], so that the trigger of each note
    with [fret >= 0] is on the global position that the note carries or,
    for a note without one, on [measureIndex * 4 + beatPosition]. *)
Theorem setupFromTabData_trigger_beats p tab :
  player_tabData p = Some tab ->
  exists p',
    setupFromTabData p = Some p'
    /\ tabData (sequencer p') = Some (addGlobalBeatPositions tab)
    /\ player_tabData p' = Some (addGlobalBeatPositions tab)
    /\ map nd_beatPosition (collectNotes (measures (addGlobalBeatPositions tab))) =
       concat (imap (fun m measure =>
                       map (derivedBeat m)
                           (List.filter (fun note => (0 <=? fret note)%Z) (notes measure)))
                    (measures tab)).
Proof.
  intros Ht. unfold setupFromTabData. rewrite Ht.
  eexists. split; [reflexivity|].
  split.
  { unfold updateLoopRange, setTabData. cbn.
    destruct (truthy (tab_tempo tab)); cbn;
      destruct (Z.min _ _ <? Z.max _ _)%Z; reflexivity. }
  split.
  { unfold updateLoopRange. cbn.
    destruct (truthy (tab_tempo tab)); cbn;
      destruct (Z.min _ _ <? Z.max _ _)%Z; reflexivity. }
  rewrite collectNotes_addGlobalBeatPositions.
  rewrite concat_map. f_equal.
  change (map (map nd_beatPosition)) with (fmap (M:=list) (map nd_beatPosition)).
  rewrite fmap_imap. apply imap_ext. intros m measure _.
  cbn. rewrite map_map. reflexivity.
Qed.

Lemma imap_imap {A B C : Type} (f : nat -> B -> C) (g : nat -> A -> B) (l : list A) :
  imap f (imap g l) = imap (fun i x => f i (g i x)) l.
Proof.
  revert f g. induction l as [|x l IH]; intros f g; [reflexivity|].
  cbn [imap]. f_equal. apply IH.
Qed.

(** A converted legacy tab carries every global position already:
    [addGlobalBeatPositions] leaves it as it is. *)
Lemma addGlobalBeatPositions_convertLegacyFormat legacy :
  addGlobalBeatPositions (convertLegacyFormat legacy) = convertLegacyFormat legacy.
Proof.
  unfold addGlobalBeatPositions, convertLegacyFormat. cbn [measures tab_tempo].
  f_equal. rewrite imap_imap. apply imap_ext. intros m measure _.
  cbn [notes]. f_equal. rewrite map_map. apply map_ext. reflexivity.
Qed.

(** X17. The triggers of a converted legacy tab: the note at sixteenth
    [subdivision] of the measure at index [m] is on beat
    [4 m + subdivision / 4]; with a subdivision in [[0, 16)] that beat lies in
    the four beats of its measure. *)
Theorem convertLegacyFormat_trigger_beats legacy nd :
  In nd (collectNotes (measures (convertLegacyFormat legacy))) ->
  exists m measure note,
    legacy !! m = Some measure /\ In note measure
    /\ (0 <= legacy_fret note)%Z
    /\ string (nd_note nd) = legacy_string note
    /\ fret (nd_note nd) = legacy_fret note
    /\ nd_beatPosition nd = inject_Z (Z.of_nat m) * 4 + subdivision note * (25 # 100)
    /\ nd_beatDuration nd = duration note * (25 # 100)
    /\ (0 <= subdivision note < 16 ->
        inject_Z (Z.of_nat m) * 4 <= nd_beatPosition nd
        < inject_Z (Z.of_nat m) * 4 + 4).
Proof.
  intros Hin. apply collectNotes_In in Hin as (cm & cnote & Hcm & Hcn & Hf & ->).
  unfold convertLegacyFormat in Hcm. cbn [measures] in Hcm.
  apply list_elem_of_In, list_elem_of_lookup in Hcm as [m Hm].
  rewrite list_lookup_imap in Hm.
  destruct (legacy !! m) as [measure|] eqn:Hl; [|discriminate].
  cbn in Hm. injection Hm as <-. cbn [notes] in Hcn.
  apply in_map_iff in Hcn as (note & <- & Hnote).
  exists m, measure, note. cbn in Hf |- *.
  repeat split; try assumption; lra.
Qed.

Lemma updateLoopRange_sequencer_tempo p :
  tempo (sequencer (updateLoopRange p)) = tempo (sequencer p)
  /\ currentTempo (updateLoopRange p) = currentTempo p
  /\ tabData (sequencer (updateLoopRange p)) = tabData (sequencer p).
Proof.
  unfold updateLoopRange. cbn.
  destruct (Z.min _ _ <? Z.max _ _)%Z; repeat split.
Qed.

(** X18. Loading a tab through the controller leaves the tempo of the sequencer
    in [[60, 200]] whatever the tempo field of the tab, and equal to that
    field when it is in range; the tempo that the controller displays is
    the field as it is, in or out of range. *)
Theorem setupFromTabData_tempo p tab :
  player_tabData p = Some tab ->
  exists p',
    setupFromTabData p = Some p'
    /\ 60 <= tempo (sequencer p') <= 200
    /\ tempo (sequencer p') = Math_max 60 (Math_min 200 (currentTempo p'))
    /\ (forall q, tab_tempo tab = Some q -> ~ q == 0 -> currentTempo p' = q)
    /\ (forall q, tab_tempo tab = Some q -> 60 <= q <= 200 -> tempo (sequencer p') == q)
    /\ (truthy (tab_tempo tab) = false -> currentTempo p' = currentTempo p).
Proof.
  intros Ht. unfold setupFromTabData. rewrite Ht.
  eexists. split; [reflexivity|].
  match goal with |- context [updateLoopRange ?x] =>
    destruct (updateLoopRange_sequencer_tempo x) as (Hs & Hc & _); set (p5 := x) in * end.
  rewrite Hs, Hc.
  assert (Htempo : tempo (sequencer p5) = Math_max 60 (Math_min 200 (currentTempo p5))).
  { unfold p5. cbn. destruct (truthy (tab_tempo tab)); reflexivity. }
  assert (Hcur : currentTempo p5 =
                 if truthy (tab_tempo tab) then default 0 (tab_tempo tab)
                 else currentTempo p).
  { unfold p5. cbn. destruct (truthy (tab_tempo tab)); reflexivity. }
  split; [rewrite Htempo; apply clamp_range; lra|].
  split; [exact Htempo|].
  split.
  { intros q Hq Hz. rewrite Hcur. unfold truthy. rewrite Hq.
    destruct (Qeq_bool q 0) eqn:E; [apply Qeq_bool_iff in E; contradiction|].
    reflexivity. }
  split.
  { intros q Hq Hrange. rewrite Htempo, Hcur. unfold truthy. rewrite Hq.
    destruct (Qeq_bool q 0) eqn:E; [apply Qeq_bool_iff in E; lra|]. cbn.
    apply (setTempo_inside q (newSequencer newEngine) Hrange). }
  intros Hf. rewrite Hcur, Hf. reflexivity.
Qed.

(** X19. After [adjustTempo] the tempo that the controller displays is in
    [[60, 200]] and is the tempo of the sequencer. *)
Theorem adjustTempo_agrees delta p :
  60 <= currentTempo (adjustTempo delta p) <= 200
  /\ tempo (sequencer (adjustTempo delta p)) == currentTempo (adjustTempo delta p).
Proof.
  unfold adjustTempo. cbn.
  pose proof (clamp_range 60 200 (currentTempo p + delta)) as H.
  split; [apply H; lra|].
  apply (setTempo_inside _ (newSequencer newEngine)). apply H. lra.
Qed.

Lemma parsedOr_nonzero x d : d <> 0%Z -> parsedOr x d <> 0%Z.
Proof.
  intros Hd. unfold parsedOr. destruct x as [v|]; [|exact Hd].
  destruct (v =? 0)%Z eqn:E; [exact Hd | now apply Z.eqb_neq].
Qed.

(** What [updateLoopRange] hands over: the sequencer and the selection
    follow the range of the controller. *)
Lemma updateLoopRange_fields p :
  loopStartMeasure (sequencer (updateLoopRange p))
  = inject_Z (player_loopStartMeasure (updateLoopRange p))
  /\ loopEndMeasure (sequencer (updateLoopRange p))
     = inject_Z (player_loopEndMeasure (updateLoopRange p))
  /\ selectedMeasures (updateLoopRange p)
     = measureRange (player_loopStartMeasure (updateLoopRange p))
         (player_loopEndMeasure (updateLoopRange p))
  /\ player_loopStartMeasure (updateLoopRange p)
     = Z.max 1 (parsedOr (loopStartInput p) 1).
Proof.
  unfold updateLoopRange.
  destruct (Z.min _ _ <? Z.max _ _)%Z; cbn; repeat split.
Qed.

(** X20. [updateLoopRange] always leaves a loop range with
    [1 <= start <= end], the same in the controller and in the sequencer,
    so that the loop window of the sequencer starts at a beat that is not
    negative and is not empty.  The end stays within the tab (or 8 for an
    empty tab) unless the start input is beyond it, in which case the end is
    moved up to the start. *)
Theorem updateLoopRange_valid p :
  let p' := updateLoopRange p in
  (1 <= player_loopStartMeasure p' <= player_loopEndMeasure p')%Z
  /\ loopStartMeasure (sequencer p') = inject_Z (player_loopStartMeasure p')
  /\ loopEndMeasure (sequencer p') = inject_Z (player_loopEndMeasure p')
  /\ 0 <= (loopStartMeasure (sequencer p') - 1) * 4
       < loopEndMeasure (sequencer p') * 4
  /\ selectedMeasures p' =
     measureRange (player_loopStartMeasure p') (player_loopEndMeasure p')
  /\ player_loopStartMeasure p' = Z.max 1 (parsedOr (loopStartInput p) 1)
  /\ ((player_loopStartMeasure p' <= measureCountOr8 p)%Z ->
      (parsedOr (loopStartInput p) 1 <= parsedOr (loopEndInput p) 8)%Z ->
      (player_loopEndMeasure p' <= measureCountOr8 p)%Z).
Proof.
  cbv zeta. unfold updateLoopRange.
  set (a := Z.max 1 (parsedOr (loopStartInput p) 1)).
  set (b := Z.min (measureCountOr8 p) (parsedOr (loopEndInput p) 8)).
  assert (Ha : (1 <= a)%Z) by (unfold a; lia).
  destruct (b <? a)%Z eqn:E; cbn.
  - apply Z.ltb_lt in E.
    split; [lia|]. split; [reflexivity|]. split; [reflexivity|].
    split.
    { assert (H1 : inject_Z 1 <= inject_Z a) by (rewrite <- Zle_Qle; exact Ha).
      change (inject_Z 1) with 1 in H1. lra. }
    split; [reflexivity|]. split; [reflexivity|]. lia.
  - apply Z.ltb_ge in E.
    split; [lia|]. split; [reflexivity|]. split; [reflexivity|].
    split.
    { assert (H1 : inject_Z 1 <= inject_Z a) by (rewrite <- Zle_Qle; exact Ha).
      assert (H2 : inject_Z a <= inject_Z b) by (rewrite <- Zle_Qle; exact E).
      change (inject_Z 1) with 1 in H1. lra. }
    split; [reflexivity|]. split; [reflexivity|]. unfold b. lia.
Qed.

Lemma Qfloor_between (q : Q) (n : Z) :
  inject_Z n <= q -> q < inject_Z (n + 1) -> Qfloor q = n.
Proof.
  intros H1 H2.
  assert (Ha : (n <= Qfloor q)%Z).
  { rewrite <- (Qfloor_Z n). now apply Qfloor_resp_le. }
  assert (Hb : (Qfloor q < n + 1)%Z).
  { rewrite Zlt_Qlt. eapply Qle_lt_trans; [apply Qfloor_le | exact H2]. }
  lia.
Qed.

(** The grid of [getMeasureFromClick]: cells 200 wide and 180 high from the
    point (50, 60).  A click in the cell of row [r] and column [c] gives
    index [4 r + c] -- for every integer [c], so that a click past the
    fourth column of a row gives a measure of the next row. *)
Lemma getMeasureFromClick_cell (x y : Q) (r c : Z) :
  50 + 200 * inject_Z c <= x < 50 + 200 * inject_Z (c + 1) ->
  60 + 180 * inject_Z r <= y < 60 + 180 * inject_Z (r + 1) ->
  getMeasureFromClick x y = (4 * r + c)%Z.
Proof.
  intros [Hx1 Hx2] [Hy1 Hy2]. unfold getMeasureFromClick.
  rewrite inject_Z_plus in Hx2, Hy2. change (inject_Z 1) with 1 in *.
  rewrite (Qfloor_between ((y - 60) / 180) r), (Qfloor_between ((x - 50) / 200) c).
  - lia.
  - apply Qle_shift_div_l; lra.
  - rewrite inject_Z_plus. change (inject_Z 1) with 1.
    apply Qlt_shift_div_r; lra.
  - apply Qle_shift_div_l; lra.
  - rewrite inject_Z_plus. change (inject_Z 1) with 1.
    apply Qlt_shift_div_r; lra.
Qed.

(** X21. A click in the cell of an existing measure makes that measure the loop
    range, in the controller and in the sequencer. *)
Theorem handleCanvasClick_selects_measure x y r c p tab :
  player_tabData p = Some tab ->
  50 + 200 * inject_Z c <= x < 50 + 200 * inject_Z (c + 1) ->
  60 + 180 * inject_Z r <= y < 60 + 180 * inject_Z (r + 1) ->
  (0 <= 4 * r + c < Z.of_nat (length (measures tab)))%Z ->
  let p' := handleCanvasClick x y p in
  let measureNumber := (4 * r + c + 1)%Z in
  player_loopStartMeasure p' = measureNumber
  /\ player_loopEndMeasure p' = measureNumber
  /\ loopStartMeasure (sequencer p') = inject_Z measureNumber
  /\ loopEndMeasure (sequencer p') = inject_Z measureNumber
  /\ selectedMeasures p' = [measureNumber].
Proof.
  intros Ht Hx Hy Hk. cbv zeta. unfold handleCanvasClick. rewrite Ht.
  rewrite (getMeasureFromClick_cell x y r c Hx Hy).
  assert (E1 : (0 <=? 4 * r + c)%Z = true) by (apply Z.leb_le; lia).
  assert (E2 : (4 * r + c <? Z.of_nat (length (measures tab)))%Z = true)
    by (apply Z.ltb_lt; lia).
  rewrite E1, E2. cbn [andb].
  set (k := (4 * r + c + 1)%Z).
  set (p1 := set_loopInputs (Some k) (Some k) (set_player_loop k k p)).
  destruct (updateLoopRange_fields p1) as (Hs & He & Hsel & Hstart).
  assert (Hk1 : parsedOr (Some k) 1 = k).
  { unfold parsedOr. destruct (k =? 0)%Z eqn:E; [apply Z.eqb_eq in E; lia | reflexivity]. }
  assert (Hk8 : parsedOr (Some k) 8 = k).
  { unfold parsedOr. destruct (k =? 0)%Z eqn:E; [apply Z.eqb_eq in E; lia | reflexivity]. }
  assert (Hcount : (k <= measureCountOr8 p1)%Z).
  { unfold measureCountOr8, p1. cbn. rewrite Ht.
    destruct (Z.of_nat (length (measures tab)) =? 0)%Z eqn:E;
      [apply Z.eqb_eq in E; lia | lia]. }
  assert (Ha : player_loopStartMeasure (updateLoopRange p1) = k).
  { rewrite Hstart. unfold p1. cbn [loopStartInput set_loopInputs]. rewrite Hk1. lia. }
  assert (Hb : player_loopEndMeasure (updateLoopRange p1) = k).
  { unfold updateLoopRange.
    replace (loopStartInput p1) with (Some k) by reflexivity.
    replace (loopEndInput p1) with (Some k) by reflexivity.
    rewrite Hk1, Hk8.
    replace (Z.max 1 k) with k by lia.
    replace (Z.min (measureCountOr8 p1) k) with k by lia.
    rewrite Z.ltb_irrefl. reflexivity. }
  rewrite Hs, He, Hsel, Ha, Hb.
  repeat split.
  unfold measureRange. replace (k - k + 1)%Z with 1%Z by lia.
  change (Z.to_nat 1) with 1%nat. cbn [seq map Z.of_nat].
  now rewrite Z.add_0_r.
Qed.

Lemma stop_then_play available t now s tab :
  tabData s = Some tab -> engine_wf (audioEngine s) ->
  (available = true \/ isInitialized (audioEngine s) = true) ->
  exists s',
    play available now (stop t s) = Some s'
    /\ isPlaying s' = true /\ isPaused s' = false
    /\ currentBeat s' = 0 /\ startTime s' = now /\ totalPausedDuration s' = 0
    /\ allNotes s' = sortNotes (collectNotes (measures tab))
    /\ tempo s' = tempo s
    /\ exists g, masterGain (audioEngine s') = Some g
                 /\ forall tau, now <= tau -> valueAt g tau = Some (3 # 10).
Proof.
  intros Ht Hwf Hav.
  destruct (stop_fields t s) as (_ & S2 & _ & _ & _ & S6 & S7 & _).
  destruct (stop_frame t s) as [_ Stempo].
  destruct (ensureAudioContext_ready available (stopAllNotes t (audioEngine s)))
    as (e1 & He1 & Hr1 & _).
  { now apply stopAllNotes_wf. }
  { destruct Hav as [Ha | Hi]; [now left | right].
    unfold stopAllNotes. now destruct (audioContext (audioEngine s)). }
  rewrite <- S6 in He1.
  revert S2 S6 S7 Stempo He1. generalize (stop t s) as s0.
  intros s0 S2 S6 S7 Stempo He1.
  rewrite (play_fresh available now s0 tab e1 (eq_trans S7 Ht) S2 He1).
  destruct (setMasterVolume_applies (3 # 10) now e1 Hr1) as (g & Hg & Hv).
  eexists. split; [reflexivity|].
  set (s1 := set_audioEngine (setMasterVolume (3 # 10) now e1) s0).
  assert (Htab : tabData s1 = Some tab).
  { unfold s1. cbn [tabData set_audioEngine]. congruence. }
  assert (Htempo : tempo s1 = tempo s).
  { unfold s1. cbn [tempo set_audioEngine]. exact Stempo. }
  destruct (startFreshPlayback_frame now s1) as (He & Hp & Hb & Hst & Hpd).
  destruct (startFreshPlayback_fresh now s1 tab Htab) as (Hn & Hpa & _ & Htm).
  split; [exact Hp|]. split; [exact Hpa|]. split; [exact Hb|].
  split; [exact Hst|]. split; [exact Hpd|]. split; [exact Hn|].
  split; [congruence|].
  exists g. split; [rewrite He; exact Hg | exact Hv].
Qed.

(** X22. [restart] on a loaded tab plays it from the beginning: the controller
    and the sequencer are playing, the beat is 0 at the clock time of the
    call, the triggers are flattened again from the tab and the master gain
    is back to 0.3. *)
Theorem restart_plays_from_start available now p tab :
  tabData (sequencer p) = Some tab -> engine_wf (audioEngine (sequencer p)) ->
  (available = true \/ isInitialized (audioEngine (sequencer p)) = true) ->
  let p' := restart available now p in
  player_isPlaying p' = true
  /\ isPlaying (sequencer p') = true
  /\ currentBeat (sequencer p') = 0
  /\ startTime (sequencer p') = now
  /\ allNotes (sequencer p') = sortNotes (collectNotes (measures tab))
  /\ exists g, masterGain (audioEngine (sequencer p')) = Some g
               /\ forall tau, now <= tau -> valueAt g tau = Some (3 # 10).
Proof.
  intros Ht Hwf Hav. cbv zeta. unfold restart, player_play, player_stop.
  cbn [sequencer set_sequencer set_player_isPlaying set_player_position].
  set (s1 := set_audioEngine (stopAllNotes now (audioEngine (sequencer p))) (sequencer p)).
  destruct (stop_then_play available now now s1 tab) as (s' & Hplay & H).
  - exact Ht.
  - unfold s1. cbn. now apply stopAllNotes_wf.
  - destruct Hav as [Ha | Hi]; [now left | right]. unfold s1. cbn.
    unfold stopAllNotes. now destruct (audioContext (audioEngine (sequencer p))).
  - rewrite Hplay. cbn. destruct H as (H1 & _ & H3 & H4 & _ & H6 & _ & H8). auto 10.
Qed.

(** X23. Where the platform gives no audio context and the engine has none yet,
    the controller's [play] ends not playing and leaves the sequencer as it
    was. *)
Theorem player_play_unavailable now p tab :
  tabData (sequencer p) = Some tab ->
  isInitialized (audioEngine (sequencer p)) = false ->
  player_isPlaying (player_play false now p) = false
  /\ sequencer (player_play false now p) = sequencer p.
Proof.
  intros Ht Hi. unfold player_play, play.
  cbn [sequencer set_player_isPlaying]. rewrite Ht.
  unfold ensureAudioContext, initialize. rewrite Hi. cbn. auto.
Qed.

Lemma measureCountOr8_pos p : (1 <= measureCountOr8 p)%Z.
Proof.
  unfold measureCountOr8. destruct (player_tabData p) as [tab|]; [|lia].
  destruct (Z.of_nat (length (measures tab)) =? 0)%Z eqn:E; [lia|].
  apply Z.eqb_neq in E. lia.
Qed.

(** X24. [selectAllMeasures] selects the measures 1 to the number of measures of
    the tab (to 8 without a tab or with an empty one), whatever the loop
    inputs held, and gives the sequencer that loop range. *)
Theorem selectAllMeasures_selects_all p :
  let p' := selectAllMeasures p in
  player_loopStartMeasure p' = 1%Z
  /\ player_loopEndMeasure p' = measureCountOr8 p
  /\ loopStartInput p' = Some 1%Z
  /\ loopEndInput p' = Some (measureCountOr8 p)
  /\ loopStartMeasure (sequencer p') = inject_Z 1
  /\ loopEndMeasure (sequencer p') = inject_Z (measureCountOr8 p)
  /\ selectedMeasures p' = measureRange 1 (measureCountOr8 p)
  /\ length (selectedMeasures p') = Z.to_nat (measureCountOr8 p).
Proof.
  pose proof (measureCountOr8_pos p) as Hpos.
  cbv zeta. unfold selectAllMeasures, updateLoopRange.
  cbn [loopStartInput loopEndInput set_loopInputs set_player_loop
       player_loopStartMeasure player_loopEndMeasure].
  change (measureCountOr8 (set_loopInputs _ _ (set_player_loop _ _ p)))
    with (measureCountOr8 p).
  set (n := measureCountOr8 p) in *.
  assert (H1 : parsedOr (Some 1%Z) 1 = 1%Z) by reflexivity.
  assert (H2 : parsedOr (Some n) 8 = n).
  { unfold parsedOr. destruct (n =? 0)%Z eqn:E; [apply Z.eqb_eq in E; lia | reflexivity]. }
  rewrite H1, H2. change (Z.max 1 1) with 1%Z. rewrite Z.min_id.
  destruct (n <? 1)%Z eqn:E; [apply Z.ltb_lt in E; lia|].
  cbn. repeat split.
  unfold measureRange. rewrite length_map, length_seq. f_equal. lia.
Qed.

(** * Properties of the Karplus-Strong voice *)

Lemma Q_scale_bound (a d M : Q) :
  - M <= a <= M -> 0 <= d <= 1 -> - M <= a * d <= M.
Proof. intros [H1 H2] [H3 H4]. split; nra. Qed.

Lemma feedbackSample_bound M v c nx :
  0 <= dampingFactor v <= 1 ->
  - M <= c <= M -> - M <= nx <= M -> - M <= lastOutput v <= M ->
  - M <= feedbackSample v c nx <= M.
Proof.
  intros Hd Hc Hn Hl. unfold feedbackSample, applyWoundStringFilter.
  assert (Ha : - M <= (c + nx) * (5 # 10) <= M) by (split; lra).
  pose proof (Q_scale_bound _ _ _ Ha Hd) as Hb.
  destruct (voice_isWound v); [|exact Hb].
  set (x := (c + nx) * (5 # 10) * dampingFactor v) in *. split; lra.
Qed.

(** One turn of the loop on a voice whose index lies inside its delay
    line. *)
Lemma processSample_step v line :
  delayLine v = Some line -> length line = delayLineSize v ->
  (writeIndex v < delayLineSize v)%nat ->
  exists v1 c nx,
    processSample v = Some (v1, c)
    /\ line !! writeIndex v = Some c
    /\ line !! ((writeIndex v + 1) mod delayLineSize v)%nat = Some nx
    /\ delayLine v1 = Some (<[writeIndex v := feedbackSample v c nx]> line)
    /\ writeIndex v1 = ((writeIndex v + 1) mod delayLineSize v)%nat
    /\ delayLineSize v1 = delayLineSize v
    /\ dampingFactor v1 = dampingFactor v
    /\ voice_isWound v1 = voice_isWound v
    /\ voice_isPlaying v1 = voice_isPlaying v
    /\ lastOutput v1 =
       (if voice_isWound v then feedbackSample v c nx else lastOutput v).
Proof.
  intros Hline Hlen Hw.
  assert (Hn : ((writeIndex v + 1) mod delayLineSize v < length line)%nat).
  { rewrite Hlen. apply Nat.mod_upper_bound. lia. }
  destruct (lookup_lt_is_Some_2 line (writeIndex v)) as [c Hc]; [lia|].
  destruct (lookup_lt_is_Some_2 line _ Hn) as [nx Hnx].
  unfold processSample. rewrite Hline. simpl. rewrite Hc. simpl. rewrite Hnx. simpl.
  eexists _, c, nx. split; [reflexivity|]. unfold feedbackSample.
  repeat split; try assumption; simpl; destruct (voice_isWound v); reflexivity.
Qed.

Lemma processSamples_replay n : forall v line,
  delayLine v = Some line -> length line = delayLineSize v ->
  (writeIndex v < delayLineSize v)%nat ->
  (writeIndex v + n <= delayLineSize v)%nat ->
  exists v',
    processSamples n v = Some (v', take n (drop (writeIndex v) line))
    /\ writeIndex v' = ((writeIndex v + n) mod delayLineSize v)%nat
    /\ delayLineSize v' = delayLineSize v
    /\ voice_isPlaying v' = voice_isPlaying v.
Proof.
  induction n as [|n IH]; intros v line Hline Hlen Hw Hn.
  - exists v. simpl. rewrite Nat.add_0_r, Nat.mod_small by exact Hw. now rewrite take_0.
  - destruct (processSample_step v line Hline Hlen Hw)
      as (v1 & c & nx & Hstep & Hc & _ & Hl1 & Hw1 & Hs1 & _ & _ & Hp1 & _).
    simpl. rewrite Hstep. simpl.
    rewrite (drop_S _ _ _ Hc). simpl.
    destruct n as [|n].
    + simpl. exists v1. rewrite take_0. repeat split; assumption.
    + assert (Hw1' : writeIndex v1 = S (writeIndex v)).
      { rewrite Hw1, Nat.mod_small by lia. lia. }
      destruct (IH v1 (<[writeIndex v := feedbackSample v c nx]> line))
        as (v' & Hrun & Hwv & Hsv & Hpv).
      * exact Hl1.
      * rewrite length_insert. congruence.
      * rewrite Hs1. lia.
      * rewrite Hs1. lia.
      * rewrite Hrun. simpl. exists v'.
        rewrite Hw1', drop_insert_lt by lia.
        split; [reflexivity|]. rewrite Hwv, Hw1', Hsv, Hs1.
        repeat split; [f_equal; lia | congruence].
Qed.

Lemma processAudio_playing n v line :
  voice_isPlaying v = true -> delayLine v = Some line ->
  processAudio n v = processSamples n v.
Proof.
  intros Hp Hl. unfold processAudio. rewrite Hp, Hl. reflexivity.
Qed.

(** X25. While the write index has not wrapped around, [processAudio]
    outputs the cells of the delay line as they are, unfiltered: a block of
    [n] samples from index [w], with [w + n] within the delay line, is the
    [n] cells from [w] on.  After [startNote] ([w = 0]) the first
    [delayLineSize] samples are the noise burst itself. *)
Theorem processAudio_replays_delay_line n v line :
  voice_ready v line -> (writeIndex v + n <= delayLineSize v)%nat ->
  exists v',
    processAudio n v = Some (v', take n (drop (writeIndex v) line))
    /\ writeIndex v' = ((writeIndex v + n) mod delayLineSize v)%nat
    /\ delayLineSize v' = delayLineSize v
    /\ voice_isPlaying v' = true.
Proof.
  intros (Hp & Hl & Hlen & Hw) Hn.
  rewrite (processAudio_playing n v line Hp Hl).
  destruct (processSamples_replay n v line Hl Hlen Hw Hn) as (v' & H1 & H2 & H3 & H4).
  exists v'. repeat split; congruence.
Qed.

Lemma processSamples_bounded M n : forall v line,
  voice_ready v line -> 0 <= dampingFactor v <= 1 -> voice_bounded M v line ->
  exists v' line' out,
    processSamples n v = Some (v', out)
    /\ length out = n
    /\ Forall (fun o => - M <= o <= M) out
    /\ voice_ready v' line' /\ voice_bounded M v' line'
    /\ dampingFactor v' = dampingFactor v
    /\ delayLineSize v' = delayLineSize v.
Proof.
  induction n as [|n IH]; intros v line Hr Hd Hb.
  - exists v, line, []. simpl. repeat split; try apply Hr; try apply Hb. constructor.
  - destruct Hr as (Hp & Hl & Hlen & Hw). destruct Hb as (Hcells & Hlast).
    destruct (processSample_step v line Hl Hlen Hw)
      as (v1 & c & nx & Hstep & Hc & Hnx & Hl1 & Hw1 & Hs1 & Hd1 & _ & Hp1 & Hlo1).
    assert (Bc : - M <= c <= M).
    { eapply (proj1 (Forall_lookup _ _) Hcells); exact Hc. }
    assert (Bn : - M <= nx <= M).
    { eapply (proj1 (Forall_lookup _ _) Hcells); exact Hnx. }
    pose proof (feedbackSample_bound M v c nx Hd Bc Bn Hlast) as Bf.
    destruct (IH v1 (<[writeIndex v := feedbackSample v c nx]> line))
      as (v' & line' & out & Hrun & Hlo & Hout & Hr' & Hb' & Hd' & Hs').
    + repeat split.
      * congruence.
      * exact Hl1.
      * rewrite length_insert. congruence.
      * rewrite Hw1, Hs1. apply Nat.mod_upper_bound. lia.
    + now rewrite Hd1.
    + split.
      * apply Forall_insert; assumption.
      * rewrite Hlo1. destruct (voice_isWound v); assumption.
    + exists v', line', (c :: out). simpl. rewrite Hstep. simpl. rewrite Hrun. simpl.
      split; [reflexivity|]. split; [now f_equal|].
      split; [constructor; [exact Bc | exact Hout]|].
      split; [exact Hr'|]. split; [exact Hb'|]. split; congruence.
Qed.

(** X26. The synthesis loop never amplifies: with a damping factor in
    [[0, 1]], if every cell of the delay line and the last filter output lie
    within [M], so does every sample that [processAudio] outputs, for a
    block of any length, and the voice is left in a state of which the same
    holds, so that the bound carries over to every later block. *)
Theorem processAudio_bounded M n v line :
  voice_ready v line -> 0 <= dampingFactor v <= 1 -> voice_bounded M v line ->
  exists v' line' out,
    processAudio n v = Some (v', out)
    /\ length out = n
    /\ Forall (fun o => - M <= o <= M) out
    /\ voice_ready v' line' /\ voice_bounded M v' line'
    /\ dampingFactor v' = dampingFactor v
    /\ delayLineSize v' = delayLineSize v.
Proof.
  intros Hr Hd Hb.
  rewrite (processAudio_playing n v line (proj1 Hr) (proj1 (proj2 Hr))).
  exact (processSamples_bounded M n v line Hr Hd Hb).
Qed.





(** X28. [stopNote] is a fade, not a cut: on a voice whose gain has no
    event after [stopTime], the gain is 0.001 from 100 ms after [stopTime]
    on, while the voice keeps playing on the same delay line; it is
    [cleanup] that silences it -- every later block is zeros -- and a
    [stopNote] after [cleanup] changes nothing. *)
Theorem stopNote_fades_until_cleanup stopTime now v g n :
  gainNode v = Some g ->
  Forall (fun x => ev_time x <= stopTime) (p_events g) ->
  let v2 := stopNote stopTime now v in
  (exists g2,
      gainNode v2 = Some g2
      /\ forall tau, stopTime + (1 # 10) <= tau -> valueAt g2 tau = Some (1 # 1000))
  /\ delayLine v2 = delayLine v
  /\ writeIndex v2 = writeIndex v
  /\ voice_isPlaying v2 = voice_isPlaying v
  /\ processAudio n (cleanup v2) = Some (cleanup v2, repeat 0 n)
  /\ stopNote stopTime now (cleanup v2) = cleanup v2.
Proof.
  intros Hg Hev v2. unfold v2, stopNote. rewrite Hg.
  split; [|repeat split; reflexivity].
  eexists. split; [reflexivity|]. intros tau Ht.
  unfold valueAt, exponentialRampToValueAtTime, setValueAtTime, schedule.
  cbn [p_events p_value].
  rewrite (insertEvent_append (mkEvent SetValue _ stopTime)) by exact Hev.
  rewrite insertEvent_append.
  - apply (timelineAt_past _ _ _ (mkEvent ExponentialRamp (1 # 1000) (stopTime + (1 # 10)))).
    apply Forall_app; split; [apply Forall_app; split|].
    + eapply Forall_impl; [exact Hev|]. simpl. intros x Hx. lra.
    + constructor; [simpl; lra | constructor].
    + constructor; [exact Ht | constructor].
  - apply Forall_app; split.
    + eapply Forall_impl; [exact Hev|]. simpl. intros x Hx. lra.
    + constructor; [simpl; lra | constructor].
Qed.

(** * The further properties at sample inputs *)

Lemma playingTwoClose_reachable : reachable sampleFrequency playingTwoClose.
Proof.
  apply (reach_play sampleFrequency true 0
           (setCompleteCallback
              (setProgressCallback (setTabData tabTwoClose (newSequencer newEngine))))).
  - apply reach_setCompleteCallback, reach_setProgressCallback, reach_setTabData, reach_new.
  - vm_compute. reflexivity.
Defined.

Lemma playingTwoClose_engine_wf : engine_wf (audioEngine playingTwoClose).
Proof. intros _. repeat split. simpl. eauto. Defined.

(** At 0.5 s [playingTwoClose] is on beat 1; the note on beat 1.04 is
    called with a start offset of 0.02 s. *)
Lemma tick_call_bounds_witness :
  isPlaying playingTwoClose = true
  /\ 0 < tempo playingTwoClose
  /\ In secondCall (snd (tick (1 # 2) playingTwoClose))
  /\ call_startTime secondCall == 1 # 50
  /\ 0 <= call_startTime secondCall <= lookahead * (60 / tempo playingTwoClose).
Proof.
  assert (H1 : isPlaying playingTwoClose = true) by reflexivity.
  assert (H2 : 0 < tempo playingTwoClose) by (vm_compute; reflexivity).
  assert (H3 : In secondCall (snd (tick (1 # 2) playingTwoClose))).
  { vm_compute. right. left. reflexivity. }
  split; [exact H1|]. split; [exact H2|]. split; [exact H3|].
  split; [vm_compute; reflexivity|].
  exact (proj1 (tick_call_bounds (1 # 2) playingTwoClose secondCall H1 H2 H3)).
Defined.

Lemma tick_calls_in_beat_order_witness :
  reachable sampleFrequency playingTwoClose
  /\ isPlaying playingTwoClose = true
  /\ 0 < tempo playingTwoClose
  /\ length (snd (tick (1 # 2) playingTwoClose)) = 2%nat
  /\ StronglySorted Qle (map call_startTime (snd (tick (1 # 2) playingTwoClose))).
Proof.
  assert (H2 : 0 < tempo playingTwoClose) by (vm_compute; reflexivity).
  split; [exact playingTwoClose_reachable|]. split; [reflexivity|].
  split; [exact H2|]. split; [vm_compute; reflexivity|].
  exact (tick_calls_in_beat_order sampleFrequency (1 # 2) playingTwoClose
           playingTwoClose_reachable eq_refl H2).
Defined.

(** In one second of ticks of 10 ms, [playingBeatOne] issues one call, for
    its note on beat 1, and no entry is left unfired. *)
Lemma fires_at_most_once_without_loop_witness :
  isLooping playingBeatOne = false
  /\ map call_note (callsOfRun (tickTimes 1 100) playingBeatOne) = [mkNote 0 0 1 1 (Some 1)]
  /\ List.filter unfired (allNotes (fst (runTicks (tickTimes 1 100) playingBeatOne))) = []
  /\ Permutation
       (map call_note (callsOfRun (tickTimes 1 100) playingBeatOne)
        ++ map nd_note
             (List.filter unfired
                (allNotes (fst (runTicks (tickTimes 1 100) playingBeatOne)))))
       (map nd_note (List.filter unfired (allNotes playingBeatOne))).
Proof.
  split; [reflexivity|]. split; [vm_compute; reflexivity|].
  split; [vm_compute; reflexivity|].
  exact (proj1 (fires_at_most_once_without_loop (tickTimes 1 100) playingBeatOne eq_refl)).
Defined.

(** The 4 beats of [playingTwoClose] at 120 bpm are over at 2 s. *)
Lemma tick_completes_witness :
  isPlaying playingTwoClose = true
  /\ tabData playingTwoClose = Some tabTwoClose
  /\ isLooping playingTwoClose = false
  /\ 1 <= tickProgress 2 playingTwoClose
  /\ isPlaying (fst (tick 2 playingTwoClose)) = false
  /\ completions (fst (tick 2 playingTwoClose)) = 1%nat.
Proof.
  assert (H : 1 <= tickProgress 2 playingTwoClose).
  { apply Qle_bool_iff. vm_compute. reflexivity. }
  split; [reflexivity|]. split; [reflexivity|]. split; [reflexivity|].
  split; [exact H|].
  destruct (tick_completes 2 playingTwoClose tabTwoClose eq_refl eq_refl eq_refl H)
    as (H1 & _ & _ & _ & _ & _ & H7 & _).
  split; [exact H1 | exact H7].
Defined.

Lemma stop_then_play_restarts_witness :
  tabData playingTwoClose = Some tabTwoClose
  /\ engine_wf (audioEngine playingTwoClose)
  /\ exists s',
       play true 2 (stop 1 playingTwoClose) = Some s'
       /\ isPlaying s' = true /\ currentBeat s' = 0 /\ startTime s' = 2
       /\ Forall (fun nd => nd_triggered nd = false) (allNotes s').
Proof.
  split; [reflexivity|]. split; [exact playingTwoClose_engine_wf|].
  destruct (stop_then_play_restarts true 1 2 playingTwoClose tabTwoClose eq_refl
              playingTwoClose_engine_wf (or_introl eq_refl))
    as (s' & H1 & H2 & _ & H4 & H5 & _ & _ & H8 & _).
  exists s'. repeat split; assumption.
Defined.

Lemma tickProgress_range_witness :
  0 < tempo playingTwoClose
  /\ 0 < totalDuration playingTwoClose
  /\ startTime playingTwoClose + totalPausedDuration playingTwoClose <= 1
  /\ 0 <= tickProgress 1 playingTwoClose <= 1.
Proof.
  assert (H1 : 0 < tempo playingTwoClose) by (vm_compute; reflexivity).
  assert (H2 : 0 < totalDuration playingTwoClose) by (vm_compute; reflexivity).
  assert (H3 : startTime playingTwoClose + totalPausedDuration playingTwoClose <= 1).
  { vm_compute. discriminate. }
  split; [exact H1|]. split; [exact H2|]. split; [exact H3|].
  exact (tickProgress_range 1 playingTwoClose H1 H2 H3).
Defined.

Lemma initialize_once_witness :
  initialize true newEngine = Some engine0
  /\ isInitialized engine0 = true
  /\ initialize false engine0 = Some engine0
  /\ masterGain engine0 = Some (mkParam (3 # 10)).
Proof.
  destruct (initialize_once true newEngine engine0 eq_refl) as (H1 & H2 & _ & _ & _ & _ & H7).
  split; [reflexivity|]. split; [exact H1|]. split; [exact (proj1 (H2 false))|].
  exact (proj2 (proj2 (H7 eq_refl))).
Defined.

(** A rest (fret -1) played on [engine0]. *)
Lemma playNote_invalid_note_skipped_witness :
  (fret (mkNote 0 (-1) 0 1 None) < 0
   \/ string (mkNote 0 (-1) 0 1 None) < 0
   \/ 6 <= string (mkNote 0 (-1) 0 1 None))%Z
  /\ playNote sampleFrequency true (mkNote 0 (-1) 0 1 None) 0 1 0 engine0
     = ensureAudioContext true engine0.
Proof.
  assert (H : (fret (mkNote 0 (-1) 0 1 None) < 0
               \/ string (mkNote 0 (-1) 0 1 None) < 0
               \/ 6 <= string (mkNote 0 (-1) 0 1 None))%Z).
  { left. reflexivity. }
  split; [exact H|].
  exact (proj1 (playNote_invalid_note_skipped sampleFrequency true
                  (mkNote 0 (-1) 0 1 None) 0 1 0 engine0 H)).
Defined.

Lemma playNote_schedules_one_voice_witness :
  ready engine0
  /\ (0 <= noteEventToMidiNote noteE4)%Z
  /\ exists e',
       playNote sampleFrequency true noteE4 (1 # 2) 1 3 engine0 = Some e'
       /\ length (voices e') = 1%nat
       /\ length (oscillators e') = 6%nat.
Proof.
  assert (H : (0 <= noteEventToMidiNote noteE4)%Z) by (vm_compute; discriminate).
  split; [exact engine0_ready|]. split; [exact H|].
  destruct (playNote_schedules_one_voice sampleFrequency true noteE4 (1 # 2) 1 3 engine0
              engine0_ready H)
    as (e' & H1 & H2 & H3 & _).
  exists e'. split; [exact H1|]. split; [exact H2 | exact H3].
Defined.

(** A volume of 5 is held as 1. *)
Lemma setMasterVolume_clamps_and_holds_witness :
  ready engine0
  /\ exists g v,
       masterGain (setMasterVolume 5 0 engine0) = Some g
       /\ 0 <= v <= 1
       /\ valueAt g 1 = Some v.
Proof.
  split; [exact engine0_ready|].
  destruct (setMasterVolume_clamps_and_holds 5 0 engine0 engine0_ready)
    as (g & v & H1 & H2 & _ & H4).
  exists g, v. split; [exact H1|]. split; [exact H2|].
  apply H4. vm_compute. discriminate.
Defined.

Lemma resumeAudio_restores_output_witness :
  ready engine0
  /\ (0 <= noteEventToMidiNote noteE4)%Z
  /\ exists e3 q,
       playNote sampleFrequency true noteE4 0 1 3
         (resumeAudio 2 (stopAllNotes 1 engine0)) = Some e3
       /\ outputGainAt e3 (length (voices engine0)) (7 # 2) = Some q
       /\ q == 3 # 10.
Proof.
  assert (H : (0 <= noteEventToMidiNote noteE4)%Z) by (vm_compute; discriminate).
  split; [exact engine0_ready|]. split; [exact H|].
  destruct (resumeAudio_restores_output sampleFrequency true noteE4 0 1 1 2 3 engine0
              engine0_ready H)
    as (e3 & H1 & H2).
  destruct (H2 (7 # 2)) as (q & H3 & H4); [vm_compute; discriminate|].
  exists e3, q. split; [exact H1|]. split; [exact H3 | exact H4].
Defined.

Lemma playingWithVoice_reachable : reachable sampleFrequency playingWithVoice.
Proof.
  apply (reach_playNote sampleFrequency true noteE4 0 1 0 playingTwoClose).
  - exact playingTwoClose_reachable.
  - vm_compute. reflexivity.
Defined.

(** [playingWithVoice] has the voice of E4 (MIDI note 64) registered; the
    clean-up of [playNote] for that note leaves it registered. *)
Lemma playNoteCleanup_removes_nothing_witness :
  reachable sampleFrequency playingWithVoice
  /\ length (activeVoices (audioEngine playingWithVoice)) = 1%nat
  /\ playNoteCleanup 64 (audioEngine playingWithVoice) = audioEngine playingWithVoice.
Proof.
  split; [exact playingWithVoice_reachable|]. split; [reflexivity|].
  exact (playNoteCleanup_removes_nothing sampleFrequency playingWithVoice 64
           playingWithVoice_reachable).
Defined.

(** Loading [tabTwoMeasures]: the note of the second measure, which carries
    no global position, gets beat 1 * 4 + 1. *)
Lemma setupFromTabData_trigger_beats_witness :
  player_tabData (playerWithTab tabTwoMeasures) = Some tabTwoMeasures
  /\ exists p',
       setupFromTabData (playerWithTab tabTwoMeasures) = Some p'
       /\ tabData (sequencer p') = Some (addGlobalBeatPositions tabTwoMeasures)
       /\ map nd_beatPosition
            (collectNotes (measures (addGlobalBeatPositions tabTwoMeasures)))
          = [0; inject_Z (Z.of_nat 1) * 4 + 1].
Proof.
  split; [reflexivity|].
  destruct (setupFromTabData_trigger_beats (playerWithTab tabTwoMeasures) tabTwoMeasures
              eq_refl)
    as (p' & H1 & H2 & _ & H4).
  exists p'. split; [exact H1|]. split; [exact H2|]. rewrite H4. reflexivity.
Defined.

Lemma convertLegacyFormat_trigger_beats_witness :
  In legacyTrigger (collectNotes (measures (convertLegacyFormat legacyTwoMeasures)))
  /\ exists m measure note,
       legacyTwoMeasures !! m = Some measure /\ In note measure
       /\ nd_beatPosition legacyTrigger
          = inject_Z (Z.of_nat m) * 4 + subdivision note * (25 # 100).
Proof.
  assert (H : In legacyTrigger
                (collectNotes (measures (convertLegacyFormat legacyTwoMeasures)))).
  { right. left. reflexivity. }
  split; [exact H|].
  destruct (convertLegacyFormat_trigger_beats legacyTwoMeasures legacyTrigger H)
    as (m & measure & note & H1 & H2 & _ & _ & _ & H6 & _).
  exists m, measure, note. split; [exact H1|]. split; [exact H2 | exact H6].
Defined.

(** Loading [tabFast] (tempo 300): the controller shows 300, the sequencer
    runs at 200. *)
Lemma setupFromTabData_tempo_witness :
  player_tabData (playerWithTab tabFast) = Some tabFast
  /\ exists p',
       setupFromTabData (playerWithTab tabFast) = Some p'
       /\ 60 <= tempo (sequencer p') <= 200
       /\ currentTempo p' = 300.
Proof.
  split; [reflexivity|].
  destruct (setupFromTabData_tempo (playerWithTab tabFast) tabFast eq_refl)
    as (p' & H1 & H2 & _ & H4 & _).
  exists p'. split; [exact H1|]. split; [exact H2|].
  apply (H4 300); [reflexivity | intros H; discriminate H].
Defined.

(** A click at (300, 100) on [playerLoaded] falls in row 0, column 1:
    measure 2. *)
Lemma handleCanvasClick_selects_measure_witness :
  player_tabData playerLoaded = Some (addGlobalBeatPositions tabTwoMeasures)
  /\ 50 + 200 * inject_Z 1 <= 300 < 50 + 200 * inject_Z (1 + 1)
  /\ 60 + 180 * inject_Z 0 <= 100 < 60 + 180 * inject_Z (0 + 1)
  /\ (0 <= 4 * 0 + 1 < Z.of_nat (length (measures (addGlobalBeatPositions tabTwoMeasures))))%Z
  /\ player_loopStartMeasure (handleCanvasClick 300 100 playerLoaded) = 2%Z
  /\ selectedMeasures (handleCanvasClick 300 100 playerLoaded) = [2%Z].
Proof.
  assert (H1 : 50 + 200 * inject_Z 1 <= 300 < 50 + 200 * inject_Z (1 + 1)).
  { split; vm_compute; [discriminate | reflexivity]. }
  assert (H2 : 60 + 180 * inject_Z 0 <= 100 < 60 + 180 * inject_Z (0 + 1)).
  { split; vm_compute; [discriminate | reflexivity]. }
  assert (H3 : (0 <= 4 * 0 + 1
                < Z.of_nat (length (measures (addGlobalBeatPositions tabTwoMeasures))))%Z).
  { simpl. lia. }
  split; [reflexivity|]. split; [exact H1|]. split; [exact H2|]. split; [exact H3|].
  destruct (handleCanvasClick_selects_measure 300 100 0 1 playerLoaded
              (addGlobalBeatPositions tabTwoMeasures) eq_refl H1 H2 H3)
    as (H4 & _ & _ & _ & H8).
  split; [exact H4 | exact H8].
Defined.

Lemma playerLoaded_engine_wf : engine_wf (audioEngine (sequencer playerLoaded)).
Proof. intros H. discriminate H. Defined.

Lemma restart_plays_from_start_witness :
  tabData (sequencer playerLoaded) = Some (addGlobalBeatPositions tabTwoMeasures)
  /\ engine_wf (audioEngine (sequencer playerLoaded))
  /\ player_isPlaying (restart true 5 playerLoaded) = true
  /\ isPlaying (sequencer (restart true 5 playerLoaded)) = true
  /\ startTime (sequencer (restart true 5 playerLoaded)) = 5.
Proof.
  split; [reflexivity|]. split; [exact playerLoaded_engine_wf|].
  destruct (restart_plays_from_start true 5 playerLoaded
              (addGlobalBeatPositions tabTwoMeasures) eq_refl playerLoaded_engine_wf
              (or_introl eq_refl))
    as (H1 & H2 & _ & H4 & _).
  split; [exact H1|]. split; [exact H2 | exact H4].
Defined.

(** Where no audio context can be created, the controller's play button
    goes back. *)
Lemma player_play_unavailable_witness :
  tabData (sequencer playerLoaded) = Some (addGlobalBeatPositions tabTwoMeasures)
  /\ isInitialized (audioEngine (sequencer playerLoaded)) = false
  /\ player_isPlaying (player_play false 0 playerLoaded) = false.
Proof.
  split; [reflexivity|]. split; [reflexivity|].
  exact (proj1 (player_play_unavailable 0 playerLoaded
                  (addGlobalBeatPositions tabTwoMeasures) eq_refl eq_refl)).
Defined.

Lemma Forall_forallb {A : Type} (P : A -> Prop) (f : A -> bool) (l : list A) :
  (forall x, f x = true -> P x) -> forallb f l = true -> Forall P l.
Proof.
  intros Hf. induction l as [|x l IH]; simpl; intros H; constructor.
  - apply Hf. now apply andb_true_iff in H as [H _].
  - apply IH. now apply andb_true_iff in H as [_ H].
Defined.

Lemma within_bool (M c : Q) :
  Qle_bool (- M) c && Qle_bool c M = true -> - M <= c <= M.
Proof.
  intros H. apply andb_true_iff in H as [H1 H2].
  split; now apply Qle_bool_iff.
Defined.

Lemma voicePlucked_ready : voice_ready voicePlucked pluckedLine.
Proof.
  split; [reflexivity|]. split; [vm_compute; reflexivity|].
  split; [vm_compute; reflexivity|]. vm_compute. lia.
Defined.

(** The first 134 samples of [voicePlucked] are its noise burst. *)
Lemma processAudio_replays_delay_line_witness :
  voice_ready voicePlucked pluckedLine
  /\ (writeIndex voicePlucked + 134 <= delayLineSize voicePlucked)%nat
  /\ length pluckedLine = 134%nat
  /\ exists v',
       processAudio 134 voicePlucked = Some (v', take 134 (drop 0 pluckedLine))
       /\ writeIndex v' = 0%nat.
Proof.
  assert (H : (writeIndex voicePlucked + 134 <= delayLineSize voicePlucked)%nat).
  { vm_compute. lia. }
  split; [exact voicePlucked_ready|]. split; [exact H|].
  split; [vm_compute; reflexivity|].
  destruct (processAudio_replays_delay_line 134 voicePlucked pluckedLine
              voicePlucked_ready H)
    as (v' & H1 & H2 & _).
  exists v'. split; [exact H1|]. rewrite H2. vm_compute. reflexivity.
Defined.

(** Every sample of the first 4096 of [voicePlucked] is within 0.8. *)
Lemma processAudio_bounded_witness :
  voice_ready voicePlucked pluckedLine
  /\ 0 <= dampingFactor voicePlucked <= 1
  /\ voice_bounded (8 # 10) voicePlucked pluckedLine
  /\ exists v' out,
       processAudio 4096 voicePlucked = Some (v', out)
       /\ length out = 4096%nat
       /\ Forall (fun o => - (8 # 10) <= o <= 8 # 10) out.
Proof.
  assert (Hd : 0 <= dampingFactor voicePlucked <= 1).
  { split; vm_compute; discriminate. }
  assert (Hb : voice_bounded (8 # 10) voicePlucked pluckedLine).
  { split.
    - apply (Forall_forallb _ _ _ (within_bool (8 # 10))). vm_compute. reflexivity.
    - split; vm_compute; discriminate. }
  split; [exact voicePlucked_ready|]. split; [exact Hd|]. split; [exact Hb|].
  destruct (processAudio_bounded (8 # 10) 4096 voicePlucked pluckedLine
              voicePlucked_ready Hd Hb)
    as (v' & line' & out & H1 & H2 & H3 & _).
  exists v', out. split; [exact H1|]. split; [exact H2 | exact H3].
Defined.



(** [voicePlucked] stopped at 1 s: the gain is 0.001 at 2 s. *)
Lemma stopNote_fades_until_cleanup_witness :
  gainNode voicePlucked = Some pluckedGain
  /\ Forall (fun x => ev_time x <= 1) (p_events pluckedGain)
  /\ (exists g2,
        gainNode (stopNote 1 1 voicePlucked) = Some g2
        /\ valueAt g2 2 = Some (1 # 1000))
  /\ processAudio 4096 (cleanup (stopNote 1 1 voicePlucked))
     = Some (cleanup (stopNote 1 1 voicePlucked), repeat 0 4096).
Proof.
  assert (H1 : gainNode voicePlucked = Some pluckedGain) by reflexivity.
  assert (H2 : Forall (fun x => ev_time x <= 1) (p_events pluckedGain)).
  { repeat constructor; vm_compute; discriminate. }
  split; [exact H1|]. split; [exact H2|].
  destruct (stopNote_fades_until_cleanup 1 1 voicePlucked pluckedGain 4096 H1 H2)
    as ((g2 & Hg & Hv) & _ & _ & _ & H6 & _).
  split; [|exact H6].
  exists g2. split; [exact Hg|]. apply Hv. vm_compute. discriminate.
Defined.

(** The two calls of the tick of [playingTwoClose] at 0.5 s, run on
    [engine0]. *)
Lemma deliver_one_voice_per_valid_call_witness :
  ready engine0
  /\ exists e',
       deliver sampleFrequency false (1 # 2) (snd (tick (1 # 2) playingTwoClose)) engine0
         = Some e'
       /\ length (voices e') = 2%nat
       /\ length (oscillators e') = 12%nat.
Proof.
  split; [exact engine0_ready|].
  destruct (deliver_one_voice_per_valid_call sampleFrequency false (1 # 2)
              (snd (tick (1 # 2) playingTwoClose)) engine0 engine0_ready)
    as (e' & H1 & _ & _ & H4 & H5).
  exists e'. split; [exact H1|]. split; [exact H4 | exact H5].
Defined.
